(** * The p2p server of go-zenon: run loop, admission checks, Start and Stop

    A shallow embedding of [p2p/server.go].  Goroutines are not executed:
    every function of the source becomes a function on an explicit state,
    returning the new state together with the list of effects (channel
    sends, goroutine launches, wait-group operations, map writes) in the
    order in which the source performs them.  A run-time panic of the Go
    program is a value of [outcome]. *)

From Stdlib Require Import ZArith String List Lia Bool.
From stdpp Require Import base option list gmap strings pretty fin_maps.

Open Scope Z_scope.

(** ** Results of code that can panic *)

Inductive outcome (A : Type) : Type :=
| Ret (a : A)
| Panic (msg : string).
Arguments Ret {A} a.
Arguments Panic {A} msg.

#[global] Instance outcome_ret : MRet outcome := fun A a => Ret a.

#[global] Instance outcome_bind : MBind outcome := fun A B f m =>
  match m with
  | Ret a => f a
  | Panic msg => Panic msg
  end.

Definition nil_deref {A} : outcome A :=
  Panic "invalid memory address or nil pointer dereference".

(** ** Package discover: node identities and descriptors *)

(** [discover.NodeID] is a [64]byte array; it is carried here as the
    number its bytes spell, the all-zero array being [0]. *)
Abbreviation NodeID := N (only parsing).

Module discover.
Record Node := {
  ID : NodeID;
  IP : string;     (* textual form of the net.IP *)
  TCP : Z;
  UDP : Z
}.

(** [discover.NodeID{}] *)
Definition zeroID : NodeID := 0%N.

(** [&discover.Node{IP: net.ParseIP("0.0.0.0")}] *)
Definition emptyNode : Node :=
  {| ID := zeroID; IP := "0.0.0.0"; TCP := 0; UDP := 0 |}.
End discover.

(** ** Errors *)

(** Modelled from the spec: the declaration of [DiscReason] lives in
    [peer_error.go]; these are the disconnect-reason codes the
    specification lists as wire-visible constants. *)
Inductive DiscReason :=
| DiscQuitting
| DiscTooManyPeers
| DiscAlreadyConnected
| DiscSelf
| DiscUselessPeer
| DiscUnexpectedIdentity
| DiscReadTimeout.

(** Go's [error] values seen by this file.  A nil [error] is [None] of
    [option error]. *)
Inductive error :=
| ErrDisc (r : DiscReason)       (* a DiscReason used as an error *)
| errServerStopped               (* errors.New("server stopped") *)
| ErrMsg (msg : string).         (* errors.New, fmt.Errorf and foreign errors *)

#[global] Instance DiscReason_eq_dec : EqDecision DiscReason.
Proof. solve_decision. Defined.
#[global] Instance error_eq_dec : EqDecision error.
Proof. solve_decision. Defined.

(** ** Capabilities and protocols *)

Module Cap.
Record t := { Name : string; Version : Z }.
End Cap.

Module Protocol.
(** Only the fields the server reads; the runner is not modelled. *)
Record t := { Name : string; Version : Z; Length : Z }.

(** [p.cap()] *)
Definition cap (p : t) : Cap.t := {| Cap.Name := Name p; Cap.Version := Version p |}.
End Protocol.

Module protoHandshake.
Record t := {
  Version : Z;
  Name : string;
  Caps : list Cap.t;
  ID : NodeID
}.
End protoHandshake.

(** ** Connection flags *)

Definition connFlag := Z.

Definition dynDialedConn : connFlag := Z.shiftl 1 0.
Definition staticDialedConn : connFlag := Z.shiftl 1 1.
Definition inboundConn : connFlag := Z.shiftl 1 2.
Definition trustedConn : connFlag := Z.shiftl 1 3.

(** ** Connection descriptors

    A [*conn] is a reference into a store of descriptors: the setup driver
    and the run loop share the descriptor, and the run loop updates its
    flags in place. *)

Record conn := {
  flags : connFlag;
  id : NodeID;            (* valid after the encryption handshake *)
  caps : list Cap.t;      (* valid after the protocol handshake *)
  name : string           (* valid after the protocol handshake *)
}.

Abbreviation connRef := nat (only parsing).

(** [c.is(f)]; [is] is a reserved word of the proof language. *)
Definition conn_is (c : conn) (f : connFlag) : bool :=
  negb (Z.land (flags c) f =? 0).

Definition set_flags (c : conn) (f : connFlag) : conn :=
  {| flags := f; id := id c; caps := caps c; name := name c |}.

Definition set_caps_name (c : conn) (cs : list Cap.t) (n : string) : conn :=
  {| flags := flags c; id := id c; caps := cs; name := n |}.

(** ** Peers *)

(** Modelled from the spec: [Peer] and [newPeer] live in [peer.go].  A
    peer holds its connection, and [p.ID()] is the identity learned on that
    connection. *)
Record Peer := { rw : connRef }.

Definition newPeer (c : connRef) (protocols : list Protocol.t) : Peer :=
  {| rw := c |}.

#[global] Instance Peer_eq_dec : EqDecision Peer.
Proof. solve_decision. Defined.

(** Modelled from the spec: [countMatchingProtocols] lives in [peer.go];
    it counts the (name, version) pairs that a protocol of ours shares with
    a capability of the remote side. *)
Definition cap_matches (proto : Protocol.t) (cap : Cap.t) : bool :=
  String.eqb (Protocol.Name proto) (Cap.Name cap)
  && (Protocol.Version proto =? Cap.Version cap).

Definition countMatchingProtocols (protocols : list Protocol.t) (cs : list Cap.t) : Z :=
  fold_left
    (fun n cap =>
       fold_left (fun n proto => if cap_matches proto cap then n + 1 else n)
                 protocols n)
    cs 0.


(** ** Packages net, ecdsa and nat: what the server touches *)

Module net.
(** A [net.Conn] is identified by its descriptor number. *)
Abbreviation Conn := nat (only parsing).

Record TCPAddr := { IP : string; Port : Z; IsLoopback : bool }.

(** Whether the text holds a colon, as that of an IPv6 address does. *)
Fixpoint has_colon (s : string) : bool :=
  match s with
  | EmptyString => false
  | String a s' => Ascii.eqb a (Ascii.ascii_of_nat 58) || has_colon s'
  end.

(** [laddr.String()]: host and port joined as [net.JoinHostPort] joins
    them, a host that holds a colon in square brackets.  [IP] is the
    address as Go prints it; zones are not modelled. *)
Definition TCPAddr_String (a : TCPAddr) : string :=
  if has_colon (IP a) then ("[" ++ IP a ++ "]:" ++ pretty (Port a))%string
  else (IP a ++ ":" ++ pretty (Port a))%string.

Record Listener := { Addr : TCPAddr; closed : bool }.

(** [l.Close()]; the error of closing twice is dropped by the caller. *)
Definition Close (l : Listener) : Listener := {| Addr := Addr l; closed := true |}.

Record Dialer := { Timeout : Z }.
End net.

Module ecdsa.
Record PrivateKey := { D : Z; X : Z; Y : Z }.
End ecdsa.

Definition nat_Interface := string.

Definition second : Z := 1000000000.
Definition defaultDialTimeout : Z := 15 * second.
Definition refreshPeersInterval : Z := 30 * second.
Definition staticPeerCheckInterval : Z := 15 * second.
Definition maxAcceptConns : Z := 50.
Definition maxActiveDialTasks : Z := 16.
Definition frameReadTimeout : Z := 30 * second.
Definition frameWriteTimeout : Z := 20 * second.

(** ** Channels: only whether they are nil, open or closed matters here *)

Inductive chan := ChanNil | ChanOpen | ChanClosed.

(** [make(chan T)] *)
Definition make_chan : chan := ChanOpen.

(** [close(ch)] *)
Definition close (ch : chan) : outcome chan :=
  match ch with
  | ChanNil => Panic "close of nil channel"
  | ChanOpen => Ret ChanClosed
  | ChanClosed => Panic "close of closed channel"
  end.

(** ** The transport and discovery-table capabilities *)

(** What a transport answers in the two handshakes. *)
Record transport := {
  doEncHandshake : option ecdsa.PrivateKey -> option discover.Node -> NodeID * option error;
  doProtoHandshake : option protoHandshake.t -> protoHandshake.t + error
}.

Record discoverTable := { tab_Self : discover.Node }.

(** A dial task is identified by its address; tasks are compared with [==]. *)
Abbreviation task := nat (only parsing).

Record Server := {
  PrivateKey : option ecdsa.PrivateKey;   (* must be set to a valid key; nil is None *)
  MaxPeers : Z;   (* int *)
  MinConnectedPeers : Z;
  MaxPendingPeers : Z;
  Discovery : bool;
  Name : string;
  ExtraData : string;
  BootstrapNodes : list discover.Node;
  StaticNodes : list discover.Node;
  TrustedNodes : list discover.Node;
  NodeDatabase : string;
  Protocols : list Protocol.t;
  ListenAddr : string;
  NAT : option nat_Interface;
  Dialer : option net.Dialer;
  NoDial : bool;
  newTransport : option (net.Conn -> transport);   (* test hook *)
  newPeerHook : option (Peer -> unit);   (* test hook *)
  running : bool;   (* protected by lock *)
  ntab : option discoverTable;
  listener : option net.Listener;
  ourHandshake : option protoHandshake.t;
  lastLookup : Z;
  peerOp : chan;
  peerOpDone : chan;
  quit : chan;
  addstatic : chan;
  posthandshake : chan;
  addpeer : chan;
  delpeer : chan;
  loopWG : Z   (* sync.WaitGroup counter: workers added and not yet done *)
}.

(** Field updates, one per field that [Start] or [Stop] assigns. *)
Definition set_running (v : _) (s : Server) : Server :=
  {| PrivateKey := PrivateKey s; MaxPeers := MaxPeers s;
     MinConnectedPeers := MinConnectedPeers s;
     MaxPendingPeers := MaxPendingPeers s; Discovery := Discovery s;
     Name := Name s; ExtraData := ExtraData s;
     BootstrapNodes := BootstrapNodes s; StaticNodes := StaticNodes s;
     TrustedNodes := TrustedNodes s; NodeDatabase := NodeDatabase s;
     Protocols := Protocols s; ListenAddr := ListenAddr s; NAT := NAT s;
     Dialer := Dialer s; NoDial := NoDial s; newTransport := newTransport s;
     newPeerHook := newPeerHook s; running := v; ntab := ntab s;
     listener := listener s; ourHandshake := ourHandshake s;
     lastLookup := lastLookup s; peerOp := peerOp s;
     peerOpDone := peerOpDone s; quit := quit s; addstatic := addstatic s;
     posthandshake := posthandshake s; addpeer := addpeer s;
     delpeer := delpeer s; loopWG := loopWG s |}.

Definition set_newTransport (v : _) (s : Server) : Server :=
  {| PrivateKey := PrivateKey s; MaxPeers := MaxPeers s;
     MinConnectedPeers := MinConnectedPeers s;
     MaxPendingPeers := MaxPendingPeers s; Discovery := Discovery s;
     Name := Name s; ExtraData := ExtraData s;
     BootstrapNodes := BootstrapNodes s; StaticNodes := StaticNodes s;
     TrustedNodes := TrustedNodes s; NodeDatabase := NodeDatabase s;
     Protocols := Protocols s; ListenAddr := ListenAddr s; NAT := NAT s;
     Dialer := Dialer s; NoDial := NoDial s; newTransport := v;
     newPeerHook := newPeerHook s; running := running s; ntab := ntab s;
     listener := listener s; ourHandshake := ourHandshake s;
     lastLookup := lastLookup s; peerOp := peerOp s;
     peerOpDone := peerOpDone s; quit := quit s; addstatic := addstatic s;
     posthandshake := posthandshake s; addpeer := addpeer s;
     delpeer := delpeer s; loopWG := loopWG s |}.

Definition set_Dialer (v : _) (s : Server) : Server :=
  {| PrivateKey := PrivateKey s; MaxPeers := MaxPeers s;
     MinConnectedPeers := MinConnectedPeers s;
     MaxPendingPeers := MaxPendingPeers s; Discovery := Discovery s;
     Name := Name s; ExtraData := ExtraData s;
     BootstrapNodes := BootstrapNodes s; StaticNodes := StaticNodes s;
     TrustedNodes := TrustedNodes s; NodeDatabase := NodeDatabase s;
     Protocols := Protocols s; ListenAddr := ListenAddr s; NAT := NAT s;
     Dialer := v; NoDial := NoDial s; newTransport := newTransport s;
     newPeerHook := newPeerHook s; running := running s; ntab := ntab s;
     listener := listener s; ourHandshake := ourHandshake s;
     lastLookup := lastLookup s; peerOp := peerOp s;
     peerOpDone := peerOpDone s; quit := quit s; addstatic := addstatic s;
     posthandshake := posthandshake s; addpeer := addpeer s;
     delpeer := delpeer s; loopWG := loopWG s |}.

Definition set_quit (v : _) (s : Server) : Server :=
  {| PrivateKey := PrivateKey s; MaxPeers := MaxPeers s;
     MinConnectedPeers := MinConnectedPeers s;
     MaxPendingPeers := MaxPendingPeers s; Discovery := Discovery s;
     Name := Name s; ExtraData := ExtraData s;
     BootstrapNodes := BootstrapNodes s; StaticNodes := StaticNodes s;
     TrustedNodes := TrustedNodes s; NodeDatabase := NodeDatabase s;
     Protocols := Protocols s; ListenAddr := ListenAddr s; NAT := NAT s;
     Dialer := Dialer s; NoDial := NoDial s; newTransport := newTransport s;
     newPeerHook := newPeerHook s; running := running s; ntab := ntab s;
     listener := listener s; ourHandshake := ourHandshake s;
     lastLookup := lastLookup s; peerOp := peerOp s;
     peerOpDone := peerOpDone s; quit := v; addstatic := addstatic s;
     posthandshake := posthandshake s; addpeer := addpeer s;
     delpeer := delpeer s; loopWG := loopWG s |}.

Definition set_addpeer (v : _) (s : Server) : Server :=
  {| PrivateKey := PrivateKey s; MaxPeers := MaxPeers s;
     MinConnectedPeers := MinConnectedPeers s;
     MaxPendingPeers := MaxPendingPeers s; Discovery := Discovery s;
     Name := Name s; ExtraData := ExtraData s;
     BootstrapNodes := BootstrapNodes s; StaticNodes := StaticNodes s;
     TrustedNodes := TrustedNodes s; NodeDatabase := NodeDatabase s;
     Protocols := Protocols s; ListenAddr := ListenAddr s; NAT := NAT s;
     Dialer := Dialer s; NoDial := NoDial s; newTransport := newTransport s;
     newPeerHook := newPeerHook s; running := running s; ntab := ntab s;
     listener := listener s; ourHandshake := ourHandshake s;
     lastLookup := lastLookup s; peerOp := peerOp s;
     peerOpDone := peerOpDone s; quit := quit s; addstatic := addstatic s;
     posthandshake := posthandshake s; addpeer := v; delpeer := delpeer s;
     loopWG := loopWG s |}.

Definition set_delpeer (v : _) (s : Server) : Server :=
  {| PrivateKey := PrivateKey s; MaxPeers := MaxPeers s;
     MinConnectedPeers := MinConnectedPeers s;
     MaxPendingPeers := MaxPendingPeers s; Discovery := Discovery s;
     Name := Name s; ExtraData := ExtraData s;
     BootstrapNodes := BootstrapNodes s; StaticNodes := StaticNodes s;
     TrustedNodes := TrustedNodes s; NodeDatabase := NodeDatabase s;
     Protocols := Protocols s; ListenAddr := ListenAddr s; NAT := NAT s;
     Dialer := Dialer s; NoDial := NoDial s; newTransport := newTransport s;
     newPeerHook := newPeerHook s; running := running s; ntab := ntab s;
     listener := listener s; ourHandshake := ourHandshake s;
     lastLookup := lastLookup s; peerOp := peerOp s;
     peerOpDone := peerOpDone s; quit := quit s; addstatic := addstatic s;
     posthandshake := posthandshake s; addpeer := addpeer s; delpeer := v;
     loopWG := loopWG s |}.

Definition set_posthandshake (v : _) (s : Server) : Server :=
  {| PrivateKey := PrivateKey s; MaxPeers := MaxPeers s;
     MinConnectedPeers := MinConnectedPeers s;
     MaxPendingPeers := MaxPendingPeers s; Discovery := Discovery s;
     Name := Name s; ExtraData := ExtraData s;
     BootstrapNodes := BootstrapNodes s; StaticNodes := StaticNodes s;
     TrustedNodes := TrustedNodes s; NodeDatabase := NodeDatabase s;
     Protocols := Protocols s; ListenAddr := ListenAddr s; NAT := NAT s;
     Dialer := Dialer s; NoDial := NoDial s; newTransport := newTransport s;
     newPeerHook := newPeerHook s; running := running s; ntab := ntab s;
     listener := listener s; ourHandshake := ourHandshake s;
     lastLookup := lastLookup s; peerOp := peerOp s;
     peerOpDone := peerOpDone s; quit := quit s; addstatic := addstatic s;
     posthandshake := v; addpeer := addpeer s; delpeer := delpeer s;
     loopWG := loopWG s |}.

Definition set_addstatic (v : _) (s : Server) : Server :=
  {| PrivateKey := PrivateKey s; MaxPeers := MaxPeers s;
     MinConnectedPeers := MinConnectedPeers s;
     MaxPendingPeers := MaxPendingPeers s; Discovery := Discovery s;
     Name := Name s; ExtraData := ExtraData s;
     BootstrapNodes := BootstrapNodes s; StaticNodes := StaticNodes s;
     TrustedNodes := TrustedNodes s; NodeDatabase := NodeDatabase s;
     Protocols := Protocols s; ListenAddr := ListenAddr s; NAT := NAT s;
     Dialer := Dialer s; NoDial := NoDial s; newTransport := newTransport s;
     newPeerHook := newPeerHook s; running := running s; ntab := ntab s;
     listener := listener s; ourHandshake := ourHandshake s;
     lastLookup := lastLookup s; peerOp := peerOp s;
     peerOpDone := peerOpDone s; quit := quit s; addstatic := v;
     posthandshake := posthandshake s; addpeer := addpeer s;
     delpeer := delpeer s; loopWG := loopWG s |}.

Definition set_peerOp (v : _) (s : Server) : Server :=
  {| PrivateKey := PrivateKey s; MaxPeers := MaxPeers s;
     MinConnectedPeers := MinConnectedPeers s;
     MaxPendingPeers := MaxPendingPeers s; Discovery := Discovery s;
     Name := Name s; ExtraData := ExtraData s;
     BootstrapNodes := BootstrapNodes s; StaticNodes := StaticNodes s;
     TrustedNodes := TrustedNodes s; NodeDatabase := NodeDatabase s;
     Protocols := Protocols s; ListenAddr := ListenAddr s; NAT := NAT s;
     Dialer := Dialer s; NoDial := NoDial s; newTransport := newTransport s;
     newPeerHook := newPeerHook s; running := running s; ntab := ntab s;
     listener := listener s; ourHandshake := ourHandshake s;
     lastLookup := lastLookup s; peerOp := v; peerOpDone := peerOpDone s;
     quit := quit s; addstatic := addstatic s;
     posthandshake := posthandshake s; addpeer := addpeer s;
     delpeer := delpeer s; loopWG := loopWG s |}.

Definition set_peerOpDone (v : _) (s : Server) : Server :=
  {| PrivateKey := PrivateKey s; MaxPeers := MaxPeers s;
     MinConnectedPeers := MinConnectedPeers s;
     MaxPendingPeers := MaxPendingPeers s; Discovery := Discovery s;
     Name := Name s; ExtraData := ExtraData s;
     BootstrapNodes := BootstrapNodes s; StaticNodes := StaticNodes s;
     TrustedNodes := TrustedNodes s; NodeDatabase := NodeDatabase s;
     Protocols := Protocols s; ListenAddr := ListenAddr s; NAT := NAT s;
     Dialer := Dialer s; NoDial := NoDial s; newTransport := newTransport s;
     newPeerHook := newPeerHook s; running := running s; ntab := ntab s;
     listener := listener s; ourHandshake := ourHandshake s;
     lastLookup := lastLookup s; peerOp := peerOp s; peerOpDone := v;
     quit := quit s; addstatic := addstatic s;
     posthandshake := posthandshake s; addpeer := addpeer s;
     delpeer := delpeer s; loopWG := loopWG s |}.

Definition set_ntab (v : _) (s : Server) : Server :=
  {| PrivateKey := PrivateKey s; MaxPeers := MaxPeers s;
     MinConnectedPeers := MinConnectedPeers s;
     MaxPendingPeers := MaxPendingPeers s; Discovery := Discovery s;
     Name := Name s; ExtraData := ExtraData s;
     BootstrapNodes := BootstrapNodes s; StaticNodes := StaticNodes s;
     TrustedNodes := TrustedNodes s; NodeDatabase := NodeDatabase s;
     Protocols := Protocols s; ListenAddr := ListenAddr s; NAT := NAT s;
     Dialer := Dialer s; NoDial := NoDial s; newTransport := newTransport s;
     newPeerHook := newPeerHook s; running := running s; ntab := v;
     listener := listener s; ourHandshake := ourHandshake s;
     lastLookup := lastLookup s; peerOp := peerOp s;
     peerOpDone := peerOpDone s; quit := quit s; addstatic := addstatic s;
     posthandshake := posthandshake s; addpeer := addpeer s;
     delpeer := delpeer s; loopWG := loopWG s |}.

Definition set_ourHandshake (v : _) (s : Server) : Server :=
  {| PrivateKey := PrivateKey s; MaxPeers := MaxPeers s;
     MinConnectedPeers := MinConnectedPeers s;
     MaxPendingPeers := MaxPendingPeers s; Discovery := Discovery s;
     Name := Name s; ExtraData := ExtraData s;
     BootstrapNodes := BootstrapNodes s; StaticNodes := StaticNodes s;
     TrustedNodes := TrustedNodes s; NodeDatabase := NodeDatabase s;
     Protocols := Protocols s; ListenAddr := ListenAddr s; NAT := NAT s;
     Dialer := Dialer s; NoDial := NoDial s; newTransport := newTransport s;
     newPeerHook := newPeerHook s; running := running s; ntab := ntab s;
     listener := listener s; ourHandshake := v; lastLookup := lastLookup s;
     peerOp := peerOp s; peerOpDone := peerOpDone s; quit := quit s;
     addstatic := addstatic s; posthandshake := posthandshake s;
     addpeer := addpeer s; delpeer := delpeer s; loopWG := loopWG s |}.

Definition set_ListenAddr (v : _) (s : Server) : Server :=
  {| PrivateKey := PrivateKey s; MaxPeers := MaxPeers s;
     MinConnectedPeers := MinConnectedPeers s;
     MaxPendingPeers := MaxPendingPeers s; Discovery := Discovery s;
     Name := Name s; ExtraData := ExtraData s;
     BootstrapNodes := BootstrapNodes s; StaticNodes := StaticNodes s;
     TrustedNodes := TrustedNodes s; NodeDatabase := NodeDatabase s;
     Protocols := Protocols s; ListenAddr := v; NAT := NAT s;
     Dialer := Dialer s; NoDial := NoDial s; newTransport := newTransport s;
     newPeerHook := newPeerHook s; running := running s; ntab := ntab s;
     listener := listener s; ourHandshake := ourHandshake s;
     lastLookup := lastLookup s; peerOp := peerOp s;
     peerOpDone := peerOpDone s; quit := quit s; addstatic := addstatic s;
     posthandshake := posthandshake s; addpeer := addpeer s;
     delpeer := delpeer s; loopWG := loopWG s |}.

Definition set_listener (v : _) (s : Server) : Server :=
  {| PrivateKey := PrivateKey s; MaxPeers := MaxPeers s;
     MinConnectedPeers := MinConnectedPeers s;
     MaxPendingPeers := MaxPendingPeers s; Discovery := Discovery s;
     Name := Name s; ExtraData := ExtraData s;
     BootstrapNodes := BootstrapNodes s; StaticNodes := StaticNodes s;
     TrustedNodes := TrustedNodes s; NodeDatabase := NodeDatabase s;
     Protocols := Protocols s; ListenAddr := ListenAddr s; NAT := NAT s;
     Dialer := Dialer s; NoDial := NoDial s; newTransport := newTransport s;
     newPeerHook := newPeerHook s; running := running s; ntab := ntab s;
     listener := v; ourHandshake := ourHandshake s;
     lastLookup := lastLookup s; peerOp := peerOp s;
     peerOpDone := peerOpDone s; quit := quit s; addstatic := addstatic s;
     posthandshake := posthandshake s; addpeer := addpeer s;
     delpeer := delpeer s; loopWG := loopWG s |}.

Definition set_loopWG (v : _) (s : Server) : Server :=
  {| PrivateKey := PrivateKey s; MaxPeers := MaxPeers s;
     MinConnectedPeers := MinConnectedPeers s;
     MaxPendingPeers := MaxPendingPeers s; Discovery := Discovery s;
     Name := Name s; ExtraData := ExtraData s;
     BootstrapNodes := BootstrapNodes s; StaticNodes := StaticNodes s;
     TrustedNodes := TrustedNodes s; NodeDatabase := NodeDatabase s;
     Protocols := Protocols s; ListenAddr := ListenAddr s; NAT := NAT s;
     Dialer := Dialer s; NoDial := NoDial s; newTransport := newTransport s;
     newPeerHook := newPeerHook s; running := running s; ntab := ntab s;
     listener := listener s; ourHandshake := ourHandshake s;
     lastLookup := lastLookup s; peerOp := peerOp s;
     peerOpDone := peerOpDone s; quit := quit s; addstatic := addstatic s;
     posthandshake := posthandshake s; addpeer := addpeer s;
     delpeer := delpeer s; loopWG := v |}.
(** ** The dial-state planner

    The planner ([dial.go]) is reached through the [dialer] interface only.
    Its state is what it was built from and the calls it has received; what
    [newTasks] answers is a function of that state and of the arguments. *)

Inductive dialCall :=
| CallNewTasks (nRunning : Z) (peers : gmap NodeID Peer) (now : Z)
| CallTaskDone (t : task) (now : Z)
| CallAddStatic (n : discover.Node).

Record dialState := {
  ds_static : list discover.Node;
  ds_ntab : option discoverTable;
  ds_maxdyn : Z;
  ds_calls : list dialCall
}.

(** [newDialState(static, ntab, maxdyn)] *)
Definition newDialState (static : list discover.Node) (tab : option discoverTable)
    (maxdyn : Z) : dialState :=
  {| ds_static := static; ds_ntab := tab; ds_maxdyn := maxdyn; ds_calls := [] |}.

Definition called (d : dialState) (c : dialCall) : dialState :=
  {| ds_static := ds_static d; ds_ntab := ds_ntab d; ds_maxdyn := ds_maxdyn d;
     ds_calls := ds_calls d ++ [c] |}.

(** ** Effects, in program order *)

Inductive Worker :=
| WRun (d : dialState)                   (* srv.run(dialer) *)
| WListenLoop                            (* srv.listenLoop() *)
| WNatMap                                (* nat.Map(...) *)
| WTask (t : task)                       (* t.Do(srv), then taskdone <- t *)
| WWatchdog (c : connRef)                (* the timeout/quit watcher of setupConn *)
| WRunPeer (p : Peer).                   (* srv.runPeer(p) *)

Inductive Stage := StagePosthandshake | StageAddpeer.

Inductive PeerOpResult :=
| PeersResult (ps : list Peer)
| PeerCountResult (n : Z).

Inductive Effect :=
| EListenerClose                               (* srv.listener.Close() *)
| ECloseQuit                                   (* close(srv.quit) *)
| EWGAdd (n : Z)                               (* srv.loopWG.Add(n) *)
| EWGWait                                      (* srv.loopWG.Wait(); the file never calls it *)
| EGo (w : Worker)                             (* go func() { ... }() *)
| EWarn (msg : string)
| ESendCont (c : connRef) (v : option error)   (* c.cont <- v *)
| ESendPeerOpDone (r : PeerOpResult)           (* op(peers); srv.peerOpDone <- struct{}{} *)
| EPeersStore (k : NodeID) (p : Peer)          (* peers[k] = p *)
| EPeersDelete (k : NodeID)                    (* delete(peers, k) *)
| EDisconnect (p : Peer) (r : DiscReason)      (* p.Disconnect(r) *)
| ENtabClose                                   (* srv.ntab.Close() *)
| EConnClose (c : connRef) (e : error)         (* c.close(e) *)
| ECheckpoint (s : Stage) (c : connRef).       (* stage <- c *)

(** ** Self *)

(** Operations of packages that are not part of this file, gathered as an
    interface: key-to-identity conversion, the default transport, the UDP
    discovery listener, the TCP listener, the base protocol version and the
    answers of the dial-state planner. *)
Class External := {
  PubkeyID : ecdsa.PrivateKey -> NodeID;
  newRLPX : net.Conn -> transport;
  ListenUDP :
    ecdsa.PrivateKey -> string -> option nat_Interface -> string -> discoverTable + error;
  net_Listen : string -> net.Listener + error;
  baseProtocolVersion : Z;
  newTasks : dialState -> Z -> gmap NodeID Peer -> Z -> list task
}.

Section Server.
Context `{External}.

(** [srv.Self()].  The literal [&srv.PrivateKey.PublicKey] dereferences
    the key, so a nil key panics in the two branches that read it. *)
Definition Self (srv : Server) : outcome discover.Node :=
  if negb (running srv) then
    Ret discover.emptyNode
  else
    match ntab srv with
    | None =>
        match listener srv with
        | None =>
            match PrivateKey srv with
            | None => nil_deref
            | Some key =>
                Ret {| discover.IP := "0.0.0.0"; discover.ID := PubkeyID key;
                       discover.TCP := 0; discover.UDP := 0 |}
            end
        | Some l =>
            let addr := net.Addr l in
            match PrivateKey srv with
            | None => nil_deref
            | Some key =>
                Ret {| discover.ID := PubkeyID key;
                       discover.IP := net.IP addr;
                       discover.TCP := net.Port addr mod 2 ^ 16;
                       discover.UDP := 0 |}
            end
        end
    | Some tab => Ret (tab_Self tab)
    end.

(** ** Stop *)

(** [srv.Stop()].  The lock is held for the whole call, so the body is one
    atomic update of the server. *)
Definition Stop (srv : Server) : outcome (Server * list Effect) :=
  if negb (running srv) then
    Ret (srv, [])
  else
    let srv := set_running false srv in
    let '(srv, eff) :=
      match listener srv with
      | Some l => (set_listener (Some (net.Close l)) srv, [EListenerClose])
      | None => (srv, [])
      end in
    q ← close (quit srv);
    Ret (set_quit q srv, eff ++ [ECloseQuit]).

(** ** Start *)

(** [srv.startListening()] *)
Definition startListening (srv : Server) : Server * option error * list Effect :=
  match net_Listen (ListenAddr srv) with
  | inr err => (srv, Some err, [])
  | inl l =>
      let laddr := net.Addr l in
      let srv := set_ListenAddr (net.TCPAddr_String laddr) srv in
      let srv := set_listener (Some l) srv in
      let srv := set_loopWG (loopWG srv + 1) srv in
      let eff := [EWGAdd 1; EGo WListenLoop] in
      if negb (net.IsLoopback laddr) && bool_decide (NAT srv <> None) then
        (set_loopWG (loopWG srv + 1) srv, None, eff ++ [EWGAdd 1; EGo WNatMap])
      else
        (srv, None, eff)
  end.

(** The seven [make(chan ...)] of [Start]. *)
Definition make_channels (srv : Server) : Server :=
  set_peerOpDone make_chan
    (set_peerOp make_chan
       (set_addstatic make_chan
          (set_posthandshake make_chan
             (set_delpeer make_chan
                (set_addpeer make_chan (set_quit make_chan srv)))))).

(** [srv.Start()].  Like [Stop] it runs under the lock. *)
Definition Start (srv : Server) : Server * option error * list Effect :=
  if running srv then
    (srv, Some (ErrMsg "server already running"), [])
  else
    let srv := set_running true srv in
    (* static fields *)
    match PrivateKey srv with
    | None => (srv, Some (ErrMsg "Server.PrivateKey must be set to a non-nil key"), [])
    | Some key =>
        let srv :=
          match newTransport srv with
          | None => set_newTransport (Some newRLPX) srv
          | Some _ => srv
          end in
        let srv :=
          match Dialer srv with
          | None => set_Dialer (Some {| net.Timeout := defaultDialTimeout |}) srv
          | Some _ => srv
          end in
        let srv := make_channels srv in
        (* node table *)
        let tab :=
          if Discovery srv then
            match ListenUDP key (ListenAddr srv) (NAT srv) (NodeDatabase srv) with
            | inl tab => inl (set_ntab (Some tab) srv)
            | inr err => inr err
            end
          else inl srv in
        match tab with
        | inr err => (srv, Some err, [])
        | inl srv =>
            let dynPeers := if negb (Discovery srv) then 0 else MinConnectedPeers srv in
            let dialer := newDialState (StaticNodes srv) (ntab srv) dynPeers in
            (* handshake *)
            let srv :=
              set_ourHandshake
                (Some {| protoHandshake.Version := baseProtocolVersion;
                         protoHandshake.Name := Name srv;
                         protoHandshake.ID := PubkeyID key;
                         protoHandshake.Caps := map Protocol.cap (Protocols srv) |})
                srv in
            (* listen/dial *)
            let '(srv, err, eff) :=
              if bool_decide (ListenAddr srv <> EmptyString) then startListening srv
              else (srv, None, []) in
            match err with
            | Some err => (srv, Some err, eff)
            | None =>
                let eff :=
                  if NoDial srv && bool_decide (ListenAddr srv = EmptyString) then
                    eff ++ [EWarn "I will be kind-of useless, neither dialing nor listening."]
                  else eff in
                let srv := set_loopWG (loopWG srv + 1) srv in
                let eff := eff ++ [EWGAdd 1; EGo (WRun dialer)] in
                (set_running true srv, None, eff)
            end
        end
    end.

(** ** Admission checks *)

(** [len(peers)].  Go's [int] is 64 bits wide; the lengths and sums of
    lengths below are sizes of structures in memory and cannot wrap, so they
    are plain integers. *)
Definition len_peers (peers : gmap NodeID Peer) : Z := Z.of_nat (size peers).

(** [srv.encHandshakeChecks(peers, c)]: the cases of the [switch] are tried
    from the top, and [srv.Self()] is called only when the third is reached. *)
Definition encHandshakeChecks (srv : Server) (peers : gmap NodeID Peer) (c : conn)
    : outcome (option error) :=
  if negb (conn_is c (Z.lor trustedConn staticDialedConn))
     && (MaxPeers srv <=? len_peers peers) then
    Ret (Some (ErrDisc DiscTooManyPeers))
  else if bool_decide (is_Some (peers !! id c)) then
    Ret (Some (ErrDisc DiscAlreadyConnected))
  else
    self ← Self srv;
    if bool_decide (id c = discover.ID self) then Ret (Some (ErrDisc DiscSelf))
    else Ret None.

(** [srv.protoHandshakeChecks(peers, c)] *)
Definition protoHandshakeChecks (srv : Server) (peers : gmap NodeID Peer) (c : conn)
    : outcome (option error) :=
  if (0 <? Z.of_nat (length (Protocols srv)))
     && (countMatchingProtocols (Protocols srv) (caps c) =? 0) then
    Ret (Some (ErrDisc DiscUselessPeer))
  else
    encHandshakeChecks srv peers c.

(** ** The run loop *)

Inductive Phase :=
| Running      (* inside the [running:] loop *)
| Spindown     (* after [break running], draining [delpeer] *)
| Exited.      (* [run] has returned *)

(** The local variables of [run], together with the store of connection
    descriptors that the run loop shares with the setup drivers. *)
Record State := {
  conns : gmap connRef conn;
  peers : gmap NodeID Peer;
  runningTasks : list task;
  queuedTasks : list task;
  dialstate : dialState;
  phase : Phase
}.

Definition initial (d : dialState) : State :=
  {| conns := ∅; peers := ∅; runningTasks := []; queuedTasks := [];
     dialstate := d; phase := Running |}.

(** The [trusted] map built at the head of [run]. *)
Definition trusted (srv : Server) : gmap NodeID bool :=
  foldl (fun m n => <[discover.ID n := true]> m) ∅ (TrustedNodes srv).

(** [trusted[k]], the zero value [false] standing for a missing key. *)
Definition trusted_at (srv : Server) (k : NodeID) : bool :=
  default false (trusted srv !! k).

(** [delTask]: removes the first occurrence of [t]. *)
Fixpoint delTask (t : task) (rt : list task) : list task :=
  match rt with
  | [] => []
  | x :: rt' => if decide (x = t) then rt' else x :: delTask t rt'
  end.

(** [startTasks]: launches tasks of [ts] while fewer than
    [maxActiveDialTasks] are running; answers the tasks not started, the new
    [runningTasks] and the effects. *)
Fixpoint startTasks (ts : list task) (rt : list task)
    : list task * list task * list Effect :=
  match ts with
  | [] => ([], rt, [])
  | t :: ts' =>
      if Z.of_nat (length rt) <? maxActiveDialTasks then
        let '(rest, rt', eff) := startTasks ts' (rt ++ [t]) in
        (rest, rt', EWGAdd 1 :: EGo (WTask t) :: eff)
      else (ts, rt, [])
  end.

(** [scheduleTasks]; [now] is its own reading of the clock. *)
Definition scheduleTasks (srv : Server) (st : State) (now : Z) : State * list Effect :=
  if negb (running srv) then (st, [])
  else
    (* Start from queue first. *)
    let '(queued, rt, eff1) := startTasks (queuedTasks st) (runningTasks st) in
    (* Query dialer for new tasks and start as many as possible now. *)
    if Z.of_nat (length rt) <? maxActiveDialTasks then
      let n := Z.of_nat (length rt) + Z.of_nat (length queued) in
      let nt := newTasks (dialstate st) n (peers st) now in
      let d := called (dialstate st) (CallNewTasks n (peers st) now) in
      let '(rest, rt', eff2) := startTasks nt rt in
      ({| conns := conns st; peers := peers st; runningTasks := rt';
          queuedTasks := queued ++ rest; dialstate := d; phase := phase st |},
       eff1 ++ eff2)
    else
      ({| conns := conns st; peers := peers st; runningTasks := rt;
          queuedTasks := queued; dialstate := dialstate st; phase := phase st |},
       eff1).

(** The two closures that [Peers] and [PeerCount] send on [peerOp]. *)
Inductive PeerOp := OpPeers | OpPeerCount.

Definition run_peerOp (op : PeerOp) (peers : gmap NodeID Peer) : PeerOpResult :=
  match op with
  | OpPeers => PeersResult (map_to_list peers).*2
  | OpPeerCount => PeerCountResult (len_peers peers)
  end.

(** What the [select] of the run loop receives. *)
Inductive Event :=
| EvQuit
| EvAddStatic (n : discover.Node)
| EvPeerOp (op : PeerOp)
| EvTaskDone (t : task)
| EvPosthandshake (c : connRef)
| EvAddPeer (c : connRef)
| EvDelPeer (p : Peer).

Definition with_peers (st : State) (ps : gmap NodeID Peer) (ph : Phase) : State :=
  {| conns := conns st; peers := ps; runningTasks := runningTasks st;
     queuedTasks := queuedTasks st; dialstate := dialstate st; phase := ph |}.

Definition with_conns (st : State) (cs : gmap connRef conn) : State :=
  {| conns := cs; peers := peers st; runningTasks := runningTasks st;
     queuedTasks := queuedTasks st; dialstate := dialstate st; phase := phase st |}.

Definition with_tasks (st : State) (rt : list task) (d : dialState) : State :=
  {| conns := conns st; peers := peers st; runningTasks := rt;
     queuedTasks := queuedTasks st; dialstate := d; phase := phase st |}.

(** [p.ID()]: the identity stored in the peer's connection descriptor. *)
Definition Peer_ID (cs : gmap connRef conn) (p : Peer) : outcome NodeID :=
  match cs !! rw p with
  | Some c => Ret (id c)
  | None => nil_deref
  end.

(** The code after [break running], up to the first receive of the
    draining loop. *)
Definition spindown (srv : Server) (st : State) : State * list Effect :=
  let disc := (fun p => EDisconnect p DiscQuitting) <$> (map_to_list (peers st)).*2 in
  let tab := match ntab srv with Some _ => [ENtabClose] | None => [] end in
  (with_peers st (peers st) (if bool_decide (0 < len_peers (peers st)) then Spindown else Exited),
   disc ++ tab).

(** One case of the [select]; [now] is the clock read at the head of the
    iteration. *)
Definition handle (srv : Server) (st : State) (now : Z) (ev : Event)
    : outcome (State * list Effect) :=
  match ev with
  | EvQuit => Ret (spindown srv st)
  | EvAddStatic n =>
      Ret (with_tasks st (runningTasks st) (called (dialstate st) (CallAddStatic n)), [])
  | EvPeerOp op =>
      Ret (st, [ESendPeerOpDone (run_peerOp op (peers st))])
  | EvTaskDone t =>
      Ret (with_tasks st (delTask t (runningTasks st))
             (called (dialstate st) (CallTaskDone t now)), [])
  | EvPosthandshake c =>
      match conns st !! c with
      | None => nil_deref
      | Some cn =>
          let cn :=
            if trusted_at srv (id cn) then
              (* Ensure that the trusted flag is set before checking against MaxPeers. *)
              set_flags cn (Z.lor (flags cn) trustedConn)
            else cn in
          let st := with_conns st (<[c := cn]> (conns st)) in
          v ← encHandshakeChecks srv (peers st) cn;
          Ret (st, [ESendCont c v])
      end
  | EvAddPeer c =>
      match conns st !! c with
      | None => nil_deref
      | Some cn =>
          err ← protoHandshakeChecks srv (peers st) cn;
          match err with
          | Some _ =>
              Ret (st, [ESendCont c err])
          | None =>
              (* The handshakes are done and it passed all checks. *)
              let p := newPeer c (Protocols srv) in
              Ret (with_peers st (<[id cn := p]> (peers st)) (phase st),
                   [EPeersStore (id cn) p; EWGAdd 1; EGo (WRunPeer p);
                    (* Unblock the task last. *)
                    ESendCont c err])
          end
      end
  | EvDelPeer p =>
      k ← Peer_ID (conns st) p;
      Ret (with_peers st (delete k (peers st)) (phase st), [EPeersDelete k])
  end.

(** One turn of the [running:] loop: read the clock, schedule, select. *)
Definition iteration (srv : Server) (st : State) (now schedNow : Z) (ev : Event)
    : outcome (State * list Effect) :=
  let '(st, eff1) := scheduleTasks srv st schedNow in
  '(st, eff2) ← handle srv st now ev;
  Ret (st, eff1 ++ eff2).

(** One turn of the draining loop [for len(peers) > 0]. *)
Definition drain (st : State) (p : Peer) : outcome (State * list Effect) :=
  k ← Peer_ID (conns st) p;
  let ps := delete k (peers st) in
  Ret (with_peers st ps (if bool_decide (0 < len_peers ps) then Spindown else Exited),
       [EPeersDelete k]).

(** Steps of the run loop and of the setup drivers that share the
    connection store with it. *)
Inductive Label :=
| LIteration (now schedNow : Z) (ev : Event)
| LDrain (p : Peer)
| LNewConn (r : connRef) (c : conn)                      (* c := &conn{...}; c.id = ... *)
| LProtoHandshake (r : connRef) (cs : list Cap.t) (n : string).   (* c.caps, c.name = ... *)

Inductive loop_step (srv : Server) : State -> Label -> list Effect -> State -> Prop :=
| step_iteration st now schedNow ev st' eff :
    phase st = Running ->
    iteration srv st now schedNow ev = Ret (st', eff) ->
    loop_step srv st (LIteration now schedNow ev) eff st'
| step_drain st p st' eff :
    phase st = Spindown ->
    drain st p = Ret (st', eff) ->
    loop_step srv st (LDrain p) eff st'
| step_newconn st r c :
    conns st !! r = None ->
    loop_step srv st (LNewConn r c) [] (with_conns st (<[r := c]> (conns st)))
| step_protohandshake st r c cs n :
    conns st !! r = Some c ->
    loop_step srv st (LProtoHandshake r cs n) []
      (with_conns st (<[r := set_caps_name c cs n]> (conns st))).

Inductive reachable (srv : Server) (d : dialState) : State -> Prop :=
| reach_initial : reachable srv d (initial d)
| reach_step st l eff st' :
    reachable srv d st -> loop_step srv st l eff st' -> reachable srv d st'.

(** The steps as a function, for running traces: [None] when the step
    cannot be taken in the state (wrong phase, address in use, unknown
    descriptor) or panics. *)
Definition exec (srv : Server) (st : State) (l : Label) : option (State * list Effect) :=
  match l with
  | LIteration now schedNow ev =>
      match phase st, iteration srv st now schedNow ev with
      | Running, Ret r => Some r
      | _, _ => None
      end
  | LDrain p =>
      match phase st, drain st p with
      | Spindown, Ret r => Some r
      | _, _ => None
      end
  | LNewConn r c =>
      match conns st !! r with
      | None => Some (with_conns st (<[r := c]> (conns st)), [])
      | Some _ => None
      end
  | LProtoHandshake r cs n =>
      match conns st !! r with
      | Some c => Some (with_conns st (<[r := set_caps_name c cs n]> (conns st)), [])
      | None => None
      end
  end.

Fixpoint exec_all (srv : Server) (st : State) (ls : list Label)
    : option (State * list Effect) :=
  match ls with
  | [] => Some (st, [])
  | l :: ls' =>
      match exec srv st l with
      | Some (st', eff) =>
          match exec_all srv st' ls' with
          | Some (st'', eff') => Some (st'', eff ++ eff')
          | None => None
          end
      | None => None
      end
  end.

(** Any number of steps. *)
Inductive steps (srv : Server) : State -> State -> Prop :=
| steps_refl st : steps srv st st
| steps_cons st l eff st' st'' :
    loop_step srv st l eff st' -> steps srv st' st'' -> steps srv st st''.


(** ** The setup driver *)

(** How a call of [checkpoint] goes: each of its two [select]s may take
    [<-srv.quit]; otherwise the run loop answers on [c.cont]. *)
Inductive CheckpointOutcome :=
| CpQuitBeforeSend
| CpQuitBeforeReply
| CpReply (v : option error).

(** [srv.checkpoint(c, stage)] *)
Definition checkpoint (c : connRef) (stage : Stage) (o : CheckpointOutcome)
    : option error * list Effect :=
  match o with
  | CpQuitBeforeSend => (Some errServerStopped, [])
  | CpQuitBeforeReply => (Some errServerStopped, [ECheckpoint stage c])
  | CpReply v => (v, [ECheckpoint stage c])
  end.

Definition set_id (c : conn) (k : NodeID) : conn :=
  {| flags := flags c; id := k; caps := caps c; name := name c |}.

(** [srv.setupConn(fd, flags, dialDest)].  [r] is the address of the new
    descriptor; [cp1] and [cp2] say how the two checkpoints go.  The answer
    is the descriptor as the driver wrote it (the run loop may add
    [trustedConn] to the shared flags, which the driver never reads) and
    the effects. *)
Definition setupConn (srv : Server) (r : connRef) (fd : net.Conn) (fl : connFlag)
    (dialDest : option discover.Node) (cp1 cp2 : CheckpointOutcome)
    : outcome (conn * list Effect) :=
  (* Prevent leftover pending conns from entering the handshake. *)
  let running := running srv in
  match newTransport srv with
  | None => nil_deref
  | Some mk =>
      let tr := mk fd in
      let c := {| flags := fl; id := discover.zeroID; caps := []; name := EmptyString |} in
      if negb running then
        Ret (c, [EConnClose r errServerStopped])
      else
        let eff := [EGo (WWatchdog r)] in
        (* Run the encryption handshake. *)
        let '(k, err) := doEncHandshake tr (PrivateKey srv) dialDest in
        let c := set_id c k in
        match err with
        | Some err => Ret (c, eff ++ [EConnClose r err])
        | None =>
            (* For dialed connections, check that the remote public key matches. *)
            if match dialDest with
               | Some d => bool_decide (id c <> discover.ID d)
               | None => false
               end
            then Ret (c, eff ++ [EConnClose r (ErrDisc DiscUnexpectedIdentity)])
            else
              let '(err, eff1) := checkpoint r StagePosthandshake cp1 in
              match err with
              | Some err => Ret (c, eff ++ eff1 ++ [EConnClose r err])
              | None =>
                  (* Run the protocol handshake *)
                  match doProtoHandshake tr (ourHandshake srv) with
                  | inr err => Ret (c, eff ++ eff1 ++ [EConnClose r err])
                  | inl phs =>
                      if bool_decide (protoHandshake.ID phs <> id c) then
                        Ret (c, eff ++ eff1 ++ [EConnClose r (ErrDisc DiscUnexpectedIdentity)])
                      else
                        let c := set_caps_name c (protoHandshake.Caps phs)
                                   (protoHandshake.Name phs) in
                        let '(err, eff2) := checkpoint r StageAddpeer cp2 in
                        match err with
                        | Some err => Ret (c, eff ++ eff1 ++ eff2 ++ [EConnClose r err])
                        | None => Ret (c, eff ++ eff1 ++ eff2)
                        end
                  end
              end
        end
  end.

End Server.

(** ** The specification's vocabulary *)

(** The two flags that lift the [MaxPeers] cap, read as bits. *)
Definition is_trusted (c : conn) : bool := Z.testbit (flags c) 3.
Definition is_staticDialed (c : conn) : bool := Z.testbit (flags c) 1.

(** "[len(peers) ≥ maxPeers] and the connection is neither trusted nor
    static-dialed" *)
Definition over_cap (maxPeers : Z) (ps : gmap NodeID Peer) (c : conn) : Prop :=
  maxPeers <= len_peers ps /\ is_trusted c = false /\ is_staticDialed c = false.

(** The four admission outcomes, each with the condition under which the
    specification gives it. *)
Inductive enc_verdict (maxPeers : Z) (selfID : NodeID) (ps : gmap NodeID Peer) (c : conn)
    : option error -> Prop :=
| verdict_TooManyPeers :
    over_cap maxPeers ps c ->
    enc_verdict maxPeers selfID ps c (Some (ErrDisc DiscTooManyPeers))
| verdict_AlreadyConnected :
    ~ over_cap maxPeers ps c -> is_Some (ps !! id c) ->
    enc_verdict maxPeers selfID ps c (Some (ErrDisc DiscAlreadyConnected))
| verdict_Self :
    ~ over_cap maxPeers ps c -> ps !! id c = None -> id c = selfID ->
    enc_verdict maxPeers selfID ps c (Some (ErrDisc DiscSelf))
| verdict_accept :
    ~ over_cap maxPeers ps c -> ps !! id c = None -> id c <> selfID ->
    enc_verdict maxPeers selfID ps c None.


(** "shares a (name, version) pair with the remote's capabilities" *)
Definition shares_cap (protocols : list Protocol.t) (cs : list Cap.t) : Prop :=
  exists proto cap,
    In proto protocols /\ In cap cs /\
    Protocol.Name proto = Cap.Name cap /\ Protocol.Version proto = Cap.Version cap.

(** How many of our protocols a capability matches. *)
Definition matching (protocols : list Protocol.t) (cap : Cap.t) : nat :=
  length (List.filter (fun proto => cap_matches proto cap) protocols).

(** A peer is exempt from the cap when its connection is trusted or
    static-dialed. *)
Definition exempt_peer (cs : gmap connRef conn) (p : Peer) : bool :=
  match cs !! rw p with
  | Some c => is_trusted c || is_staticDialed c
  | None => false
  end.

(** The entries of the peer map that count against [MaxPeers]. *)
Definition capped_peers (st : State) : gmap NodeID Peer :=
  filter (fun kp => exempt_peer (conns st) kp.2 = false) (peers st).

Definition within_MaxPeers (srv : Server) (st : State) : Prop :=
  Z.of_nat (size (capped_peers st)) <= MaxPeers srv.

(** The effects of [scheduleTasks]: registering and launching task workers. *)
Definition is_task_launch (e : Effect) : Prop :=
  match e with
  | EWGAdd _ | EGo (WTask _) => True
  | _ => False
  end.

(** "[dialDest] is non-null and the learned identity differs from
    [dialDest.ID]" *)
Definition dial_mismatch (dialDest : option discover.Node) (k : NodeID) : Prop :=
  exists d, dialDest = Some d /\ k <> discover.ID d.

(** How a close with [DiscUnexpectedIdentity] can come about in the setup
    driver: the two mismatches it detects itself, and the errors it passes
    on from the transport and from the checkpoints. *)
Inductive unexpected_identity_cause (srv : Server) (tr : transport)
    (dialDest : option discover.Node) (cp1 cp2 : CheckpointOutcome) : Prop :=
| cause_dial_mismatch k :
    doEncHandshake tr (PrivateKey srv) dialDest = (k, None) ->
    dial_mismatch dialDest k ->
    unexpected_identity_cause srv tr dialDest cp1 cp2
| cause_proto_mismatch k phs :
    doEncHandshake tr (PrivateKey srv) dialDest = (k, None) ->
    ~ dial_mismatch dialDest k ->
    cp1 = CpReply None ->
    doProtoHandshake tr (ourHandshake srv) = inl phs ->
    protoHandshake.ID phs <> k ->
    unexpected_identity_cause srv tr dialDest cp1 cp2
| cause_enc_error k :
    doEncHandshake tr (PrivateKey srv) dialDest
      = (k, Some (ErrDisc DiscUnexpectedIdentity)) ->
    unexpected_identity_cause srv tr dialDest cp1 cp2
| cause_checkpoint_verdict :
    cp1 = CpReply (Some (ErrDisc DiscUnexpectedIdentity))
    \/ cp2 = CpReply (Some (ErrDisc DiscUnexpectedIdentity)) ->
    unexpected_identity_cause srv tr dialDest cp1 cp2
| cause_proto_error :
    doProtoHandshake tr (ourHandshake srv) = inr (ErrDisc DiscUnexpectedIdentity) ->
    unexpected_identity_cause srv tr dialDest cp1 cp2.

(** [n] calls of [Start] in a row: the server they leave. *)
Definition Start_times `{External} (n : nat) (srv : Server) : Server :=
  Nat.iter n (fun s => (Start s).1.1) srv.

(** "[c.learnedID] is in the trusted set" *)
Definition in_trusted_set (srv : Server) (k : NodeID) : Prop :=
  exists n, In n (TrustedNodes srv) /\ discover.ID n = k.

(** The descriptor at [c] carries the trusted flag. *)
Definition flagged_trusted (st : State) (c : connRef) : Prop :=
  exists cn, conns st !! c = Some cn /\ is_trusted cn = true.

(** The descriptor as the [posthandshake] case leaves it. *)
Definition mark_trusted (srv : Server) (cn : conn) : conn :=
  if trusted_at srv (id cn) then set_flags cn (Z.lor (flags cn) trustedConn) else cn.

(** What one step may do to the peer map: either it only removes entries
    and only adds flags to descriptors, or it admits one connection that
    passed the checks. *)
Inductive peers_change `{External} (srv : Server) (st st' : State) : Prop :=
| change_shrink :
    peers st' ⊆ peers st ->
    (forall p, exempt_peer (conns st) p = true -> exempt_peer (conns st') p = true) ->
    peers_change srv st st'
| change_admit c cn :
    conns st' = conns st ->
    conns st !! c = Some cn ->
    peers st' = <[id cn := newPeer c (Protocols srv)]> (peers st) ->
    protoHandshakeChecks srv (peers st) cn = Ret None ->
    peers_change srv st st'.

(** ** A concrete server, for running the model *)

Module Demo.
Definition key : ecdsa.PrivateKey := {| ecdsa.D := 7; ecdsa.X := 1; ecdsa.Y := 2 |}.

Definition loopback : net.TCPAddr :=
  {| net.IP := "127.0.0.1"; net.Port := 30303; net.IsLoopback := true |}.

Definition eth65 : Protocol.t :=
  {| Protocol.Name := "eth"; Protocol.Version := 65; Protocol.Length := 17 |}.

(** A transport whose remote side has identity [k] and capabilities [cs]. *)
Definition remote (k : NodeID) (cs : list Cap.t) : transport :=
  {| doEncHandshake := fun _ _ => (k, None);
     doProtoHandshake := fun _ =>
       inl {| protoHandshake.Version := 4; protoHandshake.Name := "remote";
              protoHandshake.Caps := cs; protoHandshake.ID := k |} |}.

Definition ext : External :=
  {| PubkeyID := fun k => Z.to_N (ecdsa.X k * 2 ^ 256 + ecdsa.Y k);
     newRLPX := fun _ => remote 5%N [Protocol.cap eth65];
     ListenUDP := fun _ _ _ _ => inr (ErrMsg "udp: address already in use");
     net_Listen := fun _ => inl {| net.Addr := loopback; net.closed := false |};
     baseProtocolVersion := 4;
     newTasks := fun _ _ _ _ => [] |}.

(** A server value as a caller fills it in before [Start]: the unexported
    fields have their zero values. *)
Definition config (k : option ecdsa.PrivateKey) (maxPeers : Z)
    (trustedNodes : list discover.Node) (addr : string) : Server :=
  {| PrivateKey := k; MaxPeers := maxPeers; MinConnectedPeers := 0;
     MaxPendingPeers := 0; Discovery := false; Name := "znn"; ExtraData := EmptyString;
     BootstrapNodes := []; StaticNodes := []; TrustedNodes := trustedNodes;
     NodeDatabase := EmptyString; Protocols := [eth65]; ListenAddr := addr; NAT := None;
     Dialer := None; NoDial := false; newTransport := None; newPeerHook := None;
     running := false; ntab := None; listener := None; ourHandshake := None;
     lastLookup := 0; peerOp := ChanNil; peerOpDone := ChanNil; quit := ChanNil;
     addstatic := ChanNil; posthandshake := ChanNil; addpeer := ChanNil;
     delpeer := ChanNil; loopWG := 0 |}.

Definition node (k : NodeID) : discover.Node :=
  {| discover.ID := k; discover.IP := "10.0.0.9"; discover.TCP := 30303;
     discover.UDP := 30303 |}.

(** [MaxPeers = 1], node 9 trusted, listening. *)
Definition srv0 : Server := config (Some key) 1 [node 9%N] "127.0.0.1:0".

(** The server after a successful [Start]. *)
Definition srv : Server := (Start (H := ext) srv0).1.1.

(** The same configuration without a key. *)
Definition keyless : Server := config None 1 [] EmptyString.

(** A transport whose protocol handshake fails with the disconnect reason
    that the remote side sent. *)
Definition refused (k : NodeID) (r : DiscReason) : transport :=
  {| doEncHandshake := fun _ _ => (k, None);
     doProtoHandshake := fun _ => inr (ErrDisc r) |}.

Definition with_transport (tr : transport) (s : Server) : Server :=
  set_newTransport (Some (fun _ => tr)) s.

(** The started server, talking to a remote side that refuses the protocol
    handshake with [DiscUnexpectedIdentity]. *)
Definition refusing : Server := with_transport (refused 5%N DiscUnexpectedIdentity) srv.

Definition mkconn (fl : connFlag) (k : NodeID) (cs : list Cap.t) : conn :=
  {| flags := fl; id := k; caps := cs; name := "remote" |}.

Definition d0 : dialState := newDialState [] None 0.

(** An inbound connection from node 5, speaking eth/65, is set up and
    admitted. *)
Definition admit5 : list Label :=
  [LNewConn 1 (mkconn inboundConn 5%N []);
   LIteration 100 101 (EvPosthandshake 1%nat);
   LProtoHandshake 1 [Protocol.cap eth65] "remote";
   LIteration 102 103 (EvAddPeer 1%nat)].

(** Then one from the trusted node 9. *)
Definition admit9 : list Label :=
  [LNewConn 2 (mkconn inboundConn 9%N []);
   LIteration 104 105 (EvPosthandshake 2%nat);
   LProtoHandshake 2 [Protocol.cap eth65] "remote";
   LIteration 106 107 (EvAddPeer 2%nat)].

Definition state_after (ls : list Label) : State :=
  match exec_all (H := ext) srv (initial d0) ls with
  | Some (st, _) => st
  | None => initial d0
  end.

(** Node 5 has passed the first checkpoint and the protocol handshake. *)
Definition before_addpeer : State := state_after (firstn 3 admit5).

(** Node 5 is a peer and the descriptor of the trusted node 9 has just been
    created. *)
Definition before_trusted : State := state_after (admit5 ++ firstn 1 admit9).

(** The identity of the demo server and its descriptor. *)
Definition selfID : NodeID := PubkeyID (External := ext) key.

Definition selfnode : discover.Node :=
  {| discover.ID := selfID; discover.IP := "127.0.0.1"; discover.TCP := 30303;
     discover.UDP := 0 |}.





End Demo.

(** * The rest of the file: flag names, the accept loop, the queries *)

(** ** [connFlag.String] *)

(** [s[1:]], guarded by the test that [s] is not empty. *)
Definition drop_first (s : string) : string :=
  match s with
  | EmptyString => s
  | String _ s' => s'
  end.

(** [f.String()] *)
Definition connFlag_String (f : connFlag) : string :=
  let s := EmptyString in
  let s := if negb (Z.land f trustedConn =? 0) then (s ++ " trusted")%string else s in
  let s := if negb (Z.land f dynDialedConn =? 0) then (s ++ " dyn dial")%string else s in
  let s := if negb (Z.land f staticDialedConn =? 0) then (s ++ " static dial")%string else s in
  let s := if negb (Z.land f inboundConn =? 0) then (s ++ " inbound")%string else s in
  drop_first s.

(** ** [listenLoop] *)

(** A buffered channel of [struct{}]: its capacity and how many values it
    holds.  A send on a full channel and a receive on an empty one block,
    which is [None]. *)
Record bchan := { capacity : Z; held : Z }.

Definition bsend (ch : bchan) : option bchan :=
  if held ch <? capacity ch then Some {| capacity := capacity ch; held := held ch + 1 |}
  else None.

Definition brecv (ch : bchan) : option bchan :=
  if 0 <? held ch then Some {| capacity := capacity ch; held := held ch - 1 |}
  else None.

(** [tokens] *)
Definition listen_tokens (srv : Server) : Z :=
  if 0 <? MaxPendingPeers srv then MaxPendingPeers srv else maxAcceptConns.

(** [for i := 0; i < tokens; i++ { slots <- struct{}{} }] *)
Fixpoint fill_slots (n : nat) (ch : bchan) : option bchan :=
  match n with
  | O => Some ch
  | S n' =>
      match bsend ch with
      | Some ch' => fill_slots n' ch'
      | None => None
      end
  end.

(** The accept loop and the setup drivers it has launched that have not yet
    returned. *)
Record ListenState := {
  slots : bchan;
  drivers : nat;
  accepting : bool      (* false once [listenLoop] has returned *)
}.

(** [listenLoop] up to its [for] loop. *)
Definition listen_start (srv : Server) : option ListenState :=
  let tokens := listen_tokens srv in
  match fill_slots (Z.to_nat tokens) {| capacity := tokens; held := 0 |} with
  | Some ch => Some {| slots := ch; drivers := 0; accepting := true |}
  | None => None
  end.

Inductive ListenLabel :=
| LAccept (fd : net.Conn)   (* <-slots; Accept gives fd; loopWG.Add(1); go setupConn(...) *)
| LAcceptError              (* <-slots; Accept fails; return *)
| LDriverDone.              (* in a driver: loopWG.Done(); slots <- struct{}{} *)

Definition listen_step (st : ListenState) (l : ListenLabel) : option ListenState :=
  match l with
  | LAccept fd =>
      if accepting st then
        match brecv (slots st) with
        | Some ch => Some {| slots := ch; drivers := S (drivers st); accepting := true |}
        | None => None
        end
      else None
  | LAcceptError =>
      if accepting st then
        match brecv (slots st) with
        | Some ch => Some {| slots := ch; drivers := drivers st; accepting := false |}
        | None => None
        end
      else None
  | LDriverDone =>
      match drivers st with
      | O => None
      | S n =>
          match bsend (slots st) with
          | Some ch => Some {| slots := ch; drivers := n; accepting := accepting st |}
          | None => None
          end
      end
  end.

Fixpoint listen_run (st : ListenState) (ls : list ListenLabel) : option ListenState :=
  match ls with
  | [] => Some st
  | l :: ls' =>
      match listen_step st l with
      | Some st' => listen_run st' ls'
      | None => None
      end
  end.

(** The slots held, the drivers in flight and the slot a failed accept
    took with it add up to the number of tokens. *)
Definition listen_balanced (tokens : Z) (st : ListenState) : Prop :=
  capacity (slots st) = tokens /\
  held (slots st) + Z.of_nat (drivers st) + (if accepting st then 0 else 1) = tokens /\
  0 <= held (slots st).

(** ** [Peers] and [PeerCount] *)

(** Which case of the [select] of a query fires: the run loop takes the
    closure while its peer map is [ps], or [quit] is closed. *)
Inductive QuerySelect :=
| ServedByRunLoop (ps : gmap NodeID Peer)
| ServedByQuit.

(** [srv.Peers()]: the closure appends the peers of the map to [ps];
    [ps] stays nil when [quit] fires.  Go ranges over a map in no fixed
    order; the list is given here in the order of [map_to_list], and nothing
    proved about it depends on that order. *)
Definition Peers (sel : QuerySelect) : list Peer :=
  match sel with
  | ServedByRunLoop ps => (map_to_list ps).*2
  | ServedByQuit => []
  end.

(** [srv.PeerCount()]: the closure stores [len(ps)] in [count]; [count]
    stays zero when [quit] fires. *)
Definition PeerCount (sel : QuerySelect) : Z :=
  match sel with
  | ServedByRunLoop ps => len_peers ps
  | ServedByQuit => 0
  end.

(** ** Bookkeeping of effects *)

(** Every [go] statement comes right after a [loopWG.Add(1)]. *)
Inductive registered : list Effect -> Prop :=
| registered_nil : registered []
| registered_go w rest :
    registered rest -> registered (EWGAdd 1 :: EGo w :: rest)
| registered_other e rest :
    (forall w, e <> EGo w) -> registered rest -> registered (e :: rest).

(** The number of [go] statements. *)
Fixpoint count_go (eff : list Effect) : Z :=
  match eff with
  | [] => 0
  | EGo _ :: rest => 1 + count_go rest
  | _ :: rest => count_go rest
  end.

(** The number of run loops launched. *)
Fixpoint count_run (eff : list Effect) : Z :=
  match eff with
  | [] => 0
  | EGo (WRun _) :: rest => 1 + count_run rest
  | _ :: rest => count_run rest
  end.

(** Every entry of the peer map sits under the identity of its own
    connection. *)
Definition keys_consistent (st : State) : Prop :=
  forall k p, peers st !! k = Some p ->
    exists cn, conns st !! rw p = Some cn /\ id cn = k.

(** The verdicts of the two admission checks. *)
Definition enc_verdicts : list (option error) :=
  [None; Some (ErrDisc DiscTooManyPeers); Some (ErrDisc DiscAlreadyConnected);
   Some (ErrDisc DiscSelf)].

Definition proto_verdicts : list (option error) :=
  Some (ErrDisc DiscUselessPeer) :: enc_verdicts.

(** The conditions under which the setup driver leaves the connection
    open: both handshakes succeed with one identity, which is the dialed
    one if any, and both checkpoints answer nil. *)
Definition setup_succeeds (srv : Server) (tr : transport)
    (dialDest : option discover.Node) (cp1 cp2 : CheckpointOutcome) : Prop :=
  running srv = true /\
  exists k phs,
    doEncHandshake tr (PrivateKey srv) dialDest = (k, None) /\
    ~ dial_mismatch dialDest k /\
    cp1 = CpReply None /\
    doProtoHandshake tr (ourHandshake srv) = inl phs /\
    protoHandshake.ID phs = k /\
    cp2 = CpReply None.

(** ** More concrete values *)

Module Sample.
(** Twenty-one tasks, more than [maxActiveDialTasks]. *)
Definition tasks : list task := seq 1 21.

(** The started demo server with three slots for pending connections. *)
Definition srv3 : Server :=
  {| PrivateKey := PrivateKey Demo.srv; MaxPeers := MaxPeers Demo.srv;
     MinConnectedPeers := MinConnectedPeers Demo.srv; MaxPendingPeers := 3;
     Discovery := Discovery Demo.srv; Name := Name Demo.srv;
     ExtraData := ExtraData Demo.srv; BootstrapNodes := BootstrapNodes Demo.srv;
     StaticNodes := StaticNodes Demo.srv; TrustedNodes := TrustedNodes Demo.srv;
     NodeDatabase := NodeDatabase Demo.srv; Protocols := Protocols Demo.srv;
     ListenAddr := ListenAddr Demo.srv; NAT := NAT Demo.srv; Dialer := Dialer Demo.srv;
     NoDial := NoDial Demo.srv; newTransport := newTransport Demo.srv;
     newPeerHook := newPeerHook Demo.srv; running := running Demo.srv;
     ntab := ntab Demo.srv; listener := listener Demo.srv;
     ourHandshake := ourHandshake Demo.srv; lastLookup := lastLookup Demo.srv;
     peerOp := peerOp Demo.srv; peerOpDone := peerOpDone Demo.srv; quit := quit Demo.srv;
     addstatic := addstatic Demo.srv; posthandshake := posthandshake Demo.srv;
     addpeer := addpeer Demo.srv; delpeer := delpeer Demo.srv;
     loopWG := loopWG Demo.srv |}.

(** Both demo peers are admitted. *)
Definition both : State := Demo.state_after (Demo.admit5 ++ Demo.admit9).

(** Then the server is told to quit and the first peer signs off. *)
Definition quitting : list Label :=
  Demo.admit5 ++ Demo.admit9 ++ [LIteration 108 109 EvQuit; LDrain {| rw := 1%nat |}].

(** What a trace and a single step leave, with their effects. *)
Definition run_out (ls : list Label) : State * list Effect :=
  match exec_all (H := Demo.ext) Demo.srv (initial Demo.d0) ls with
  | Some r => r
  | None => (initial Demo.d0, [])
  end.

Definition step_out (st : State) (l : Label) : State * list Effect :=
  match exec (H := Demo.ext) Demo.srv st l with
  | Some r => r
  | None => (st, [])
  end.

(** The demo environment with a dialer that hands out [tasks] when nothing
    is running or queued. *)
Definition planning : External :=
  {| PubkeyID := PubkeyID (External := Demo.ext);
     newRLPX := newRLPX (External := Demo.ext);
     ListenUDP := ListenUDP (External := Demo.ext);
     net_Listen := net_Listen (External := Demo.ext);
     baseProtocolVersion := baseProtocolVersion (External := Demo.ext);
     newTasks := fun _ n _ _ => if n =? 0 then tasks else [] |}.

(** The run loop after its first turn with that dialer: sixteen tasks
    running, five queued. *)
Definition crowded : State :=
  match exec (H := planning) Demo.srv (initial Demo.d0)
          (LIteration 100 101 (EvPeerOp OpPeerCount)) with
  | Some (st, _) => st
  | None => initial Demo.d0
  end.

(** A run loop with all of [tasks] waiting in the queue. *)
Definition busy : State :=
  {| conns := ∅; peers := ∅; runningTasks := []; queuedTasks := tasks;
     dialstate := Demo.d0; phase := Running |}.

(** Four connections arrive while three slots exist; one driver returns in
    between. *)
Definition arrivals : list ListenLabel :=
  [LAccept 1; LAccept 2; LDriverDone; LAccept 3; LAccept 4].

Definition listening (ls : list ListenLabel) : ListenState :=
  match listen_start srv3 with
  | Some st0 => match listen_run st0 ls with Some st => st | None => st0 end
  | None => {| slots := {| capacity := 0; held := 0 |}; drivers := 0; accepting := false |}
  end.

(** A server whose UDP listener fails: discovery is on. *)
Definition discovering : Server :=
  {| PrivateKey := Some Demo.key; MaxPeers := 1; MinConnectedPeers := 0;
     MaxPendingPeers := 0; Discovery := true; Name := "znn"; ExtraData := EmptyString;
     BootstrapNodes := []; StaticNodes := []; TrustedNodes := [];
     NodeDatabase := EmptyString; Protocols := [Demo.eth65]; ListenAddr := "127.0.0.1:0";
     NAT := None; Dialer := None; NoDial := false; newTransport := None;
     newPeerHook := None; running := false; ntab := None; listener := None;
     ourHandshake := None; lastLookup := 0; peerOp := ChanNil; peerOpDone := ChanNil;
     quit := ChanNil; addstatic := ChanNil; posthandshake := ChanNil;
     addpeer := ChanNil; delpeer := ChanNil; loopWG := 0 |}.
End Sample.

(** * Proofs *)

Section Proofs.
Context `{External}.

(** ** Flags *)

Lemma testbit_10 (n : Z) : Z.testbit 10 n = bool_decide (n = 1 \/ n = 3).
Proof.
  destruct (Z.lt_ge_cases n 0) as [Hneg | Hnn].
  { rewrite Z.testbit_neg_r by lia. rewrite bool_decide_eq_false_2; [done | lia]. }
  destruct (Z.lt_ge_cases n 4) as [Hlt | Hge].
  - assert (n = 0 \/ n = 1 \/ n = 2 \/ n = 3) as [-> | [-> | [-> | ->]]] by lia; done.
  - rewrite Z.bits_above_log2; [| lia | simpl; lia].
    rewrite bool_decide_eq_false_2; [done | lia].
Qed.

Lemma conn_is_exempt (c : conn) :
  conn_is c (Z.lor trustedConn staticDialedConn) = is_trusted c || is_staticDialed c.
Proof.
  unfold conn_is, is_trusted, is_staticDialed.
  change (Z.lor trustedConn staticDialedConn) with 10.
  destruct (Z.eqb_spec (Z.land (flags c) 10) 0) as [Hz | Hnz]; cbn [negb].
  - assert (Hbit : forall n, Z.testbit (flags c) n && Z.testbit 10 n = false).
    { intros n. rewrite <- Z.land_spec, Hz. apply Z.bits_0. }
    pose proof (Hbit 3) as H3. pose proof (Hbit 1) as H1.
    rewrite andb_true_r in H3, H1. by rewrite H3, H1.
  - destruct (Z.testbit (flags c) 3) eqn:H3; [done |].
    destruct (Z.testbit (flags c) 1) eqn:H1; [done |].
    exfalso. apply Hnz. apply Z.bits_inj'. intros n _.
    rewrite Z.land_spec, Z.bits_0, testbit_10.
    case_bool_decide as Hn; [| apply andb_false_r].
    destruct Hn as [-> | ->]; by rewrite ?H1, ?H3.
Qed.

Lemma over_cap_dec (srv : Server) (ps : gmap NodeID Peer) (c : conn) :
  negb (conn_is c (Z.lor trustedConn staticDialedConn)) && (MaxPeers srv <=? len_peers ps) = true
  <-> over_cap (MaxPeers srv) ps c.
Proof.
  rewrite conn_is_exempt. unfold over_cap.
  rewrite andb_true_iff, negb_true_iff, orb_false_iff, Z.leb_le. tauto.
Qed.

(** ** encHandshakeChecks *)

Lemma encHandshakeChecks_verdict
    (srv : Server) (ps : gmap NodeID Peer) (c : conn) (self : discover.Node) :
  Self srv = Ret self ->
  exists v,
    encHandshakeChecks srv ps c = Ret v /\
    enc_verdict (MaxPeers srv) (discover.ID self) ps c v.
Proof.
  intros Hself. unfold encHandshakeChecks.
  destruct (negb _ && _) eqn:Hcap.
  - eexists; split; [done |]. constructor. by apply over_cap_dec.
  - assert (~ over_cap (MaxPeers srv) ps c) as Hno.
    { rewrite <- over_cap_dec, Hcap. discriminate. }
    case_bool_decide as Hin.
    + eexists; split; [done |]. by constructor.
    + apply eq_None_not_Some in Hin. rewrite Hself. simpl.
      case_bool_decide as Hid; eexists; (split; [done |]); by constructor.
Qed.

(** C3.  For every peer map and connection descriptor, [encHandshakeChecks]
    tries its checks in the order of the specification and answers the
    first that applies: [DiscTooManyPeers] when the connection is neither
    trusted nor static-dialed and the map holds at least [MaxPeers] entries,
    else [DiscAlreadyConnected] when the map holds the learned identity, else
    [DiscSelf] when the learned identity is that of [Self()], else nil. *)
Theorem C3_encHandshakeChecks_order
    (srv : Server) (ps : gmap NodeID Peer) (c : conn) (self : discover.Node) :
  Self srv = Ret self ->
  exists v,
    encHandshakeChecks srv ps c = Ret v /\
    enc_verdict (MaxPeers srv) (discover.ID self) ps c v.
Proof. apply encHandshakeChecks_verdict. Qed.

(** ** protoHandshakeChecks *)

Lemma count_inner (cap : Cap.t) (protocols : list Protocol.t) (n : Z) :
  fold_left (fun n proto => if cap_matches proto cap then n + 1 else n) protocols n
  = n + Z.of_nat (matching protocols cap).
Proof.
  unfold matching. revert n.
  induction protocols as [| proto protocols IH]; intros n; simpl; [lia |].
  rewrite IH. destruct (cap_matches proto cap); simpl; lia.
Qed.

Lemma count_outer (protocols : list Protocol.t) (cs : list Cap.t) (n : Z) :
  fold_left
    (fun n cap =>
       fold_left (fun n proto => if cap_matches proto cap then n + 1 else n) protocols n)
    cs n
  = n + Z.of_nat (list_sum (map (matching protocols) cs)).
Proof.
  revert n. induction cs as [| cap cs IH]; intros n; simpl; [lia |].
  rewrite IH, count_inner. lia.
Qed.

Lemma cap_matches_spec (proto : Protocol.t) (cap : Cap.t) :
  cap_matches proto cap = true
  <-> Protocol.Name proto = Cap.Name cap /\ Protocol.Version proto = Cap.Version cap.
Proof.
  unfold cap_matches. by rewrite andb_true_iff, String.eqb_eq, Z.eqb_eq.
Qed.

Lemma matching_zero (protocols : list Protocol.t) (cap : Cap.t) :
  matching protocols cap = 0%nat
  <-> forall proto, In proto protocols -> cap_matches proto cap = false.
Proof.
  unfold matching. induction protocols as [| p protocols IH]; simpl.
  - split; [intros _ ? [] | done].
  - destruct (cap_matches p cap) eqn:Hm; simpl.
    + split; [discriminate |]. intros Hall. specialize (Hall p (or_introl eq_refl)). congruence.
    + rewrite IH. split.
      * intros Hall q [<- | Hq]; auto.
      * intros Hall q Hq. apply Hall. by right.
Qed.

Lemma list_sum_zero (l : list nat) :
  list_sum l = 0%nat <-> forall n, In n l -> n = 0%nat.
Proof.
  induction l as [| x l IH]; simpl.
  - split; [intros _ ? [] | done].
  - split.
    + intros Hs n [<- | Hn]; [lia |]. apply IH; [lia | done].
    + intros Hall. rewrite (Hall x (or_introl eq_refl)). apply IH. intros n Hn.
      apply Hall. by right.
Qed.

(** The count is zero exactly when no pair is shared. *)
Lemma countMatchingProtocols_zero (protocols : list Protocol.t) (cs : list Cap.t) :
  countMatchingProtocols protocols cs = 0 <-> ~ shares_cap protocols cs.
Proof.
  unfold countMatchingProtocols. rewrite count_outer.
  transitivity (list_sum (map (matching protocols) cs) = 0%nat); [lia |].
  rewrite list_sum_zero. unfold shares_cap. split.
  - intros Hall (proto & cap & Hp & Hc & Hn & Hv).
    assert (matching protocols cap = 0%nat) as Hz by (apply Hall, in_map, Hc).
    rewrite matching_zero in Hz. specialize (Hz proto Hp).
    assert (cap_matches proto cap = true) by (by apply cap_matches_spec). congruence.
  - intros Hno n Hn. apply in_map_iff in Hn as (cap & <- & Hc).
    apply matching_zero. intros proto Hp.
    destruct (cap_matches proto cap) eqn:Hm; [| done].
    exfalso. apply Hno. exists proto, cap. apply cap_matches_spec in Hm. tauto.
Qed.

Lemma protoHandshakeChecks_cases (srv : Server) (ps : gmap NodeID Peer) (c : conn) :
  (Protocols srv <> [] /\ ~ shares_cap (Protocols srv) (caps c) ->
   protoHandshakeChecks srv ps c = Ret (Some (ErrDisc DiscUselessPeer)))
  /\
  (Protocols srv = [] \/ shares_cap (Protocols srv) (caps c) ->
   protoHandshakeChecks srv ps c = encHandshakeChecks srv ps c).
Proof.
  unfold protoHandshakeChecks.
  destruct (Z.ltb_spec 0 (Z.of_nat (length (Protocols srv)))) as [Hlen | Hlen];
    destruct (Z.eqb_spec (countMatchingProtocols (Protocols srv) (caps c)) 0) as [Hz | Hnz];
    simpl; split; try done.
  - intros [Hnil | Hsh].
    + rewrite Hnil in Hlen. simpl in Hlen. lia.
    + apply countMatchingProtocols_zero in Hz. contradiction.
  - intros [_ Hno]. apply countMatchingProtocols_zero in Hno. contradiction.
  - intros [Hne _]. destruct (Protocols srv); [done | simpl in Hlen; lia].
  - intros [Hne _]. destruct (Protocols srv); [done | simpl in Hlen; lia].
Qed.

(** C4.  [protoHandshakeChecks] answers [DiscUselessPeer] when the
    configured protocol list is non-empty and shares no (name, version) pair
    with the capabilities of the connection; in every other case it answers
    what [encHandshakeChecks] answers on the same peer map. *)
Theorem C4_protoHandshakeChecks (srv : Server) (ps : gmap NodeID Peer) (c : conn) :
  (Protocols srv <> [] /\ ~ shares_cap (Protocols srv) (caps c) ->
   protoHandshakeChecks srv ps c = Ret (Some (ErrDisc DiscUselessPeer)))
  /\
  (Protocols srv = [] \/ shares_cap (Protocols srv) (caps c) ->
   protoHandshakeChecks srv ps c = encHandshakeChecks srv ps c).
Proof. apply protoHandshakeChecks_cases. Qed.

(** ** The run loop: what a step changes *)

Lemma scheduleTasks_frame (srv : Server) (st st' : State) (now : Z) (eff : list Effect) :
  scheduleTasks srv st now = (st', eff) ->
  conns st' = conns st /\ peers st' = peers st /\ phase st' = phase st.
Proof.
  unfold scheduleTasks. destruct (negb (running srv)).
  { intros [= <- <-]. done. }
  destruct (startTasks (queuedTasks st) (runningTasks st)) as [[queued rt] eff1].
  destruct (Z.of_nat (length rt) <? maxActiveDialTasks).
  - destruct (startTasks _ rt) as [[rest rt'] eff2]. intros [= <- <-]. done.
  - intros [= <- <-]. done.
Qed.

Lemma iteration_inv (srv : Server) (st st' : State) (now schedNow : Z) (ev : Event)
    (eff : list Effect) :
  iteration srv st now schedNow ev = Ret (st', eff) ->
  exists st1 eff1 eff2,
    scheduleTasks srv st schedNow = (st1, eff1) /\
    handle srv st1 now ev = Ret (st', eff2) /\
    eff = eff1 ++ eff2.
Proof.
  unfold iteration. destruct (scheduleTasks srv st schedNow) as [st1 eff1].
  destruct (handle srv st1 now ev) as [[st2 eff2] |] eqn:Hh; simpl; [| done].
  intros [= <- <-]. by exists st1, eff1, eff2.
Qed.

Lemma encHandshakeChecks_accept (srv : Server) (ps : gmap NodeID Peer) (c : conn) :
  encHandshakeChecks srv ps c = Ret None ->
  ~ over_cap (MaxPeers srv) ps c /\ ps !! id c = None /\
  exists self, Self srv = Ret self /\ id c <> discover.ID self.
Proof.
  unfold encHandshakeChecks.
  destruct (negb _ && _) eqn:Hcap; [done |].
  case_bool_decide as Hin; [done |].
  destruct (Self srv) as [self |]; simpl; [| done].
  case_bool_decide as Hid; [done |]. intros _.
  split; [| split].
  - rewrite <- over_cap_dec, Hcap. discriminate.
  - by apply eq_None_not_Some.
  - by exists self.
Qed.

Lemma protoHandshakeChecks_accept (srv : Server) (ps : gmap NodeID Peer) (c : conn) :
  protoHandshakeChecks srv ps c = Ret None -> encHandshakeChecks srv ps c = Ret None.
Proof. unfold protoHandshakeChecks. by destruct (_ && _). Qed.

Lemma exempt_peer_insert_flags (cs : gmap connRef conn) (r : connRef) (c c' : conn) (p : Peer) :
  cs !! r = Some c ->
  (is_trusted c || is_staticDialed c = true -> is_trusted c' || is_staticDialed c' = true) ->
  exempt_peer cs p = true -> exempt_peer (<[r := c']> cs) p = true.
Proof.
  intros Hr Hmono. unfold exempt_peer.
  destruct (decide (rw p = r)) as [-> | Hne].
  - rewrite Hr, lookup_insert_eq. done.
  - by rewrite lookup_insert_ne.
Qed.

Lemma is_trusted_set (c : conn) :
  is_trusted (set_flags c (Z.lor (flags c) trustedConn)) = true.
Proof.
  unfold is_trusted, set_flags. cbn [flags]. rewrite Z.lor_spec. apply orb_true_r.
Qed.

Lemma handle_change (srv : Server) (st st' : State) (now : Z) (ev : Event)
    (eff : list Effect) :
  handle srv st now ev = Ret (st', eff) -> peers_change srv st st'.
Proof.
  destruct ev as [| n | op | t | c | c | p]; simpl.
  - intros [= <- <-]. by apply change_shrink.
  - intros [= <- <-]. by apply change_shrink.
  - intros [= <- <-]. by apply change_shrink.
  - intros [= <- <-]. by apply change_shrink.
  - destruct (conns st !! c) as [cn |] eqn:Hc; [| done].
    destruct (encHandshakeChecks _ _ _) as [v |]; simpl; [| done].
    intros [= <- <-]. apply change_shrink; [done |]. simpl.
    intros p. apply (exempt_peer_insert_flags _ _ cn); [done |].
    destruct (trusted_at srv (id cn)); [| done].
    intros _. by rewrite is_trusted_set.
  - destruct (conns st !! c) as [cn |] eqn:Hc; [| done].
    destruct (protoHandshakeChecks srv (peers st) cn) as [[e |] |] eqn:Hp; simpl; [| | done].
    + intros [= <- <-]. by apply change_shrink.
    + intros [= <- <-]. by eapply change_admit.
  - destruct (Peer_ID (conns st) p) as [k |]; simpl; [| done].
    intros [= <- <-]. apply change_shrink; [| done]. simpl. apply delete_subseteq.
Qed.

Lemma loop_step_change (srv : Server) (st st' : State) (l : Label) (eff : list Effect) :
  loop_step srv st l eff st' -> peers_change srv st st'.
Proof.
  intros [st0 now schedNow ev st1 eff0 _ Hit | st0 p st1 eff0 _ Hd
          | st0 r c Hfresh | st0 r c cs n Hr].
  - apply iteration_inv in Hit as (st2 & eff1 & eff2 & Hs & Hh & _).
    apply scheduleTasks_frame in Hs as (Hc & Hp & _).
    apply handle_change in Hh.
    destruct Hh as [Hsub Hex | c cn Hc' Hl Hp' Hchk].
    + apply change_shrink; [by rewrite <- Hp | by rewrite <- Hc].
    + rewrite Hc in Hc', Hl. rewrite Hp in Hp', Hchk. by eapply change_admit.
  - unfold drain in Hd. destruct (Peer_ID (conns st0) p) as [k |]; simpl in Hd; [| done].
    injection Hd as <- <-. apply change_shrink; [| done]. simpl. apply delete_subseteq.
  - apply change_shrink; [done |]. simpl. intros p. unfold exempt_peer.
    destruct (decide (rw p = r)) as [-> | Hne].
    + by rewrite Hfresh.
    + by rewrite lookup_insert_ne.
  - apply change_shrink; [done |]. simpl. intros p.
    by apply (exempt_peer_insert_flags _ _ c).
Qed.

(** ** The MaxPeers cap *)

Lemma capped_shrink (srv : Server) (st st' : State) :
  peers st' ⊆ peers st ->
  (forall p, exempt_peer (conns st) p = true -> exempt_peer (conns st') p = true) ->
  (size (capped_peers st') <= size (capped_peers st))%nat.
Proof.
  intros Hsub Hex. apply map_subseteq_size. unfold capped_peers.
  apply map_filter_strong_subseteq_ext. intros k p [Hp Hk]. simpl in *. split.
  - destruct (exempt_peer (conns st) p) eqn:He; [| done].
    apply Hex in He. congruence.
  - by eapply lookup_weaken.
Qed.

Lemma within_MaxPeers_step (srv : Server) (st st' : State) :
  within_MaxPeers srv st -> peers_change srv st st' -> within_MaxPeers srv st'.
Proof.
  unfold within_MaxPeers. intros Hinv [Hsub Hex | c cn Hc Hl Hp Hchk].
  - pose proof (capped_shrink srv st st' Hsub Hex). lia.
  - apply protoHandshakeChecks_accept, encHandshakeChecks_accept in Hchk
      as (Hcap & Hfree & _).
    unfold capped_peers. rewrite Hp, Hc.
    destruct (exempt_peer (conns st) (newPeer c (Protocols srv))) eqn:He.
    + rewrite map_filter_insert_not'; [done | simpl; congruence |].
      intros y Hy. congruence.
    + rewrite map_filter_insert_True by done.
      unfold exempt_peer in He. simpl in He. rewrite Hl in He.
      apply orb_false_iff in He as [Ht Hs].
      assert (len_peers (peers st) < MaxPeers srv) as Hlt.
      { destruct (Z.lt_ge_cases (len_peers (peers st)) (MaxPeers srv)) as [Hlt | Hge];
          [done |]. exfalso. apply Hcap. unfold over_cap. split; [lia | done]. }
      unfold len_peers in Hlt.
      pose proof (map_size_filter
                    (fun kp : NodeID * Peer => exempt_peer (conns st) kp.2 = false)
                    (peers st)) as Hle.
      rewrite map_size_insert. destruct (filter _ _ !! id cn); unfold Datatypes.id; lia.
Qed.

(** C2.  Every step of the run loop keeps the number of peer-map entries
    whose connection is neither static-dialed nor trusted at or below
    [MaxPeers]; hence, [MaxPeers] being non-negative as the configuration
    requires, the bound holds in every reachable state.  The steps are
    the iterations of the loop on each event (quit, addstatic, peerOp,
    taskdone, posthandshake, addpeer, delpeer), the draining loop, and the
    writes of the setup drivers to the shared descriptors. *)
Theorem C2_MaxPeers_invariant (srv : Server) (d : dialState) :
  (forall st l eff st',
      within_MaxPeers srv st -> loop_step srv st l eff st' -> within_MaxPeers srv st')
  /\
  (0 <= MaxPeers srv -> forall st, reachable srv d st -> within_MaxPeers srv st).
Proof.
  assert (Hstep : forall st l eff st',
             within_MaxPeers srv st -> loop_step srv st l eff st' ->
             within_MaxPeers srv st').
  { intros st l eff st' Hinv Hs. eapply within_MaxPeers_step; [done |].
    by eapply loop_step_change. }
  split; [exact Hstep |].
  intros Hmax st Hreach. induction Hreach as [| st l eff st' _ IH Hs].
  - unfold within_MaxPeers, capped_peers. simpl.
    rewrite map_filter_empty, map_size_empty. lia.
  - by eapply Hstep.
Qed.

(** ** Running traces *)

Lemma exec_sound (srv : Server) (st st' : State) (l : Label) (eff : list Effect) :
  exec srv st l = Some (st', eff) -> loop_step srv st l eff st'.
Proof.
  destruct l as [now schedNow ev | p | r c | r cs n]; simpl.
  - destruct (phase st) eqn:Hph; try done.
    destruct (iteration srv st now schedNow ev) as [x |] eqn:Hit; [| done].
    intros [= ->]. by constructor.
  - destruct (phase st) eqn:Hph; try done.
    destruct (drain st p) as [x |] eqn:Hd; [| done].
    intros [= ->]. by constructor.
  - destruct (conns st !! r) eqn:Hr; [done |]. intros [= <- <-]. by constructor.
  - destruct (conns st !! r) as [c |] eqn:Hr; [| done]. intros [= <- <-].
    by constructor.
Qed.

Lemma exec_all_steps (srv : Server) (ls : list Label) :
  forall st st' eff, exec_all srv st ls = Some (st', eff) -> steps srv st st'.
Proof.
  induction ls as [| l ls IH]; intros st st' eff; simpl.
  - intros [= <- <-]. constructor.
  - destruct (exec srv st l) as [[st1 eff1] |] eqn:He; [| done].
    destruct (exec_all srv st1 ls) as [[st2 eff2] |] eqn:Ha; [| done].
    intros [= <- <-]. eapply steps_cons; [by apply exec_sound | by eapply IH].
Qed.

Lemma reachable_steps (srv : Server) (d : dialState) (st st' : State) :
  steps srv st st' -> reachable srv d st -> reachable srv d st'.
Proof.
  induction 1 as [| st l eff st1 st2 Hs _ IH]; [done |].
  intros Hr. apply IH. by eapply reach_step.
Qed.

(** ** The server's own identity *)










(** ** The effects of one iteration *)

Lemma startTasks_launch (ts : list task) :
  forall rt rest rt' eff,
    startTasks ts rt = (rest, rt', eff) -> Forall is_task_launch eff.
Proof.
  induction ts as [| t ts IH]; intros rt rest rt' eff; simpl.
  - intros [= <- <- <-]. constructor.
  - destruct (Z.of_nat (length rt) <? maxActiveDialTasks).
    + destruct (startTasks ts (rt ++ [t])) as [[rest0 rt0] eff0] eqn:Hs.
      intros [= <- <- <-]. repeat (constructor; [done |]). by eapply IH.
    + intros [= <- <- <-]. constructor.
Qed.

Lemma scheduleTasks_launch (srv : Server) (st st' : State) (now : Z) (eff : list Effect) :
  scheduleTasks srv st now = (st', eff) -> Forall is_task_launch eff.
Proof.
  unfold scheduleTasks. destruct (negb (running srv)).
  { intros [= <- <-]. constructor. }
  destruct (startTasks (queuedTasks st) (runningTasks st)) as [[queued rt] eff1] eqn:H1.
  apply startTasks_launch in H1.
  destruct (Z.of_nat (length rt) <? maxActiveDialTasks).
  - destruct (startTasks _ rt) as [[rest rt'] eff2] eqn:H2.
    apply startTasks_launch in H2. intros [= <- <-]. by apply Forall_app.
  - by intros [= <- <-].
Qed.

Lemma mark_trusted_eq (srv : Server) (cn : conn) :
  mark_trusted srv cn
  = if trusted_at srv (id cn) then set_flags cn (Z.lor (flags cn) trustedConn) else cn.
Proof. done. Qed.

Lemma mark_trusted_id (srv : Server) (cn : conn) : id (mark_trusted srv cn) = id cn.
Proof. rewrite mark_trusted_eq. by destruct (trusted_at srv (id cn)). Qed.

Lemma mark_trusted_keeps (srv : Server) (cn : conn) :
  is_trusted cn = true -> is_trusted (mark_trusted srv cn) = true.
Proof.
  rewrite mark_trusted_eq. destruct (trusted_at srv (id cn)); [| done].
  intros _. apply is_trusted_set.
Qed.

(** The [posthandshake] case, read backwards and forwards. *)
Lemma iteration_posthandshake (srv : Server) (st st' : State) (now schedNow : Z)
    (c : connRef) (eff : list Effect) :
  iteration srv st now schedNow (EvPosthandshake c) = Ret (st', eff) ->
  exists cn v sched,
    conns st !! c = Some cn /\
    Forall is_task_launch sched /\
    encHandshakeChecks srv (peers st) (mark_trusted srv cn) = Ret v /\
    eff = sched ++ [ESendCont c v] /\
    conns st' = <[c := mark_trusted srv cn]> (conns st) /\
    peers st' = peers st /\ phase st' = phase st.
Proof.
  intros Hit. apply iteration_inv in Hit as (st1 & eff1 & eff2 & Hs & Hh & ->).
  pose proof (scheduleTasks_launch _ _ _ _ _ Hs) as Hl.
  apply scheduleTasks_frame in Hs as (Hc & Hp & Hph).
  simpl in Hh. rewrite Hc in Hh.
  destruct (conns st !! c) as [cn |] eqn:Hcn; [| done].
  rewrite <- mark_trusted_eq in Hh. cbn [peers with_conns] in Hh. rewrite Hp in Hh.
  destruct (encHandshakeChecks srv (peers st) (mark_trusted srv cn)) as [v |] eqn:Hv;
    simpl in Hh; [| done].
  injection Hh as <- <-. exists cn, v, eff1. by rewrite <- Hc.
Qed.

Lemma iteration_posthandshake_run (srv : Server) (st : State) (now schedNow : Z)
    (c : connRef) (cn : conn) (v : option error) :
  conns st !! c = Some cn ->
  encHandshakeChecks srv (peers st) (mark_trusted srv cn) = Ret v ->
  exists st' sched,
    iteration srv st now schedNow (EvPosthandshake c) = Ret (st', sched ++ [ESendCont c v]) /\
    conns st' = <[c := mark_trusted srv cn]> (conns st) /\
    peers st' = peers st /\ phase st' = phase st.
Proof.
  intros Hcn Hv. unfold iteration.
  destruct (scheduleTasks srv st schedNow) as [st1 eff1] eqn:Hs.
  apply scheduleTasks_frame in Hs as (Hc & Hp & Hph).
  simpl. rewrite Hc, Hcn. rewrite <- mark_trusted_eq. cbn [peers with_conns].
  rewrite Hp, Hv. simpl. by eexists _, eff1.
Qed.

(** The [addpeer] case. *)
Lemma iteration_addpeer (srv : Server) (st st' : State) (now schedNow : Z)
    (c : connRef) (eff : list Effect) :
  iteration srv st now schedNow (EvAddPeer c) = Ret (st', eff) ->
  exists cn v sched,
    conns st !! c = Some cn /\
    Forall is_task_launch sched /\
    protoHandshakeChecks srv (peers st) cn = Ret v /\
    conns st' = conns st /\ phase st' = phase st /\
    match v with
    | None =>
        eff = sched ++ [EPeersStore (id cn) (newPeer c (Protocols srv)); EWGAdd 1;
                        EGo (WRunPeer (newPeer c (Protocols srv))); ESendCont c None] /\
        peers st' = <[id cn := newPeer c (Protocols srv)]> (peers st)
    | Some _ =>
        eff = sched ++ [ESendCont c v] /\ peers st' = peers st
    end.
Proof.
  intros Hit. apply iteration_inv in Hit as (st1 & eff1 & eff2 & Hs & Hh & ->).
  pose proof (scheduleTasks_launch _ _ _ _ _ Hs) as Hl.
  apply scheduleTasks_frame in Hs as (Hc & Hp & Hph).
  simpl in Hh. rewrite Hc, Hp in Hh.
  destruct (conns st !! c) as [cn |] eqn:Hcn; [| done].
  destruct (protoHandshakeChecks srv (peers st) cn) as [v |] eqn:Hv; simpl in Hh; [| done].
  exists cn, v, eff1. destruct v as [e |]; injection Hh as <- <-; simpl;
    rewrite ?Hc, ?Hp, ?Hph; done.
Qed.

Lemma iteration_addpeer_run (srv : Server) (st : State) (now schedNow : Z)
    (c : connRef) (cn : conn) :
  conns st !! c = Some cn ->
  protoHandshakeChecks srv (peers st) cn = Ret None ->
  exists st' sched,
    iteration srv st now schedNow (EvAddPeer c)
      = Ret (st', sched ++ [EPeersStore (id cn) (newPeer c (Protocols srv)); EWGAdd 1;
                           EGo (WRunPeer (newPeer c (Protocols srv))); ESendCont c None]) /\
    peers st' = <[id cn := newPeer c (Protocols srv)]> (peers st).
Proof.
  intros Hcn Hv. unfold iteration.
  destruct (scheduleTasks srv st schedNow) as [st1 eff1] eqn:Hs.
  apply scheduleTasks_frame in Hs as (Hc & Hp & Hph).
  simpl. rewrite Hc, Hcn, Hp, Hv. simpl. by eexists _, eff1.
Qed.

(** C5.  In the [addpeer] event, when the connection is accepted the
    effects of the iteration end with: the write of the new peer to the
    peer map, the registration and launch of its driver, and only then the
    send of the nil verdict on the connection's reply channel.  Accepted or
    not, the send of the verdict is the last effect of the event, and the
    only send on a reply channel. *)
Theorem C5_addpeer_verdict_last (srv : Server) (st st' : State) (now schedNow : Z)
    (c : connRef) (eff : list Effect) :
  iteration srv st now schedNow (EvAddPeer c) = Ret (st', eff) ->
  exists cn v pre,
    conns st !! c = Some cn /\
    eff = pre ++ [ESendCont c v] /\
    (forall c' v', ~ In (ESendCont c' v') pre) /\
    (v = None ->
     exists sched,
       pre = sched ++ [EPeersStore (id cn) (newPeer c (Protocols srv)); EWGAdd 1;
                       EGo (WRunPeer (newPeer c (Protocols srv)))] /\
       peers st' !! id cn = Some (newPeer c (Protocols srv))) /\
    (v <> None ->
     peers st' = peers st /\ forall k p, ~ In (EPeersStore k p) pre).
Proof.
  intros Hit.
  apply iteration_addpeer in Hit as (cn & v & sched & Hcn & Hl & _ & _ & _ & Hv).
  assert (Hnosend : forall e, In e sched -> is_task_launch e).
  { by apply List.Forall_forall. }
  destruct v as [e |]; destruct Hv as [-> Hp].
  - exists cn, (Some e), sched. repeat split; try done.
    + intros c' v' Hin. by apply Hnosend in Hin.
    + intros k p Hin. by apply Hnosend in Hin.
  - exists cn, None,
      (sched ++ [EPeersStore (id cn) (newPeer c (Protocols srv)); EWGAdd 1;
                 EGo (WRunPeer (newPeer c (Protocols srv)))]).
    split; [done |]. split; [by rewrite <- app_assoc |]. split; [| split].
    + intros c' v' Hin. apply in_app_or in Hin as [Hin | Hin].
      * by apply Hnosend in Hin.
      * simpl in Hin. by destruct Hin as [? | [? | [? | []]]].
    + intros _. exists sched. split; [done |]. rewrite Hp. apply lookup_insert_eq.
    + done.
Qed.

(** ** The trusted flag *)

Lemma trusted_fold (l : list discover.Node) (m : gmap NodeID bool) (k : NodeID) :
  default false (foldl (fun m n => <[discover.ID n := true]> m) m l !! k) = true
  <-> default false (m !! k) = true \/ exists n, In n l /\ discover.ID n = k.
Proof.
  revert m. induction l as [| x l IH]; intros m; simpl.
  - split; [by left | intros [? | (? & [] & _)]; done].
  - rewrite IH. split.
    + intros [Hm | (n & Hn & Hk)].
      * destruct (decide (discover.ID x = k)) as [Hx | Hx].
        -- right. exists x. auto.
        -- left. by rewrite lookup_insert_ne in Hm.
      * right. exists n. auto.
    + intros [Hm | (n & [-> | Hn] & Hk)].
      * left. destruct (decide (discover.ID x = k)) as [-> | Hx].
        -- by rewrite lookup_insert_eq.
        -- by rewrite lookup_insert_ne.
      * left. subst k. by rewrite lookup_insert_eq.
      * right. by exists n.
Qed.

(** [trusted[k]] is true exactly for the identities of [TrustedNodes]. *)
Lemma trusted_at_spec (srv : Server) (k : NodeID) :
  trusted_at srv k = true <-> in_trusted_set srv k.
Proof.
  unfold trusted_at, trusted, in_trusted_set. rewrite trusted_fold.
  rewrite lookup_empty. simpl. split; [intros [? | ?]; done | by right].
Qed.

Lemma enc_trusted_not_TooManyPeers (srv : Server) (ps : gmap NodeID Peer) (c : conn) :
  is_trusted c = true ->
  encHandshakeChecks srv ps c <> Ret (Some (ErrDisc DiscTooManyPeers)).
Proof.
  intros Ht. unfold encHandshakeChecks. rewrite conn_is_exempt, Ht. simpl.
  case_bool_decide; [done |].
  destruct (Self srv) as [self |]; simpl; [| done]. by case_bool_decide.
Qed.

Lemma proto_trusted_not_TooManyPeers (srv : Server) (ps : gmap NodeID Peer) (c : conn) :
  is_trusted c = true ->
  protoHandshakeChecks srv ps c <> Ret (Some (ErrDisc DiscTooManyPeers)).
Proof.
  intros Ht. unfold protoHandshakeChecks. destruct (_ && _); [done |].
  by apply enc_trusted_not_TooManyPeers.
Qed.

Lemma enc_accepts (srv : Server) (self : discover.Node) (ps : gmap NodeID Peer) (c : conn) :
  is_trusted c = true -> ps !! id c = None ->
  Self srv = Ret self -> id c <> discover.ID self ->
  encHandshakeChecks srv ps c = Ret None.
Proof.
  intros Ht Hfree Hself Hne. unfold encHandshakeChecks.
  rewrite conn_is_exempt, Ht. simpl.
  rewrite bool_decide_eq_false_2 by (rewrite Hfree; by intros [? ?]).
  rewrite Hself. simpl. by rewrite bool_decide_eq_false_2.
Qed.

Lemma handle_conns (srv : Server) (st st' : State) (now : Z) (ev : Event)
    (eff : list Effect) :
  handle srv st now ev = Ret (st', eff) ->
  conns st' = conns st \/
  exists c cn, conns st !! c = Some cn /\ conns st' = <[c := mark_trusted srv cn]> (conns st).
Proof.
  destruct ev as [| n | op | t | c | c | p]; simpl;
    try (intros [= <- <-]; by left).
  - destruct (conns st !! c) as [cn |] eqn:Hc; [| done].
    rewrite <- mark_trusted_eq.
    destruct (encHandshakeChecks _ _ _) as [v |]; simpl; [| done].
    intros [= <- <-]. right. by exists c, cn.
  - destruct (conns st !! c) as [cn |] eqn:Hc; [| done].
    destruct (protoHandshakeChecks _ _ _) as [[e |] |]; simpl; [| | done];
      intros [= <- <-]; by left.
  - destruct (Peer_ID (conns st) p) as [k |]; simpl; [| done].
    intros [= <- <-]. by left.
Qed.

Lemma flagged_trusted_step (srv : Server) (st st' : State) (l : Label)
    (eff : list Effect) (c : connRef) :
  loop_step srv st l eff st' -> flagged_trusted st c -> flagged_trusted st' c.
Proof.
  intros Hstep (cn & Hcn & Ht). unfold flagged_trusted.
  destruct Hstep as [st0 now schedNow ev st1 eff0 _ Hit | st0 p st1 eff0 _ Hd
                     | st0 r c0 Hfresh | st0 r c0 cs n Hr].
  - apply iteration_inv in Hit as (st2 & eff1 & eff2 & Hs & Hh & _).
    apply scheduleTasks_frame in Hs as (Hc & _ & _).
    apply handle_conns in Hh as [-> | (c1 & cn1 & Hc1 & ->)]; rewrite Hc in *.
    + by exists cn.
    + destruct (decide (c1 = c)) as [-> | Hne].
      * rewrite lookup_insert_eq. eexists; split; [done |].
        apply mark_trusted_keeps. congruence.
      * rewrite lookup_insert_ne by done. by exists cn.
  - unfold drain in Hd. destruct (Peer_ID (conns st0) p) as [k |]; simpl in Hd; [| done].
    injection Hd as <- <-. by exists cn.
  - simpl. rewrite lookup_insert_ne by congruence. by exists cn.
  - simpl. destruct (decide (r = c)) as [-> | Hne].
    + rewrite lookup_insert_eq. eexists; split; [done |].
      rewrite Hr in Hcn. injection Hcn as ->. done.
    + rewrite lookup_insert_ne by done. by exists cn.
Qed.

Lemma flagged_trusted_steps (srv : Server) (st st' : State) (c : connRef) :
  steps srv st st' -> flagged_trusted st c -> flagged_trusted st' c.
Proof.
  induction 1 as [| st l eff st1 st2 Hs _ IH]; [done |].
  intros Hf. apply IH. by eapply flagged_trusted_step.
Qed.

(** C6.  At the [posthandshake] checkpoint, when the learned identity is
    in the trusted set, the trusted flag is first OR-ed into the flags of
    the shared descriptor and [encHandshakeChecks] is then evaluated on the
    flagged descriptor.  Hence the verdict for such a connection is not
    [DiscTooManyPeers], at this checkpoint and at any later [addpeer]
    checkpoint of the same descriptor.  In particular, with [MaxPeers = 1]
    and one peer that is not trusted in the map, an inbound connection from
    a trusted identity is accepted at both checkpoints and the peer map then
    has two entries. *)
Theorem C6_trusted_flag_before_MaxPeers (srv : Server) :
  (forall st c cn now,
      conns st !! c = Some cn -> in_trusted_set srv (id cn) ->
      let cn' := set_flags cn (Z.lor (flags cn) trustedConn) in
      is_trusted cn' = true /\
      handle srv st now (EvPosthandshake c)
      = (v ← encHandshakeChecks srv (peers st) cn';
         Ret (with_conns st (<[c := cn']> (conns st)), [ESendCont c v])))
  /\
  (forall st c cn now schedNow eff1 st1,
      conns st !! c = Some cn -> in_trusted_set srv (id cn) ->
      loop_step srv st (LIteration now schedNow (EvPosthandshake c)) eff1 st1 ->
      ~ In (ESendCont c (Some (ErrDisc DiscTooManyPeers))) eff1 /\
      forall st2 now' schedNow' eff3 st3,
        steps srv st1 st2 ->
        loop_step srv st2 (LIteration now' schedNow' (EvAddPeer c)) eff3 st3 ->
        ~ In (ESendCont c (Some (ErrDisc DiscTooManyPeers))) eff3)
  /\
  (forall st c cn k p self now schedNow now' schedNow' cs n,
      MaxPeers srv = 1 -> phase st = Running ->
      peers st = {[k := p]} -> exempt_peer (conns st) p = false ->
      conns st !! c = Some cn -> flags cn = inboundConn ->
      in_trusted_set srv (id cn) -> id cn <> k ->
      Self srv = Ret self -> id cn <> discover.ID self ->
      Protocols srv = [] \/ shares_cap (Protocols srv) cs ->
      exists st1 st2 st3 sched1 sched3,
        loop_step srv st (LIteration now schedNow (EvPosthandshake c))
          (sched1 ++ [ESendCont c None]) st1 /\
        loop_step srv st1 (LProtoHandshake c cs n) [] st2 /\
        loop_step srv st2 (LIteration now' schedNow' (EvAddPeer c))
          (sched3 ++ [EPeersStore (id cn) (newPeer c (Protocols srv)); EWGAdd 1;
                      EGo (WRunPeer (newPeer c (Protocols srv))); ESendCont c None])
          st3 /\
        size (peers st3) = 2%nat).
Proof.
  split; [| split].
  - intros st c cn now Hcn Htr cn'. split; [apply is_trusted_set |].
    apply trusted_at_spec in Htr. simpl. by rewrite Hcn, Htr.
  - intros st c cn now schedNow eff1 st1 Hcn Htr Hstep.
    apply trusted_at_spec in Htr.
    inversion Hstep as [? ? ? ? ? ? _ Hit | | |]; subst.
    apply iteration_posthandshake in Hit
      as (cn0 & v & sched & Hcn0 & Hl & Hv & -> & Hconns & _ & _).
    rewrite Hcn in Hcn0. injection Hcn0 as <-.
    assert (Hmark : is_trusted (mark_trusted srv cn) = true).
    { rewrite mark_trusted_eq, Htr. apply is_trusted_set. }
    assert (Hlaunch : forall e, In e sched -> is_task_launch e)
      by (by apply List.Forall_forall).
    split.
    + intros Hin. apply in_app_or in Hin as [Hin | [[= ->] | []]].
      * by apply Hlaunch in Hin.
      * by eapply enc_trusted_not_TooManyPeers.
    + intros st2 now' schedNow' eff3 st3 Hsteps Hstep3.
      assert (flagged_trusted st1 c) as Hf.
      { exists (mark_trusted srv cn). by rewrite Hconns, lookup_insert_eq. }
      apply (flagged_trusted_steps _ _ _ _ Hsteps) in Hf as (cn2 & Hcn2 & Ht2).
      inversion Hstep3 as [? ? ? ? ? ? _ Hit3 | | |]; subst.
      apply iteration_addpeer in Hit3
        as (cn3 & v3 & sched3 & Hcn3 & Hl3 & Hv3 & _ & _ & Heff).
      rewrite Hcn2 in Hcn3. injection Hcn3 as <-.
      assert (Hlaunch3 : forall e, In e sched3 -> is_task_launch e)
        by (by apply List.Forall_forall).
      intros Hin. destruct v3 as [e |]; destruct Heff as [-> _].
      * apply in_app_or in Hin as [Hin | [[= ->] | []]].
        -- by apply Hlaunch3 in Hin.
        -- by eapply proto_trusted_not_TooManyPeers.
      * apply in_app_or in Hin as [Hin | Hin].
        -- by apply Hlaunch3 in Hin.
        -- simpl in Hin. by destruct Hin as [? | [? | [? | [? | []]]]].
  - intros st c cn k p self now schedNow now' schedNow' cs n
      Hmax Hph Hps _ Hcn _ Htr Hk Hself Hne Hcompat.
    apply trusted_at_spec in Htr.
    assert (Hmark : mark_trusted srv cn = set_flags cn (Z.lor (flags cn) trustedConn)).
    { by rewrite mark_trusted_eq, Htr. }
    assert (Hfree : peers st !! id cn = None).
    { rewrite Hps. by apply lookup_singleton_ne. }
    (* first checkpoint *)
    destruct (iteration_posthandshake_run srv st now schedNow c cn None Hcn)
      as (st1 & sched1 & Hit1 & Hconns1 & Hpeers1 & Hph1).
    { apply (enc_accepts srv self); rewrite ?mark_trusted_id; try done.
      rewrite Hmark. apply is_trusted_set. }
    (* the protocol handshake stores the capabilities *)
    set (cn2 := set_caps_name (mark_trusted srv cn) cs n).
    set (st2 := with_conns st1 (<[c := cn2]> (conns st1))).
    assert (Hcn1 : conns st1 !! c = Some (mark_trusted srv cn)).
    { by rewrite Hconns1, lookup_insert_eq. }
    (* second checkpoint *)
    destruct (iteration_addpeer_run srv st2 now' schedNow' c cn2)
      as (st3 & sched3 & Hit3 & Hpeers3).
    { subst st2. simpl. apply lookup_insert_eq. }
    { destruct (protoHandshakeChecks_cases srv (peers st2) cn2) as [_ Hsame].
      rewrite Hsame by done. subst st2 cn2. cbn [peers with_conns].
      rewrite Hpeers1. apply (enc_accepts srv self); simpl; try done.
      - rewrite Hmark. apply is_trusted_set.
      - by rewrite mark_trusted_id.
      - by rewrite mark_trusted_id. }
    assert (Hid2 : id cn2 = id cn) by (subst cn2; simpl; apply mark_trusted_id).
    rewrite Hid2 in Hit3, Hpeers3.
    exists st1, st2, st3, sched1, sched3. split; [| split; [| split]].
    + by constructor.
    + subst st2. by constructor.
    + constructor; [| done]. subst st2. simpl. congruence.
    + rewrite Hpeers3. subst st2. cbn [peers with_conns]. rewrite Hpeers1, Hps.
      rewrite map_size_insert_None by (by apply lookup_singleton_ne).
      by rewrite map_size_singleton.
Qed.

(** ** Start and Stop *)

Lemma startListening_fields (srv srv' : Server) (err : option error) (eff : list Effect) :
  startListening srv = (srv', err, eff) ->
  running srv' = running srv /\ quit srv' = quit srv /\ PrivateKey srv' = PrivateKey srv /\
  loopWG srv <= loopWG srv'.
Proof.
  unfold startListening. destruct (net_Listen (ListenAddr srv)) as [l | e].
  - destruct (negb _ && _); intros [= <- <- <-]; simpl; repeat split; lia.
  - intros [= <- <- <-]. repeat split; lia.
Qed.

(** What a successful [Start] leaves behind. *)
Lemma Start_ok (srv srv1 : Server) (eff : list Effect) :
  Start srv = (srv1, None, eff) ->
  running srv = false /\ running srv1 = true /\ quit srv1 = ChanOpen /\
  loopWG srv + 1 <= loopWG srv1 /\
  exists pre d, eff = pre ++ [EWGAdd 1; EGo (WRun d)].
Proof.
  unfold Start, make_channels. destruct (running srv) eqn:Hrun; [done |].
  simpl. destruct (PrivateKey srv) as [key |]; [| done].
  destruct (newTransport srv); simpl; destruct (Dialer srv); simpl;
    destruct (Discovery srv); simpl;
    try (destruct (ListenUDP _ _ _ _); [| done]);
    match goal with
    | |- context [startListening ?s] =>
        pose proof (startListening_fields s) as Hsl;
        destruct (startListening s) as [[srv_f err] eff_f];
        destruct (Hsl _ _ _ eq_refl) as (_ & Hq & _ & Hwg); clear Hsl
    end;
    destruct (bool_decide _); simpl;
    try (destruct err; [done |]);
    intros [= <- <-]; simpl in *;
    (split; [done |]); (split; [done |]); (split; [done |]); (split; [lia |]);
    eexists _, _; reflexivity.
Qed.

Lemma Stop_running (srv : Server) :
  running srv = true -> quit srv = ChanOpen ->
  exists srv' eff,
    Stop srv = Ret (srv', eff) /\
    running srv' = false /\ quit srv' = ChanClosed /\ loopWG srv' = loopWG srv /\
    eff = (match listener srv with Some _ => [EListenerClose] | None => [] end)
            ++ [ECloseQuit].
Proof.
  intros Hrun Hq. unfold Stop. rewrite Hrun. cbn [negb listener set_running].
  destruct (listener srv) as [l |]; cbn; rewrite Hq; cbn; eexists _, _; done.
Qed.

Lemma Stop_stopped (srv : Server) : running srv = false -> Stop srv = Ret (srv, []).
Proof. intros Hrun. unfold Stop. by rewrite Hrun. Qed.

(** [Stop] never touches the wait group. *)
Lemma Stop_loopWG (srv srv' : Server) (eff : list Effect) :
  Stop srv = Ret (srv', eff) ->
  loopWG srv' = loopWG srv /\ ~ In EWGWait eff.
Proof.
  unfold Stop. destruct (running srv); cbn [negb].
  - cbn [listener set_running]. destruct (listener srv) as [l |]; cbn;
      destruct (close (quit srv)) as [q |]; cbn; try done;
      intros [= <- <-]; split; try done; cbn; intuition discriminate.
  - intros [= <- <-]. split; [done | intros []].
Qed.

(** [Stop] returns without waiting: a [Stop] that returns has performed no
    [loopWG.Wait()] and leaves the wait-group counter as it found it.  After
    a successful [Start] the counter is at least one (the run loop is
    registered), and it still is when [Stop] has returned. *)
Lemma Stop_after_Start_does_not_wait (srv srv1 : Server) (eff1 : list Effect) :
  Start srv = (srv1, None, eff1) ->
  exists srv2 eff2,
    Stop srv1 = Ret (srv2, eff2) /\
    ~ In EWGWait eff2 /\
    loopWG srv2 = loopWG srv1 /\
    loopWG srv + 1 <= loopWG srv2 /\
    exists pre d, eff1 = pre ++ [EWGAdd 1; EGo (WRun d)].
Proof.
  intros Hstart. apply Start_ok in Hstart as (_ & Hrun & Hq & Hwg & Hgo).
  destruct (Stop_running srv1 Hrun Hq) as (srv2 & eff2 & Hstop & _ & _ & Hwg2 & _).
  exists srv2, eff2. split; [done |].
  apply Stop_loopWG in Hstop as [_ Hnowait].
  repeat split; try done. lia.
Qed.

(** C9.  After a successful [Start], a first [Stop] closes the [quit]
    channel and returns; a second [Stop] finds [running] false and returns
    at once, with no effect and the server unchanged.  Neither call
    panics. *)
Theorem C9_Stop_idempotent (srv srv1 : Server) (eff1 : list Effect) :
  Start srv = (srv1, None, eff1) ->
  exists srv2 eff2,
    Stop srv1 = Ret (srv2, eff2) /\
    In ECloseQuit eff2 /\
    running srv2 = false /\
    Stop srv2 = Ret (srv2, []).
Proof.
  intros Hstart. apply Start_ok in Hstart as (_ & Hrun & Hq & _).
  destruct (Stop_running srv1 Hrun Hq) as (srv2 & eff2 & Hstop & Hrun2 & _ & _ & ->).
  exists srv2. eexists. split; [done |]. split; [| split; [done |]].
  - apply in_or_app. right. by left.
  - by apply Stop_stopped.
Qed.

Lemma Start_running (srv : Server) :
  running srv = true -> Start srv = (srv, Some (ErrMsg "server already running"), []).
Proof. intros Hrun. unfold Start. by rewrite Hrun. Qed.

Lemma Start_times_running (n : nat) (srv : Server) :
  running srv = true -> Start_times n srv = srv.
Proof.
  intros Hrun. unfold Start_times. induction n as [| n IH]; [done |].
  simpl. rewrite IH. by rewrite Start_running.
Qed.

(** C10.  [Start] sets [running] before it looks at the key and does not
    reset it on failure: on a stopped server without a key and with its
    [quit] channel still nil, [Start] fails with the missing-key error and
    leaves [running] true; every later [Start] then fails with "server
    already running"; and [Stop] passes its guard and closes the nil [quit]
    channel, which panics. *)
Theorem C10_failed_Start_leaves_running (srv : Server) :
  running srv = false -> PrivateKey srv = None -> quit srv = ChanNil ->
  exists srv1,
    Start srv
      = (srv1, Some (ErrMsg "Server.PrivateKey must be set to a non-nil key"), []) /\
    running srv1 = true /\
    quit srv1 = ChanNil /\
    (forall n, Start (Start_times n srv1)
               = (srv1, Some (ErrMsg "server already running"), [])) /\
    Stop srv1 = Panic "close of nil channel".
Proof.
  intros Hrun Hkey Hq. exists (set_running true srv).
  split; [| split; [done | split; [done | split]]].
  - unfold Start. rewrite Hrun. cbn [PrivateKey set_running]. by rewrite Hkey.
  - intros n. rewrite Start_times_running by done. by apply Start_running.
  - unfold Stop. cbn. destruct (listener srv); cbn; by rewrite Hq.
Qed.

(** ** The setup driver *)

(** C8 (amended).  The setup driver closes the connection with
    [DiscUnexpectedIdentity] in the two identity-mismatch cases: for a
    dialed connection whose identity learned in the encryption handshake
    differs from [dialDest.ID], and when the identity advertised in the
    protocol handshake differs from the learned one.  In the first case it
    returns before any checkpoint, in the second before the [addpeer]
    checkpoint.  These are the only closes with that reason that the driver
    decides itself: any other is an error it passes on unchanged from a
    handshake or from a checkpoint. *)
Theorem C8_setupConn_unexpected_identity
    (srv : Server) (mk : net.Conn -> transport) (r : connRef) (fd : net.Conn)
    (fl : connFlag) (dialDest : option discover.Node) (cp1 cp2 : CheckpointOutcome) :
  newTransport srv = Some mk ->
  (forall k,
      running srv = true ->
      doEncHandshake (mk fd) (PrivateKey srv) dialDest = (k, None) ->
      dial_mismatch dialDest k ->
      exists c,
        setupConn srv r fd fl dialDest cp1 cp2
          = Ret (c, [EGo (WWatchdog r); EConnClose r (ErrDisc DiscUnexpectedIdentity)]))
  /\
  (forall k phs,
      running srv = true ->
      doEncHandshake (mk fd) (PrivateKey srv) dialDest = (k, None) ->
      ~ dial_mismatch dialDest k -> cp1 = CpReply None ->
      doProtoHandshake (mk fd) (ourHandshake srv) = inl phs ->
      protoHandshake.ID phs <> k ->
      exists c,
        setupConn srv r fd fl dialDest cp1 cp2
          = Ret (c, [EGo (WWatchdog r); ECheckpoint StagePosthandshake r;
                     EConnClose r (ErrDisc DiscUnexpectedIdentity)]))
  /\
  (forall c eff,
      setupConn srv r fd fl dialDest cp1 cp2 = Ret (c, eff) ->
      In (EConnClose r (ErrDisc DiscUnexpectedIdentity)) eff ->
      running srv = true /\
      unexpected_identity_cause srv (mk fd) dialDest cp1 cp2).
Proof.
  intros Hmk. unfold setupConn. rewrite Hmk.
  assert (Hmis : forall k,
             match dialDest with
             | Some d => bool_decide (k <> discover.ID d)
             | None => false
             end = true <-> dial_mismatch dialDest k).
  { intros k. unfold dial_mismatch. destruct dialDest as [d |].
    - rewrite bool_decide_eq_true.
      split; [intros ?; by exists d | by intros (? & [= <-] & ?)].
    - split; [done | by intros (? & ? & ?)]. }
  split; [| split].
  - intros k Hrun Henc Hd. rewrite Hrun. cbn [negb]. rewrite Henc. cbn [id set_id].
    apply Hmis in Hd. rewrite Hd. by eexists.
  - intros k phs Hrun Henc Hnd -> Hproto Hid. rewrite Hrun. cbn [negb].
    rewrite Henc. cbn [id set_id].
    destruct (match dialDest with Some _ => _ | None => _ end) eqn:Hm;
      [exfalso; by apply Hnd, Hmis |].
    cbn. rewrite Hproto. rewrite bool_decide_eq_true_2 by done. by eexists.
  - intros c eff. destruct (running srv); cbn [negb].
    2: { intros [= <- <-]. cbn. intros [? | []]; done. }
    destruct (doEncHandshake (mk fd) (PrivateKey srv) dialDest) as [k [e |]] eqn:Henc.
    { intros [= <- <-]. cbn. intros [? | [[= ->] | []]]; try done.
      split; [done |]. by eapply cause_enc_error. }
    cbn [id set_id].
    destruct (match dialDest with Some _ => _ | None => _ end) eqn:Hm.
    { intros _ _. split; [done |]. eapply cause_dial_mismatch; [done | by apply Hmis]. }
    assert (Hnd : ~ dial_mismatch dialDest k) by (rewrite <- Hmis; congruence).
    destruct cp1 as [| | [e1 |]]; cbn.
    + intros [= <- <-]. cbn. intros [? | [? | []]]; done.
    + intros [= <- <-]. cbn. intros [? | [? | [? | []]]]; done.
    + intros [= <- <-]. cbn. intros [? | [? | [[= ->] | []]]]; try done.
      split; [done |]. apply cause_checkpoint_verdict. by left.
    + destruct (doProtoHandshake (mk fd) (ourHandshake srv)) as [phs | e] eqn:Hproto.
      * case_bool_decide as Hid.
        { intros _ _. split; [done |]. by eapply cause_proto_mismatch. }
        destruct cp2 as [| | [e2 |]]; cbn.
        -- intros [= <- <-]. cbn. intros [? | [? | [? | []]]]; done.
        -- intros [= <- <-]. cbn. intros [? | [? | [? | [? | []]]]]; done.
        -- intros [= <- <-]. cbn. intros [? | [? | [? | [[= ->] | []]]]]; try done.
           split; [done |]. apply cause_checkpoint_verdict. by right.
        -- intros [= <- <-]. cbn. intros [? | [? | [? | []]]]; done.
      * intros [= <- <-]. cbn. intros [? | [? | [[= ->] | []]]]; try done.
        split; [done |]. by apply cause_proto_error.
Qed.

End Proofs.

(** * Further properties of the file *)

Section Extras.
Context `{External}.

(** ** Dial tasks *)

Lemma startTasks_split (ts : list task) :
  forall rt rest rt' eff,
    startTasks ts rt = (rest, rt', eff) ->
    exists started,
      ts = started ++ rest /\
      rt' = rt ++ started /\
      eff = flat_map (fun t => [EWGAdd 1; EGo (WTask t)]) started /\
      (rest <> [] -> maxActiveDialTasks <= Z.of_nat (length rt')) /\
      (Z.of_nat (length rt) <= maxActiveDialTasks ->
       Z.of_nat (length rt') <= maxActiveDialTasks).
Proof.
  induction ts as [| t ts IH]; intros rt rest rt' eff; simpl.
  - intros [= <- <- <-]. exists []. repeat split; try done. by rewrite app_nil_r.
  - destruct (Z.ltb_spec (Z.of_nat (length rt)) maxActiveDialTasks) as [Hlt | Hge].
    + destruct (startTasks ts (rt ++ [t])) as [[rest0 rt0] eff0] eqn:Hs.
      intros [= <- <- <-].
      destruct (IH _ _ _ _ Hs) as (started & -> & -> & -> & Hfull & Hcap).
      exists (t :: started). split; [done |]. split; [by rewrite <- app_assoc |].
      split; [done |]. split; [exact Hfull |]. intros _. apply Hcap.
      rewrite length_app. simpl. lia.
    + intros [= <- <- <-]. exists []. split; [done |]. split; [by rewrite app_nil_r |].
      split; [done |]. split; [intros _; lia | done].
Qed.

(** X1.  [startTasks] starts a prefix of the tasks it is given, in order, and
    hands back the rest: the running list grows by exactly the started
    tasks, one registered worker is launched for each, tasks are left over
    only when [maxActiveDialTasks] are running, and a running list within
    the cap stays within it. *)
Theorem startTasks_starts_prefix (ts rt rest rt' : list task) (eff : list Effect) :
  startTasks ts rt = (rest, rt', eff) ->
  exists started,
    ts = started ++ rest /\
    rt' = rt ++ started /\
    eff = flat_map (fun t => [EWGAdd 1; EGo (WTask t)]) started /\
    (rest <> [] -> maxActiveDialTasks <= Z.of_nat (length rt')) /\
    (Z.of_nat (length rt) <= maxActiveDialTasks ->
     Z.of_nat (length rt') <= maxActiveDialTasks).
Proof. apply startTasks_split. Qed.

Lemma delTask_split (t : task) (rt : list task) :
  In t rt ->
  exists l1 l2, rt = l1 ++ t :: l2 /\ ~ In t l1 /\ delTask t rt = l1 ++ l2.
Proof.
  induction rt as [| x rt IH]; simpl; [done |].
  intros Hin. destruct (decide (x = t)) as [-> | Hne].
  - exists [], rt. split; [done |]. split; [intros [] | done].
  - destruct Hin as [? | Hin]; [done |].
    destruct (IH Hin) as (l1 & l2 & -> & Hnot & ->).
    exists (x :: l1), l2. simpl. repeat split; try done. intros [? | ?]; done.
Qed.

Lemma delTask_absent (t : task) (rt : list task) : ~ In t rt -> delTask t rt = rt.
Proof.
  induction rt as [| x rt IH]; simpl; [done |].
  intros Hnot. destruct (decide (x = t)) as [-> | Hne].
  - exfalso. apply Hnot. by left.
  - rewrite IH; [done |]. intros ?. apply Hnot. by right.
Qed.

Lemma delTask_length (t : task) (rt : list task) :
  (length (delTask t rt) <= length rt)%nat.
Proof.
  induction rt as [| x rt IH]; simpl; [done |].
  destruct (decide (x = t)); simpl; lia.
Qed.

(** X2.  [delTask] removes the first occurrence of the task and nothing else;
    a task that is not running leaves the list as it is. *)
Theorem delTask_removes_first (t : task) (rt : list task) :
  (In t rt ->
   exists l1 l2, rt = l1 ++ t :: l2 /\ ~ In t l1 /\ delTask t rt = l1 ++ l2)
  /\ (~ In t rt -> delTask t rt = rt).
Proof. split; [apply delTask_split | apply delTask_absent]. Qed.

Lemma scheduleTasks_tasks (srv : Server) (st st' : State) (now : Z) (eff : list Effect) :
  scheduleTasks srv st now = (st', eff) ->
  Z.of_nat (length (runningTasks st)) <= maxActiveDialTasks ->
  Z.of_nat (length (runningTasks st')) <= maxActiveDialTasks /\
  (running srv = false -> st' = st /\ eff = []) /\
  (running srv = true ->
   (queuedTasks st' <> [] -> Z.of_nat (length (runningTasks st')) = maxActiveDialTasks) /\
   ((dialstate st' = dialstate st /\
     runningTasks st' ++ queuedTasks st' = runningTasks st ++ queuedTasks st)
    \/
    (let n := Z.of_nat (length (runningTasks st ++ queuedTasks st)) in
     n < maxActiveDialTasks /\
     dialstate st' = called (dialstate st) (CallNewTasks n (peers st) now) /\
     runningTasks st' ++ queuedTasks st'
     = runningTasks st ++ queuedTasks st ++ newTasks (dialstate st) n (peers st) now))).
Proof.
  unfold scheduleTasks. intros Hs Hcap.
  destruct (running srv) eqn:Hrun; cbn [negb] in Hs.
  2: { injection Hs as <- <-. done. }
  destruct (startTasks (queuedTasks st) (runningTasks st)) as [[queued rt] eff1] eqn:H1.
  destruct (startTasks_split _ _ _ _ _ H1) as (started & Hq & -> & _ & Hfull & Hcap1).
  specialize (Hcap1 Hcap).
  destruct (Z.ltb_spec (Z.of_nat (length (runningTasks st ++ started))) maxActiveDialTasks)
    as [Hlt | Hge].
  - assert (queued = []) as ->.
    { destruct queued as [| t queued]; [done |]. exfalso.
      assert (t :: queued <> []) as Hne by done. apply Hfull in Hne. lia. }
    rewrite app_nil_r in Hq. subst started.
    replace (Z.of_nat (length (@nil nat))) with 0 in Hs by done.
    rewrite Z.add_0_r in Hs.
    destruct (startTasks _ (runningTasks st ++ queuedTasks st)) as [[rest rt'] eff2] eqn:H2.
    destruct (startTasks_split _ _ _ _ _ H2) as (started2 & Hnt & -> & _ & Hfull2 & Hcap2).
    injection Hs as <- <-. cbn [runningTasks queuedTasks dialstate].
    assert (Hle : Z.of_nat (length ((runningTasks st ++ queuedTasks st) ++ started2))
                  <= maxActiveDialTasks) by (apply Hcap2; lia).
    split; [done |]. split; [done |]. intros _. split.
    + intros Hrest. simpl in Hrest. specialize (Hfull2 Hrest). lia.
    + right. cbn zeta. split; [done |]. split; [done |].
      rewrite Hnt. by rewrite <- !app_assoc.
  - injection Hs as <- <-. cbn [runningTasks queuedTasks dialstate].
    split; [done |]. split; [done |]. intros _. split; [intros _; lia |].
    left. split; [done |]. rewrite Hq. by rewrite <- app_assoc.
Qed.

(** X3.  [scheduleTasks] does nothing on a stopped server.  On a running one it
    loses no task and keeps their order: the running list followed by the
    queue is what it was, followed by the tasks the planner handed out.  The
    planner is asked only when the whole queue could be started, and is told
    the number of tasks then running; tasks stay queued only when
    [maxActiveDialTasks] are running; and the cap is kept. *)
Theorem scheduleTasks_keeps_every_task
    (srv : Server) (st st' : State) (now : Z) (eff : list Effect) :
  scheduleTasks srv st now = (st', eff) ->
  Z.of_nat (length (runningTasks st)) <= maxActiveDialTasks ->
  Z.of_nat (length (runningTasks st')) <= maxActiveDialTasks /\
  (running srv = false -> st' = st /\ eff = []) /\
  (running srv = true ->
   (queuedTasks st' <> [] -> Z.of_nat (length (runningTasks st')) = maxActiveDialTasks) /\
   ((dialstate st' = dialstate st /\
     runningTasks st' ++ queuedTasks st' = runningTasks st ++ queuedTasks st)
    \/
    (let n := Z.of_nat (length (runningTasks st ++ queuedTasks st)) in
     n < maxActiveDialTasks /\
     dialstate st' = called (dialstate st) (CallNewTasks n (peers st) now) /\
     runningTasks st' ++ queuedTasks st'
     = runningTasks st ++ queuedTasks st ++ newTasks (dialstate st) n (peers st) now))).
Proof. apply scheduleTasks_tasks. Qed.

(** The cap on running dial tasks is an invariant of the run loop. *)
Lemma handle_runningTasks (srv : Server) (st st' : State) (now : Z) (ev : Event)
    (eff : list Effect) :
  handle srv st now ev = Ret (st', eff) ->
  (length (runningTasks st') <= length (runningTasks st))%nat.
Proof.
  destruct ev as [| n | op | t | c | c | p]; simpl;
    try (intros [= <- <-]; simpl; lia).
  - intros [= <- <-]. simpl. apply delTask_length.
  - destruct (conns st !! c) as [cn |]; [| done].
    destruct (encHandshakeChecks _ _ _) as [v |]; simpl; [| done].
    intros [= <- <-]. simpl. lia.
  - destruct (conns st !! c) as [cn |]; [| done].
    destruct (protoHandshakeChecks _ _ _) as [[e |] |]; simpl; [| | done];
      intros [= <- <-]; simpl; lia.
  - destruct (Peer_ID (conns st) p) as [k |]; simpl; [| done].
    intros [= <- <-]. simpl. lia.
Qed.

Lemma loop_step_runningTasks (srv : Server) (st st' : State) (l : Label)
    (eff : list Effect) :
  loop_step srv st l eff st' ->
  Z.of_nat (length (runningTasks st)) <= maxActiveDialTasks ->
  Z.of_nat (length (runningTasks st')) <= maxActiveDialTasks.
Proof.
  intros [st0 now schedNow ev st1 eff0 _ Hit | st0 p st1 eff0 _ Hd
          | st0 r c Hfresh | st0 r c cs n Hr] Hcap; try done.
  - apply iteration_inv in Hit as (st2 & eff1 & eff2 & Hs & Hh & _).
    apply scheduleTasks_tasks in Hs as [Hcap2 _]; [| done].
    apply handle_runningTasks in Hh. lia.
  - unfold drain in Hd. destruct (Peer_ID (conns st0) p) as [k |]; simpl in Hd; [| done].
    by injection Hd as <- <-.
Qed.

(** X4.  In every reachable state of the run loop at most [maxActiveDialTasks]
    dial tasks are running. *)
Theorem runningTasks_capped (srv : Server) (d : dialState) (st : State) :
  reachable srv d st ->
  Z.of_nat (length (runningTasks st)) <= maxActiveDialTasks.
Proof.
  induction 1 as [| st l eff st' _ IH Hs]; [done |].
  by eapply loop_step_runningTasks.
Qed.

(** ** Workers and the wait group *)

Lemma registered_app (a b : list Effect) :
  registered a -> registered b -> registered (a ++ b).
Proof.
  induction 1 as [| w rest _ IH | e rest He _ IH]; intros Hb; simpl.
  - done.
  - apply registered_go. by apply IH.
  - apply registered_other; [done | by apply IH].
Qed.

Lemma registered_no_go (l : list Effect) :
  (forall e, In e l -> forall w, e <> EGo w) -> registered l.
Proof.
  induction l as [| e l IH]; intros Hl; [constructor |].
  apply registered_other; [apply Hl; by left |]. apply IH. intros e' He'. apply Hl. by right.
Qed.

Lemma registered_launches (ts : list task) :
  registered (flat_map (fun t => [EWGAdd 1; EGo (WTask t)]) ts).
Proof. induction ts as [| t ts IH]; simpl; [constructor | by apply registered_go]. Qed.

Lemma scheduleTasks_registered (srv : Server) (st st' : State) (now : Z)
    (eff : list Effect) :
  scheduleTasks srv st now = (st', eff) -> registered eff.
Proof.
  unfold scheduleTasks. destruct (negb (running srv)).
  { intros [= <- <-]. constructor. }
  destruct (startTasks (queuedTasks st) (runningTasks st)) as [[queued rt] eff1] eqn:H1.
  destruct (startTasks_split _ _ _ _ _ H1) as (s1 & _ & _ & -> & _).
  destruct (Z.of_nat (length rt) <? maxActiveDialTasks).
  - destruct (startTasks _ rt) as [[rest rt'] eff2] eqn:H2.
    destruct (startTasks_split _ _ _ _ _ H2) as (s2 & _ & _ & -> & _).
    intros [= <- <-]. apply registered_app; apply registered_launches.
  - intros [= <- <-]. apply registered_launches.
Qed.

Ltac solve_registered :=
  repeat first
    [ apply registered_nil
    | apply registered_go
    | apply registered_other; [intros; discriminate |] ].

Lemma handle_registered (srv : Server) (st st' : State) (now : Z) (ev : Event)
    (eff : list Effect) :
  handle srv st now ev = Ret (st', eff) -> registered eff.
Proof.
  destruct ev as [| n | op | t | c | c | p]; simpl.
  - intros [= <- <-]. apply registered_no_go. intros e He w ->.
    apply in_app_or in He as [He | He].
    + apply list_elem_of_In, list_elem_of_fmap in He as (? & ? & _). done.
    + destruct (ntab srv); simpl in He; [destruct He as [? | []] |]; done.
  - intros [= <- <-]. solve_registered.
  - intros [= <- <-]. solve_registered.
  - intros [= <- <-]. solve_registered.
  - destruct (conns st !! c) as [cn |]; [| done].
    destruct (encHandshakeChecks _ _ _) as [v |]; simpl; [| done].
    intros [= <- <-]. solve_registered.
  - destruct (conns st !! c) as [cn |]; [| done].
    destruct (protoHandshakeChecks _ _ _) as [[e |] |]; simpl; [| | done];
      intros [= <- <-]; solve_registered.
  - destruct (Peer_ID (conns st) p) as [k |]; simpl; [| done].
    intros [= <- <-]. solve_registered.
Qed.

(** X5.  Every worker the run loop launches (dial tasks, peer drivers) is
    registered with the wait group first: in the effects of any step each
    [go] statement comes right after a [loopWG.Add(1)]. *)
Theorem loop_step_registers_workers
    (srv : Server) (st st' : State) (l : Label) (eff : list Effect) :
  loop_step srv st l eff st' -> registered eff.
Proof.
  intros [st0 now schedNow ev st1 eff0 _ Hit | st0 p st1 eff0 _ Hd
          | st0 r c Hfresh | st0 r c cs n Hr]; try constructor.
  - apply iteration_inv in Hit as (st2 & eff1 & eff2 & Hs & Hh & ->).
    apply registered_app; [by eapply scheduleTasks_registered | by eapply handle_registered].
  - unfold drain in Hd. destruct (Peer_ID (conns st0) p) as [k |]; simpl in Hd; [| done].
    injection Hd as <- <-. solve_registered.
Qed.

(** ** Start, in all its outcomes *)

Lemma Self_with_key (srv : Server) (key : ecdsa.PrivateKey) :
  running srv = true -> PrivateKey srv = Some key ->
  exists node,
    Self srv = Ret node /\
    (ntab srv = None ->
     discover.ID node = PubkeyID key /\ 0 <= discover.TCP node < 2 ^ 16) /\
    (forall tab, ntab srv = Some tab -> node = tab_Self tab).
Proof.
  intros Hrun Hkey. unfold Self. rewrite Hrun, Hkey. cbn [negb].
  destruct (ntab srv) as [tab |].
  - exists (tab_Self tab). split; [done |]. split; [done |]. by intros ? [= <-].
  - destruct (listener srv) as [l |]; eexists; (split; [done |]); (split; [| done]);
      intros _; cbn [discover.ID discover.TCP]; (split; [done |]).
    + apply Z.mod_pos_bound. lia.
    + lia.
Qed.

Ltac finish_Start :=
  repeat match goal with
    | |- _ /\ _ => split
    | |- _ -> _ => intro
    | H : None <> None |- _ => by destruct H
    | H : Some _ = None |- _ => discriminate H
    | H : ?x = Some _ |- is_Some ?x => rewrite H; by eexists
    | |- is_Some (Some _) => by eexists
    | |- registered _ => solve_registered
    | |- exists _, _ => eexists
    end;
  try done; try (simpl; lia).

Lemma Start_outcome (srv srv1 : Server) (err : option error) (eff : list Effect) :
  Start srv = (srv1, err, eff) ->
  registered eff /\
  loopWG srv1 = loopWG srv + count_go eff /\
  running srv1 = true /\
  MaxPeers srv1 = MaxPeers srv /\ TrustedNodes srv1 = TrustedNodes srv /\
  Protocols srv1 = Protocols srv /\ PrivateKey srv1 = PrivateKey srv /\
  (err <> None ->
   eff = [] /\ listener srv1 = listener srv /\
   (running srv = false -> PrivateKey srv <> None -> quit srv1 = ChanOpen)) /\
  (err = None ->
   running srv = false /\
   is_Some (newTransport srv1) /\ is_Some (Dialer srv1) /\
   quit srv1 = ChanOpen /\
   count_run eff = 1 /\
   exists key,
     PrivateKey srv = Some key /\
     ourHandshake srv1
     = Some {| protoHandshake.Version := baseProtocolVersion;
               protoHandshake.Name := Name srv;
               protoHandshake.Caps := map Protocol.cap (Protocols srv);
               protoHandshake.ID := PubkeyID key |}).
Proof.
  unfold Start, startListening, make_channels.
  destruct (running srv) eqn:Hrun.
  { intros [= <- <- <-]. finish_Start. }
  simpl. destruct (PrivateKey srv) as [key |] eqn:Hkey.
  2: { intros [= <- <- <-]. simpl. finish_Start. }
  destruct (newTransport srv) eqn:Hnt; simpl; destruct (Dialer srv) eqn:Hdl; simpl;
    destruct (Discovery srv); simpl;
    try (destruct (ListenUDP _ _ _ _); simpl);
    try (intros [= <- <- <-]; simpl; finish_Start; fail);
    (destruct (bool_decide _); simpl;
     [ destruct (net_Listen _) as [l | e]; simpl;
       [ destruct (negb _ && _); simpl; destruct (NoDial srv && _); simpl | ]
     | destruct (NoDial srv && _); simpl ]);
    intros [= <- <- <-]; simpl; finish_Start.
Qed.

(** X6.  A failed [Start] launches nothing, whatever the cause (already
    running, no key, discovery or TCP listener failing): no worker is
    started, the wait group and the listener are untouched, and [running] is
    true afterwards, so that the next [Start] answers "server already
    running".  If the server was stopped and has a key, the [quit] channel
    has been made, and a [Stop] then returns normally. *)
Theorem failed_Start_launches_nothing
    (srv srv1 : Server) (e : error) (eff : list Effect) :
  Start srv = (srv1, Some e, eff) ->
  eff = [] /\
  loopWG srv1 = loopWG srv /\
  listener srv1 = listener srv /\
  running srv1 = true /\
  Start srv1 = (srv1, Some (ErrMsg "server already running"), []) /\
  (running srv = false -> PrivateKey srv <> None ->
   exists srv2 eff2, Stop srv1 = Ret (srv2, eff2) /\ running srv2 = false).
Proof.
  intros Hstart. apply Start_outcome in Hstart
    as (_ & Hwg & Hrun & _ & _ & _ & _ & Hfail & _).
  destruct Hfail as (-> & Hl & Hq); [done |]. simpl in Hwg.
  split; [done |]. split; [lia |]. split; [done |]. split; [done |].
  split; [by apply Start_running |].
  intros Hstopped Hkey. specialize (Hq Hstopped Hkey).
  destruct (Stop_running srv1 Hrun Hq) as (srv2 & eff2 & Hstop & Hrun2 & _).
  by exists srv2, eff2.
Qed.

(** X7.  A successful [Start] leaves a server on which nothing is nil that the
    workers dereference: the transport factory and the dialer are set, the
    handshake descriptor carries the configured name, the capabilities of
    the configured protocols in their order and the identity of the key, and
    [Self()] returns.  Without a discovery table [Self().ID] is that same
    identity and the port fits sixteen bits; with one, [Self()] is the
    table's node.  Exactly one run loop has been launched. *)
Theorem Start_initialises (srv srv1 : Server) (eff : list Effect) :
  Start srv = (srv1, None, eff) ->
  exists key node,
    PrivateKey srv = Some key /\
    is_Some (newTransport srv1) /\ is_Some (Dialer srv1) /\
    ourHandshake srv1
    = Some {| protoHandshake.Version := baseProtocolVersion;
              protoHandshake.Name := Name srv;
              protoHandshake.Caps := map Protocol.cap (Protocols srv);
              protoHandshake.ID := PubkeyID key |} /\
    Self srv1 = Ret node /\
    (ntab srv1 = None ->
     discover.ID node = PubkeyID key /\ 0 <= discover.TCP node < 2 ^ 16) /\
    (forall tab, ntab srv1 = Some tab -> node = tab_Self tab) /\
    count_run eff = 1.
Proof.
  intros Hstart. apply Start_outcome in Hstart
    as (_ & _ & Hrun & _ & _ & _ & Hkey1 & _ & Hok).
  destruct Hok as (_ & Hnt & Hdl & _ & Hone & key & Hkey & Hhs); [done |].
  rewrite Hkey in Hkey1.
  destruct (Self_with_key srv1 key Hrun Hkey1) as (node & Hself & Hid & Htab).
  by exists key, node.
Qed.

(** X8.  Whatever its outcome, [Start] registers every worker it launches (the
    listen loop, the NAT mapper, the run loop) with the wait group before
    the [go] statement, and the counter grows by the number of workers
    launched. *)
Theorem Start_registers_workers
    (srv srv1 : Server) (err : option error) (eff : list Effect) :
  Start srv = (srv1, err, eff) ->
  registered eff /\ loopWG srv1 = loopWG srv + count_go eff.
Proof.
  intros Hstart. apply Start_outcome in Hstart as (Hreg & Hwg & _). done.
Qed.

(** ** What a step does to the two maps *)

Lemma handle_maps (srv : Server) (st st' : State) (now : Z) (ev : Event)
    (eff : list Effect) :
  handle srv st now ev = Ret (st', eff) ->
  (conns st' = conns st /\ peers st' = peers st /\
   forall c v, In (ESendCont c v) eff ->
     ev = EvAddPeer c /\
     exists cn e, conns st !! c = Some cn /\ v = Some e /\
                  protoHandshakeChecks srv (peers st) cn = Ret v)
  \/
  (exists c cn v,
      ev = EvPosthandshake c /\ conns st !! c = Some cn /\
      conns st' = <[c := mark_trusted srv cn]> (conns st) /\
      peers st' = peers st /\
      encHandshakeChecks srv (peers st) (mark_trusted srv cn) = Ret v /\
      eff = [ESendCont c v])
  \/
  (exists c cn,
      ev = EvAddPeer c /\ conns st !! c = Some cn /\
      conns st' = conns st /\
      protoHandshakeChecks srv (peers st) cn = Ret None /\
      peers st' = <[id cn := newPeer c (Protocols srv)]> (peers st) /\
      eff = [EPeersStore (id cn) (newPeer c (Protocols srv)); EWGAdd 1;
             EGo (WRunPeer (newPeer c (Protocols srv))); ESendCont c None])
  \/
  (exists p k,
      ev = EvDelPeer p /\ Peer_ID (conns st) p = Ret k /\
      conns st' = conns st /\ peers st' = delete k (peers st) /\
      eff = [EPeersDelete k]).
Proof.
  destruct ev as [| n | op | t | c | c | p]; simpl.
  - intros [= <- <-]. left. split; [done |]. split; [done |].
    intros c v Hin. exfalso. apply in_app_or in Hin as [Hin | Hin].
    + apply list_elem_of_In, list_elem_of_fmap in Hin as (? & ? & _). done.
    + destruct (ntab srv); simpl in Hin; [destruct Hin as [? | []] |]; done.
  - intros [= <- <-]. left. split; [done |]. split; [done |]. intros ? ? [].
  - intros [= <- <-]. left. split; [done |]. split; [done |].
    intros ? ? [? | []]. done.
  - intros [= <- <-]. left. split; [done |]. split; [done |]. intros ? ? [].
  - destruct (conns st !! c) as [cn |] eqn:Hc; [| done].
    rewrite <- mark_trusted_eq. cbn [peers with_conns].
    destruct (encHandshakeChecks _ _ _) as [v |] eqn:Hv; simpl; [| done].
    intros [= <- <-]. right. left. by exists c, cn, v.
  - destruct (conns st !! c) as [cn |] eqn:Hc; [| done].
    destruct (protoHandshakeChecks srv (peers st) cn) as [[e |] |] eqn:Hp; simpl;
      [| | done]; intros [= <- <-].
    + left. split; [done |]. split; [done |]. intros c' v [[= <- <-] | []].
      split; [done |]. by exists cn, e.
    + right. right. left. by exists c, cn.
  - destruct (Peer_ID (conns st) p) as [k |] eqn:Hk; simpl; [| done].
    intros [= <- <-]. right. right. right. by exists p, k.
Qed.

Lemma iteration_maps (srv : Server) (st st' : State) (now schedNow : Z) (ev : Event)
    (eff : list Effect) :
  iteration srv st now schedNow ev = Ret (st', eff) ->
  exists st1 sched eff',
    scheduleTasks srv st schedNow = (st1, sched) /\
    conns st1 = conns st /\ peers st1 = peers st /\ phase st1 = phase st /\
    handle srv st1 now ev = Ret (st', eff') /\
    eff = sched ++ eff' /\
    forall c v, ~ In (ESendCont c v) sched.
Proof.
  intros Hit. apply iteration_inv in Hit as (st1 & eff1 & eff2 & Hs & Hh & ->).
  pose proof (scheduleTasks_launch _ _ _ _ _ Hs) as Hl.
  pose proof (scheduleTasks_frame _ _ _ _ _ Hs) as (Hc & Hp & Hph).
  exists st1, eff1, eff2. repeat split; try done.
  intros c v Hin. apply (proj1 (List.Forall_forall _ _) Hl) in Hin. done.
Qed.

Lemma drain_inv (st st' : State) (p : Peer) (eff : list Effect) :
  drain st p = Ret (st', eff) ->
  exists k,
    Peer_ID (conns st) p = Ret k /\ conns st' = conns st /\
    peers st' = delete k (peers st) /\ eff = [EPeersDelete k] /\
    phase st' = if bool_decide (0 < len_peers (delete k (peers st))) then Spindown
                else Exited.
Proof.
  unfold drain. destruct (Peer_ID (conns st) p) as [k |]; simpl; [| done].
  intros [= <- <-]. by exists k.
Qed.

(** *** Descriptors *)

Lemma mark_trusted_cases (srv : Server) (cn : conn) :
  mark_trusted srv cn = cn \/
  (mark_trusted srv cn = set_flags cn (Z.lor (flags cn) trustedConn) /\
   in_trusted_set srv (id cn)).
Proof.
  rewrite mark_trusted_eq. destruct (trusted_at srv (id cn)) eqn:Ht; [| by left].
  right. split; [done |]. by apply trusted_at_spec.
Qed.

Lemma descriptor_changes_aux
    (srv : Server) (st st' : State) (l : Label) (eff : list Effect)
    (r : connRef) (cn : conn) :
  loop_step srv st l eff st' ->
  conns st !! r = Some cn ->
  exists cn',
    conns st' !! r = Some cn' /\
    id cn' = id cn /\
    (cn' = cn
     \/ (cn' = set_flags cn (Z.lor (flags cn) trustedConn) /\
         in_trusted_set srv (id cn) /\
         exists now schedNow, l = LIteration now schedNow (EvPosthandshake r))
     \/ (exists cs n, l = LProtoHandshake r cs n /\ cn' = set_caps_name cn cs n)).
Proof.
  intros [st0 now schedNow ev st1 eff0 _ Hit | st0 p st1 eff0 _ Hd
          | st0 r0 c0 Hfresh | st0 r0 c0 cs n Hr] Hcn.
  - apply iteration_maps in Hit
      as (st2 & sched & eff' & _ & Hc & Hp & _ & Hh & _ & _).
    apply handle_maps in Hh
      as [(Hc' & _) | [(c & cn0 & v & -> & Hc0 & Hc' & _) | [(c & cn0 & _ & _ & Hc' & _)
                                                             | (p & k & _ & _ & Hc' & _)]]];
      rewrite Hc' in *; rewrite ?Hc in *; try (exists cn; by repeat split; try left).
    destruct (decide (c = r)) as [-> | Hne].
    + rewrite Hcn in Hc0. injection Hc0 as <-. rewrite lookup_insert_eq.
      exists (mark_trusted srv cn). split; [done |]. split; [apply mark_trusted_id |].
      destruct (mark_trusted_cases srv cn) as [-> | [-> Htr]]; [by left |].
      right. left. split; [done |]. split; [done |]. by exists now, schedNow.
    + rewrite lookup_insert_ne by done. exists cn. by repeat split; try left.
  - apply drain_inv in Hd as (k & _ & Hc & _). rewrite Hc.
    exists cn. by repeat split; try left.
  - simpl. rewrite lookup_insert_ne by congruence. exists cn. by repeat split; try left.
  - simpl. destruct (decide (r0 = r)) as [-> | Hne].
    + rewrite lookup_insert_eq. rewrite Hr in Hcn. injection Hcn as ->.
      eexists. split; [done |]. split; [done |]. right. right. by exists cs, n.
    + rewrite lookup_insert_ne by done. exists cn. by repeat split; try left.
Qed.

(** X9.  No step removes a connection descriptor or changes its identity.  The
    run loop changes a descriptor only in the [posthandshake] event of that
    very connection, only by OR-ing [trustedConn] into its flags, and only
    when its identity is one of the [TrustedNodes]; the only other change is
    the setup driver's own write of capabilities and name. *)
Theorem descriptor_changes
    (srv : Server) (st st' : State) (l : Label) (eff : list Effect)
    (r : connRef) (cn : conn) :
  loop_step srv st l eff st' ->
  conns st !! r = Some cn ->
  exists cn',
    conns st' !! r = Some cn' /\
    id cn' = id cn /\
    (cn' = cn
     \/ (cn' = set_flags cn (Z.lor (flags cn) trustedConn) /\
         in_trusted_set srv (id cn) /\
         exists now schedNow, l = LIteration now schedNow (EvPosthandshake r))
     \/ (exists cs n, l = LProtoHandshake r cs n /\ cn' = set_caps_name cn cs n)).
Proof. apply descriptor_changes_aux. Qed.

(** *** The peer map *)

Lemma loop_step_peers (srv : Server) (st st' : State) (l : Label) (eff : list Effect) :
  loop_step srv st l eff st' ->
  peers st' = peers st
  \/ (exists now schedNow c cn,
        l = LIteration now schedNow (EvAddPeer c) /\
        conns st !! c = Some cn /\ conns st' = conns st /\
        peers st !! id cn = None /\
        peers st' = <[id cn := newPeer c (Protocols srv)]> (peers st))
  \/ (exists p k,
        (l = LDrain p \/ exists now schedNow, l = LIteration now schedNow (EvDelPeer p)) /\
        Peer_ID (conns st) p = Ret k /\ conns st' = conns st /\
        peers st' = delete k (peers st)).
Proof.
  intros [st0 now schedNow ev st1 eff0 _ Hit | st0 p st1 eff0 _ Hd
          | st0 r0 c0 Hfresh | st0 r0 c0 cs n Hr]; try by left.
  - apply iteration_maps in Hit
      as (st2 & sched & eff' & _ & Hc & Hp & _ & Hh & _ & _).
    apply handle_maps in Hh
      as [(_ & Hp' & _) | [(c & cn0 & v & _ & _ & _ & Hp' & _)
                           | [(c & cn0 & -> & Hc0 & Hc' & Hchk & Hp' & _)
                              | (p & k & -> & Hk & Hc' & Hp' & _)]]];
      rewrite ?Hc, ?Hp in *.
    + left. congruence.
    + left. congruence.
    + right. left. exists now, schedNow, c, cn0.
      apply protoHandshakeChecks_accept, encHandshakeChecks_accept in Hchk
        as (_ & Hfree & _).
      repeat split; try done; congruence.
    + right. right. exists p, k. split; [right; by exists now, schedNow |].
      repeat split; try done; congruence.
  - apply drain_inv in Hd as (k & Hk & Hc & Hp & _).
    right. right. exists p, k. split; [by left | done].
Qed.

(** X10.  The peer map changes only in three places: an accepted [addpeer]
    adds one entry under an identity that was absent, and [delpeer] (in the
    running loop or while draining) deletes one key.  No entry is ever
    replaced by another peer, and the map grows by at most one per step. *)
Theorem peer_map_changes
    (srv : Server) (st st' : State) (l : Label) (eff : list Effect) :
  loop_step srv st l eff st' ->
  (forall k p, peers st !! k = Some p ->
     peers st' !! k = Some p \/ peers st' !! k = None) /\
  (size (peers st') <= S (size (peers st)))%nat /\
  (peers st' <> peers st ->
   (exists now schedNow c, l = LIteration now schedNow (EvAddPeer c) /\
      size (peers st') = S (size (peers st)))
   \/ (exists p, (l = LDrain p \/
                  exists now schedNow, l = LIteration now schedNow (EvDelPeer p)) /\
         S (size (peers st')) = size (peers st))).
Proof.
  intros Hstep. apply loop_step_peers in Hstep
    as [Hp | [(now & schedNow & c & cn & -> & Hcn & _ & Hfree & Hp)
              | (p & k & Hl & _ & _ & Hp)]]; rewrite Hp.
  - split; [by left |]. split; [lia |]. done.
  - split; [| split].
    + intros k p Hk. left. rewrite lookup_insert_ne; [done | congruence].
    + by rewrite map_size_insert_None.
    + intros _. left. exists now, schedNow, c. split; [done |].
      by rewrite map_size_insert_None.
  - split; [| split].
    + intros k' p' Hk'. destruct (decide (k = k')) as [-> | Hne].
      * right. apply lookup_delete_eq.
      * left. by rewrite lookup_delete_ne.
    + pose proof (map_subseteq_size _ _ (delete_subseteq (peers st) k)). lia.
    + intros Hne. right. exists p. split; [done |].
      destruct (peers st !! k) as [q |] eqn:Hq.
      * rewrite map_size_delete_Some by done.
        assert (size (peers st) <> 0%nat).
        { apply map_size_non_empty_iff. intros Hem. by rewrite Hem, lookup_empty in Hq. }
        lia.
      * exfalso. apply Hne. by apply delete_id.
Qed.

Lemma keys_consistent_step
    (srv : Server) (st st' : State) (l : Label) (eff : list Effect) :
  loop_step srv st l eff st' -> keys_consistent st -> keys_consistent st'.
Proof.
  intros Hstep Hinv k p Hk.
  assert (Hkeep : forall q cn, conns st !! rw q = Some cn ->
                    exists cn', conns st' !! rw q = Some cn' /\ id cn' = id cn).
  { intros q cn Hq.
    destruct (descriptor_changes_aux srv st st' l eff (rw q) cn Hstep Hq)
      as (cn' & ? & ? & _). by exists cn'. }
  pose proof (loop_step_peers _ _ _ _ _ Hstep)
    as [Hp | [(now & schedNow & c & cn & _ & Hcn & Hc & Hfree & Hp)
              | (q & k0 & _ & _ & _ & Hp)]]; rewrite Hp in Hk.
  - destruct (Hinv k p Hk) as (cn & Hcn & <-).
    destruct (Hkeep p cn Hcn) as (cn' & ? & ?). by exists cn'.
  - destruct (decide (id cn = k)) as [<- | Hne].
    + rewrite lookup_insert_eq in Hk. injection Hk as <-. simpl.
      exists cn. by rewrite Hc.
    + rewrite lookup_insert_ne in Hk by done.
      destruct (Hinv k p Hk) as (cn0 & Hcn0 & <-).
      destruct (Hkeep p cn0 Hcn0) as (cn' & ? & ?). by exists cn'.
  - apply lookup_delete_Some in Hk as [_ Hk].
    destruct (Hinv k p Hk) as (cn & Hcn & <-).
    destruct (Hkeep p cn Hcn) as (cn' & ? & ?). by exists cn'.
Qed.

Lemma keys_consistent_reachable (srv : Server) (d : dialState) (st : State) :
  reachable srv d st -> keys_consistent st.
Proof.
  induction 1 as [| st l eff st' _ IH Hs].
  - intros k p Hk. simpl in Hk. by rewrite lookup_empty in Hk.
  - by eapply keys_consistent_step.
Qed.

Lemma keys_consistent_inj (st : State) :
  keys_consistent st ->
  forall k1 k2 p, peers st !! k1 = Some p -> peers st !! k2 = Some p -> k1 = k2.
Proof.
  intros Hinv k1 k2 p H1 H2.
  destruct (Hinv k1 p H1) as (cn1 & Hc1 & <-).
  destruct (Hinv k2 p H2) as (cn2 & Hc2 & <-). congruence.
Qed.

(** X11.  In every reachable state each entry of the peer map sits under the
    identity of its own connection: [peers[k].ID() == k].  Hence [p.ID()]
    never fails for a peer of the map, and no peer is in the map under two
    identities. *)
Theorem peers_keyed_by_own_identity (srv : Server) (d : dialState) (st : State) :
  reachable srv d st ->
  (forall k p, peers st !! k = Some p ->
     exists cn, conns st !! rw p = Some cn /\ id cn = k) /\
  (forall k p, peers st !! k = Some p -> Peer_ID (conns st) p = Ret k) /\
  (forall k1 k2 p, peers st !! k1 = Some p -> peers st !! k2 = Some p -> k1 = k2).
Proof.
  intros Hr. pose proof (keys_consistent_reachable srv d st Hr) as Hinv.
  split; [exact Hinv |]. split; [| by apply keys_consistent_inj].
  intros k p Hk. destruct (Hinv k p Hk) as (cn & Hcn & <-).
  unfold Peer_ID. by rewrite Hcn.
Qed.

Lemma peers_keyed_by_own_identity_aux
    (srv : Server) (d : dialState) (st : State) :
  reachable srv d st ->
  forall k p, peers st !! k = Some p -> Peer_ID (conns st) p = Ret k.
Proof.
  intros Hr k p Hk.
  destruct (keys_consistent_reachable srv d st Hr k p Hk) as (cn & Hcn & <-).
  unfold Peer_ID. by rewrite Hcn.
Qed.

(** X12.  When a peer of the map signs off, the run loop removes exactly that
    peer's entry: in the running loop the [delpeer] event, and in the
    draining loop one turn, delete the key under which the peer sits and
    shrink the map by one; the draining loop ends with that turn exactly
    when it was the last peer. *)
Theorem delpeer_removes_own_entry
    (srv : Server) (d : dialState) (st : State) (k : NodeID) (p : Peer) (now : Z) :
  reachable srv d st -> peers st !! k = Some p ->
  (exists st',
     handle srv st now (EvDelPeer p) = Ret (st', [EPeersDelete k]) /\
     peers st' = delete k (peers st) /\ peers st' !! k = None /\
     S (size (peers st')) = size (peers st)) /\
  (exists st',
     drain st p = Ret (st', [EPeersDelete k]) /\
     peers st' = delete k (peers st) /\
     S (size (peers st')) = size (peers st) /\
     (phase st' = Exited <-> size (peers st) = 1%nat) /\
     (phase st' = Spindown <-> (1 < size (peers st))%nat)).
Proof.
  intros Hr Hk.
  pose proof (peers_keyed_by_own_identity_aux srv d st Hr k p Hk) as Hid.
  assert (Hsize : S (size (delete k (peers st))) = size (peers st)).
  { rewrite map_size_delete_Some by done.
    assert (size (peers st) <> 0%nat).
    { apply map_size_non_empty_iff. intros Hem. by rewrite Hem, lookup_empty in Hk. }
    lia. }
  split.
  - simpl. rewrite Hid. simpl. eexists. split; [done |]. simpl.
    split; [done |]. split; [apply lookup_delete_eq | done].
  - unfold drain. rewrite Hid. simpl. eexists. split; [done |]. simpl.
    split; [done |]. split; [done |]. unfold len_peers.
    case_bool_decide as Hpos; split; split; try done; try lia.
Qed.

(** *** Shutdown *)

Lemma handle_phase (srv : Server) (st st' : State) (now : Z) (ev : Event)
    (eff : list Effect) :
  handle srv st now ev = Ret (st', eff) ->
  (ev <> EvQuit /\ phase st' = phase st)
  \/ (ev = EvQuit /\ peers st' = peers st /\
      phase st' = if bool_decide (0 < len_peers (peers st)) then Spindown else Exited).
Proof.
  destruct ev as [| n | op | t | c | c | p]; simpl;
    try (intros [= <- <-]; by (left + right)).
  - destruct (conns st !! c) as [cn |]; [| done].
    destruct (encHandshakeChecks _ _ _) as [v |]; simpl; [| done].
    intros [= <- <-]. by left.
  - destruct (conns st !! c) as [cn |]; [| done].
    destruct (protoHandshakeChecks _ _ _) as [[e |] |]; simpl; [| | done];
      intros [= <- <-]; by left.
  - destruct (Peer_ID (conns st) p) as [k |]; simpl; [| done].
    intros [= <- <-]. by left.
Qed.

Lemma len_peers_pos (ps : gmap NodeID Peer) : 0 < len_peers ps <-> ps <> ∅.
Proof.
  unfold len_peers. rewrite <- map_size_non_empty_iff. lia.
Qed.

(** X13.  The run loop returns only with an empty peer map, and it waits in the
    draining loop only while the map is non-empty: in every reachable state,
    [Exited] implies that the map is empty and [Spindown] that it is not. *)
Theorem run_returns_with_empty_map (srv : Server) (d : dialState) (st : State) :
  reachable srv d st ->
  (phase st = Exited -> peers st = ∅) /\
  (phase st = Spindown -> peers st <> ∅).
Proof.
  induction 1 as [| st l eff st' _ IH Hs]; [done |].
  assert (Hdec : forall ps : gmap NodeID Peer,
             let ph := if bool_decide (0 < len_peers ps) then Spindown else Exited in
             (ph = Exited -> ps = ∅) /\ (ph = Spindown -> ps <> ∅)).
  { intros ps. simpl. case_bool_decide as Hpos.
    - split; [done |]. intros _. by apply len_peers_pos.
    - split; [| done]. intros _. destruct (decide (ps = ∅)) as [-> | Hne]; [done |].
      exfalso. apply Hpos. by apply len_peers_pos. }
  destruct Hs as [st0 now schedNow ev st1 eff0 Hph Hit | st0 p st1 eff0 Hph Hd
                  | st0 r c Hfresh | st0 r c cs n Hr]; try done.
  - apply iteration_maps in Hit
      as (st2 & sched & eff' & _ & _ & Hp & Hph2 & Hh & _ & _).
    apply handle_phase in Hh as [(_ & Hsame) | (_ & Hp' & Hph')].
    + rewrite Hsame, Hph2, Hph. done.
    + rewrite Hph', Hp', Hp. apply Hdec.
  - apply drain_inv in Hd as (k & _ & _ & Hp & _ & Hph').
    rewrite Hph', Hp. apply Hdec.
Qed.

Lemma NoDup_values (m : gmap NodeID Peer) :
  (forall k1 k2 p, m !! k1 = Some p -> m !! k2 = Some p -> k1 = k2) ->
  NoDup (map_to_list m).*2.
Proof.
  intros Hinj. apply NoDup_fmap_2_strong; [| apply NoDup_map_to_list].
  intros [k1 p1] [k2 p2] H1 H2 Heq. simpl in Heq. subst p2.
  apply elem_of_map_to_list in H1, H2. f_equal. by eapply Hinj.
Qed.

Lemma values_elem (m : gmap NodeID Peer) (p : Peer) :
  p ∈ (map_to_list m).*2 <-> exists k, m !! k = Some p.
Proof.
  rewrite list_elem_of_fmap. split.
  - intros ([k q] & -> & Hin). apply elem_of_map_to_list in Hin. by exists k.
  - intros (k & Hk). exists (k, p). split; [done |]. by apply elem_of_map_to_list.
Qed.

(** X14.  On [quit] the run loop tells every peer of the map to disconnect with
    [DiscQuitting], each exactly once and nobody else, then closes the
    discovery table if there is one; the peer map itself is left for the
    draining loop. *)
Theorem quit_disconnects_every_peer
    (srv : Server) (d : dialState) (st st' : State) (now : Z) (eff : list Effect) :
  reachable srv d st ->
  handle srv st now EvQuit = Ret (st', eff) ->
  exists ps,
    eff = ((fun p => EDisconnect p DiscQuitting) <$> ps)
          ++ (match ntab srv with Some _ => [ENtabClose] | None => [] end) /\
    NoDup ps /\
    (forall p, p ∈ ps <-> exists k, peers st !! k = Some p) /\
    peers st' = peers st /\ conns st' = conns st.
Proof.
  intros Hr. simpl. intros [= <- <-].
  exists (map_to_list (peers st)).*2. split; [done |]. split; [| split; [| done]].
  - apply NoDup_values, keys_consistent_inj. by eapply keys_consistent_reachable.
  - apply values_elem.
Qed.

(** *** Verdicts *)

Lemma enc_verdict_range (srv : Server) (ps : gmap NodeID Peer) (c : conn)
    (v : option error) :
  encHandshakeChecks srv ps c = Ret v -> In v enc_verdicts.
Proof.
  unfold encHandshakeChecks, enc_verdicts. destruct (negb _ && _).
  { intros [= <-]. simpl. tauto. }
  case_bool_decide.
  { intros [= <-]. simpl. tauto. }
  destruct (Self srv) as [self |]; simpl; [| done].
  case_bool_decide; intros [= <-]; simpl; tauto.
Qed.

Lemma proto_verdict_range (srv : Server) (ps : gmap NodeID Peer) (c : conn)
    (v : option error) :
  protoHandshakeChecks srv ps c = Ret v -> In v proto_verdicts.
Proof.
  unfold protoHandshakeChecks, proto_verdicts. destruct (_ && _).
  - intros [= <-]. by left.
  - intros Hv. right. by eapply enc_verdict_range.
Qed.

(** X15.  The run loop sends on a reply channel only in the [posthandshake]
    and [addpeer] events and only to the connection being checked.  The
    verdict is nil or one of [DiscTooManyPeers], [DiscAlreadyConnected],
    [DiscSelf], and at [addpeer] possibly [DiscUselessPeer]; it is never
    [errServerStopped], [DiscUnexpectedIdentity] or any other error. *)
Theorem verdicts_of_the_run_loop
    (srv : Server) (st st' : State) (l : Label) (eff : list Effect)
    (c : connRef) (v : option error) :
  loop_step srv st l eff st' ->
  In (ESendCont c v) eff ->
  (exists now schedNow, l = LIteration now schedNow (EvPosthandshake c) /\
                        In v enc_verdicts)
  \/ (exists now schedNow, l = LIteration now schedNow (EvAddPeer c) /\
                           In v proto_verdicts).
Proof.
  intros [st0 now schedNow ev st1 eff0 _ Hit | st0 p st1 eff0 _ Hd
          | st0 r c0 Hfresh | st0 r c0 cs n Hr] Hin; try done.
  - apply iteration_maps in Hit
      as (st2 & sched & eff' & _ & Hc & Hp & _ & Hh & -> & Hnosend).
    apply in_app_or in Hin as [Hin | Hin]; [by apply Hnosend in Hin |].
    apply handle_maps in Hh
      as [(_ & _ & Hsend) | [(c1 & cn & v1 & -> & _ & _ & _ & Hv & ->)
                             | [(c1 & cn & -> & _ & _ & Hv & _ & ->)
                                | (p & k & _ & _ & _ & _ & ->)]]].
    + destruct (Hsend c v Hin) as (-> & cn & e & _ & _ & Hv).
      right. exists now, schedNow. split; [done |]. by eapply proto_verdict_range.
    + destruct Hin as [[= <- <-] | []].
      left. exists now, schedNow. split; [done |]. by eapply enc_verdict_range.
    + simpl in Hin. destruct Hin as [? | [? | [? | [[= <- <-] | []]]]]; try done.
      right. exists now, schedNow. split; [done |]. by eapply proto_verdict_range.
    + by destruct Hin as [? | []].
  - apply drain_inv in Hd as (k & _ & _ & _ & -> & _). by destruct Hin as [? | []].
Qed.

(** *** Queries *)

(** X16.  [Peers] and [PeerCount] agree: served by the run loop in a reachable
    state, [Peers] lists the peers of the map, each once, and [PeerCount]
    is the length of that list; the [peerOp] event that serves them leaves
    the state of the run loop as scheduling left it.  Served by the closed
    [quit] channel they answer nil and zero. *)
Theorem Peers_and_PeerCount_agree (srv : Server) (d : dialState) (st : State) :
  reachable srv d st ->
  let sel := ServedByRunLoop (peers st) in
  NoDup (Peers sel) /\
  (forall p, p ∈ Peers sel <-> exists k, peers st !! k = Some p) /\
  PeerCount sel = Z.of_nat (length (Peers sel)) /\
  run_peerOp OpPeers (peers st) = PeersResult (Peers sel) /\
  run_peerOp OpPeerCount (peers st) = PeerCountResult (PeerCount sel) /\
  (forall op now, handle srv st now (EvPeerOp op)
                  = Ret (st, [ESendPeerOpDone (run_peerOp op (peers st))])) /\
  Peers ServedByQuit = [] /\ PeerCount ServedByQuit = 0.
Proof.
  intros Hr sel. subst sel. simpl. repeat split; try done.
  - apply NoDup_values, keys_consistent_inj. by eapply keys_consistent_reachable.
  - by apply values_elem.
  - by apply values_elem.
  - unfold len_peers. by rewrite length_fmap, length_map_to_list.
Qed.

(** ** The setup driver, as a whole *)

Lemma dial_mismatch_dec (dialDest : option discover.Node) (k : NodeID) :
  match dialDest with
  | Some d => bool_decide (k <> discover.ID d)
  | None => false
  end = true <-> dial_mismatch dialDest k.
Proof.
  unfold dial_mismatch. destruct dialDest as [d |].
  - rewrite bool_decide_eq_true.
    split; [intros ?; by exists d | by intros (? & [= <-] & ?)].
  - split; [done | by intros (? & ? & ?)].
Qed.

Ltac split_last :=
  match goal with
  | |- exists pre e, ?l = pre ++ [EConnClose ?r e] /\ _ =>
      let pre := eval cbn in (removelast l) in
      exists pre; eexists; split; [reflexivity |];
      let e' := fresh in let Hin := fresh in
      intros e' Hin; cbn in Hin;
      repeat (destruct Hin as [Hin | Hin]; [discriminate Hin |]); exact Hin
  end.

(** X17.  The setup driver never leaks a connection: without a transport factory
    it panics before anything else; otherwise it returns, and either both
    handshakes and both checkpoints succeeded, in which case it has sent the
    connection to [posthandshake], then to [addpeer], and has not closed it,
    or it has closed the connection exactly once, as its last act.  (The
    watchdog it starts closes the connection on its own, on timeout or
    [quit]; that is the watchdog's effect, not the driver's.)  The statement
    is about the driver's effects only: the descriptor is shared with the
    run loop, which may set [trustedConn] in its flags at [posthandshake]. *)
Theorem setupConn_closes_or_admits
    (srv : Server) (r : connRef) (fd : net.Conn) (fl : connFlag)
    (dialDest : option discover.Node) (cp1 cp2 : CheckpointOutcome) :
  match newTransport srv with
  | None => setupConn srv r fd fl dialDest cp1 cp2 = nil_deref
  | Some mk =>
      exists c eff,
        setupConn srv r fd fl dialDest cp1 cp2 = Ret (c, eff) /\
        ((setup_succeeds srv (mk fd) dialDest cp1 cp2 /\
          eff = [EGo (WWatchdog r); ECheckpoint StagePosthandshake r;
                 ECheckpoint StageAddpeer r])
         \/
         (~ setup_succeeds srv (mk fd) dialDest cp1 cp2 /\
          exists pre e,
            eff = pre ++ [EConnClose r e] /\
            forall e', ~ In (EConnClose r e') pre))
  end.
Proof.
  unfold setupConn. destruct (newTransport srv) as [mk |]; [| done].
  unfold setup_succeeds.
  destruct (running srv) eqn:Hrun; cbn [negb].
  2: { eexists _, _. split; [done |]. right.
       split; [by intros [? _] |]. exists [], errServerStopped. split; [done |]. by intros ? []. }
  destruct (doEncHandshake (mk fd) (PrivateKey srv) dialDest) as [k [e |]] eqn:Henc.
  { eexists _, _. split; [done |]. right. split.
    - by intros (_ & ? & ? & [= _ ?] & _).
    - cbn. split_last. }
  cbn [id set_id].
  pose proof (dial_mismatch_dec dialDest k) as Hmis.
  destruct (match dialDest with Some _ => _ | None => _ end) eqn:Hm.
  { eexists _, _. split; [done |]. right. split.
    - intros (_ & k' & ? & [= <-] & Hnd & _). apply Hnd. by apply Hmis.
    - cbn. split_last. }
  assert (Hnd : ~ dial_mismatch dialDest k) by (rewrite <- Hmis; congruence).
  destruct cp1 as [| | [e1 |]]; cbn;
    try (eexists _, _; split; [done |]; right; split;
         [by intros (_ & ? & ? & _ & _ & [= ] & _) | split_last]).
  destruct (doProtoHandshake (mk fd) (ourHandshake srv)) as [phs | e] eqn:Hproto.
  2: { eexists _, _. split; [done |]. right. split.
       - by intros (_ & ? & ? & _ & _ & _ & [= ] & _).
       - split_last. }
  case_bool_decide as Hid.
  { eexists _, _. split; [done |]. right. split.
    - intros (_ & k' & phs' & [= <-] & _ & _ & [= <-] & Hid' & _). done.
    - split_last. }
  destruct cp2 as [| | [e2 |]]; cbn;
    try (eexists _, _; split; [done |]; right; split;
         [by intros (_ & ? & ? & _ & _ & _ & _ & _ & [= ]) | split_last]).
  eexists _, _. split; [done |]. left. split; [| done].
  split; [done |]. exists k, phs. repeat split; try done.
Qed.

(** X18.  A connection reaches the [addpeer] checkpoint only with a verified
    identity: the encryption handshake succeeded, the identity it learned is
    the dialed one if any and the one advertised in the protocol handshake,
    and the first checkpoint answered nil.  The driver has then written that
    identity and the advertised capabilities and name to the descriptor,
    and the two checkpoints were visited in order, once each.  Nothing is
    said of the flags: the descriptor is shared with the run loop, which may
    have set [trustedConn] in them at [posthandshake]. *)
Theorem addpeer_checkpoint_needs_verified_identity
    (srv : Server) (mk : net.Conn -> transport) (r : connRef) (fd : net.Conn)
    (fl : connFlag) (dialDest : option discover.Node) (cp1 cp2 : CheckpointOutcome)
    (c : conn) (eff : list Effect) :
  newTransport srv = Some mk ->
  setupConn srv r fd fl dialDest cp1 cp2 = Ret (c, eff) ->
  In (ECheckpoint StageAddpeer r) eff ->
  exists k phs post,
    running srv = true /\
    doEncHandshake (mk fd) (PrivateKey srv) dialDest = (k, None) /\
    ~ dial_mismatch dialDest k /\
    cp1 = CpReply None /\
    doProtoHandshake (mk fd) (ourHandshake srv) = inl phs /\
    protoHandshake.ID phs = k /\
    id c = k /\
    caps c = protoHandshake.Caps phs /\
    name c = protoHandshake.Name phs /\
    eff = [EGo (WWatchdog r); ECheckpoint StagePosthandshake r;
           ECheckpoint StageAddpeer r] ++ post /\
    (forall s, ~ In (ECheckpoint s r) post).
Proof.
  intros Hmk. unfold setupConn. rewrite Hmk.
  destruct (running srv) eqn:Hrun; cbn [negb].
  2: { intros [= <- <-] [? | []]. done. }
  destruct (doEncHandshake (mk fd) (PrivateKey srv) dialDest) as [k [e |]] eqn:Henc.
  { intros [= <- <-]. cbn. intros [? | [? | []]]; done. }
  cbn [id set_id].
  pose proof (dial_mismatch_dec dialDest k) as Hmis.
  destruct (match dialDest with Some _ => _ | None => _ end) eqn:Hm.
  { intros [= <- <-]. cbn. intros [? | [? | []]]; done. }
  assert (Hnd : ~ dial_mismatch dialDest k) by (rewrite <- Hmis; congruence).
  destruct cp1 as [| | [e1 |]]; cbn;
    try (intros [= <- <-]; cbn; intros Hin;
         repeat (destruct Hin as [Hin | Hin]; [discriminate Hin |]); done).
  destruct (doProtoHandshake (mk fd) (ourHandshake srv)) as [phs | e] eqn:Hproto.
  2: { intros [= <- <-]. cbn. intros Hin.
       repeat (destruct Hin as [Hin | Hin]; [discriminate Hin |]). done. }
  case_bool_decide as Hid.
  { intros [= <- <-]. cbn. intros Hin.
    repeat (destruct Hin as [Hin | Hin]; [discriminate Hin |]). done. }
  assert (Hid' : protoHandshake.ID phs = k).
  { destruct (decide (protoHandshake.ID phs = k)); [done | contradiction]. }
  destruct cp2 as [| | [e2 |]]; cbn; intros [= <- <-]; cbn; intros Hin.
  - repeat (destruct Hin as [Hin | Hin]; [discriminate Hin |]). done.
  - exists k, phs, [EConnClose r errServerStopped]. repeat split; try done.
    intros s [? | []]. done.
  - exists k, phs, [EConnClose r e2]. repeat split; try done.
    intros s [? | []]. done.
  - exists k, phs, []. repeat split; try done. intros s [].
Qed.

(** ** The accept loop *)

Lemma fill_slots_full (n : nat) (ch : bchan) :
  held ch + Z.of_nat n <= capacity ch ->
  fill_slots n ch = Some {| capacity := capacity ch; held := held ch + Z.of_nat n |}.
Proof.
  revert ch. induction n as [| n IH]; intros [cap h] Hle; simpl in *.
  - by rewrite Z.add_0_r.
  - unfold bsend. simpl. destruct (Z.ltb_spec h cap) as [Hlt | Hge]; [| lia].
    rewrite IH by (simpl; lia). simpl. do 2 f_equal. lia.
Qed.

Lemma listen_tokens_pos (srv : Server) : 0 < listen_tokens srv.
Proof.
  unfold listen_tokens, maxAcceptConns.
  destruct (Z.ltb_spec 0 (MaxPendingPeers srv)); lia.
Qed.

Lemma listen_start_full (srv : Server) :
  listen_start srv
  = Some {| slots := {| capacity := listen_tokens srv; held := listen_tokens srv |};
            drivers := 0; accepting := true |}.
Proof.
  unfold listen_start. pose proof (listen_tokens_pos srv).
  rewrite fill_slots_full by (simpl; lia). simpl. do 3 f_equal. lia.
Qed.

Lemma listen_step_balanced (tokens : Z) (st st' : ListenState) (l : ListenLabel) :
  listen_balanced tokens st -> listen_step st l = Some st' -> listen_balanced tokens st'.
Proof.
  unfold listen_balanced. destruct st as [[cap h] n acc]. simpl.
  intros (-> & Hsum & Hpos).
  destruct l as [fd | |]; simpl; unfold brecv, bsend; simpl.
  - destruct acc; [| done]. destruct (Z.ltb_spec 0 h); [| done].
    intros [= <-]. simpl. lia.
  - destruct acc; [| done]. destruct (Z.ltb_spec 0 h); [| done].
    intros [= <-]. simpl. lia.
  - destruct n as [| n]; [done |]. destruct (Z.ltb_spec h tokens); [| done].
    intros [= <-]. simpl. destruct acc; lia.
Qed.

Lemma listen_run_balanced (tokens : Z) (ls : list ListenLabel) :
  forall st st', listen_balanced tokens st -> listen_run st ls = Some st' ->
                 listen_balanced tokens st'.
Proof.
  induction ls as [| l ls IH]; intros st st' Hb; simpl.
  - by intros [= <-].
  - destruct (listen_step st l) as [st1 |] eqn:Hs; [| done].
    apply IH. by eapply listen_step_balanced.
Qed.

(** X19.  The accept loop keeps at most [tokens] setup drivers in flight, where
    [tokens] is [MaxPendingPeers] if that is positive and [maxAcceptConns]
    otherwise.  After any run of accepts, accept failures and returning
    drivers, the slots held plus the drivers in flight (plus the one slot
    taken by a failed accept) make up [tokens]; so a returning driver never
    blocks when it gives its slot back, and the loop can accept exactly when
    fewer than [tokens] drivers are in flight. *)
Theorem listenLoop_bounds_pending
    (srv : Server) (ls : list ListenLabel) (st0 st : ListenState) :
  listen_start srv = Some st0 ->
  listen_run st0 ls = Some st ->
  let tokens := listen_tokens srv in
  0 < tokens /\
  tokens = (if 0 <? MaxPendingPeers srv then MaxPendingPeers srv else 50) /\
  Z.of_nat (drivers st) <= tokens /\
  held (slots st)
  = tokens - Z.of_nat (drivers st) - (if accepting st then 0 else 1) /\
  (drivers st <> 0%nat -> is_Some (listen_step st LDriverDone)) /\
  (accepting st = true ->
   forall fd, is_Some (listen_step st (LAccept fd)) <-> Z.of_nat (drivers st) < tokens).
Proof.
  intros Hstart Hrun tokens. rewrite listen_start_full in Hstart.
  injection Hstart as <-.
  assert (Hb : listen_balanced tokens st).
  { eapply listen_run_balanced; [| exact Hrun]. unfold listen_balanced. simpl.
    pose proof (listen_tokens_pos srv). subst tokens. lia. }
  destruct Hb as (Hcap & Hsum & Hpos).
  split; [apply listen_tokens_pos |]. split; [done |].
  split; [destruct (accepting st); lia |]. split; [lia |]. split.
  - intros Hn. simpl. destruct (drivers st) as [| n] eqn:Hd; [done |].
    unfold bsend. destruct (Z.ltb_spec (held (slots st)) (capacity (slots st)));
      [by eexists | destruct (accepting st); lia].
  - intros Hacc fd. simpl. rewrite Hacc in *. unfold brecv.
    destruct (Z.ltb_spec 0 (held (slots st))); split; intros Hs;
      try (by eexists); try lia. by destruct Hs.
Qed.

(** ** Flag names *)

Lemma flag_test (f : Z) (k : Z) :
  0 <= k -> negb (Z.land f (Z.shiftl 1 k) =? 0) = Z.testbit f k.
Proof.
  intros Hk. rewrite Z.shiftl_1_l.
  destruct (Z.eqb_spec (Z.land f (2 ^ k)) 0) as [Hz | Hnz]; simpl.
  - assert (Hb : Z.testbit (Z.land f (2 ^ k)) k = false) by (rewrite Hz; apply Z.bits_0).
    rewrite Z.land_spec, Z.pow2_bits_true, andb_true_r in Hb by done. done.
  - destruct (Z.testbit f k) eqn:Hb; [done |]. exfalso. apply Hnz.
    apply Z.bits_inj'. intros n Hn. rewrite Z.land_spec, Z.bits_0.
    destruct (decide (n = k)) as [-> | Hne].
    + by rewrite Hb.
    + rewrite Z.pow2_bits_false by done. apply andb_false_r.
Qed.

Lemma connFlag_String_bits (f : connFlag) :
  connFlag_String f
  = drop_first
      ((if Z.testbit f 3 then " trusted" else EmptyString)
       ++ (if Z.testbit f 0 then " dyn dial" else EmptyString)
       ++ (if Z.testbit f 1 then " static dial" else EmptyString)
       ++ (if Z.testbit f 2 then " inbound" else EmptyString))%string.
Proof.
  unfold connFlag_String, trustedConn, dynDialedConn, staticDialedConn, inboundConn.
  rewrite !flag_test by lia.
  by destruct (Z.testbit f 3), (Z.testbit f 0), (Z.testbit f 1), (Z.testbit f 2).
Qed.

Lemma land_15_bits (f g : Z) :
  Z.land f 15 = Z.land g 15
  <-> Z.testbit f 0 = Z.testbit g 0 /\ Z.testbit f 1 = Z.testbit g 1 /\
      Z.testbit f 2 = Z.testbit g 2 /\ Z.testbit f 3 = Z.testbit g 3.
Proof.
  change 15 with (Z.ones 4). split.
  - intros Heq.
    assert (Hb : forall n, 0 <= n < 4 -> Z.testbit f n = Z.testbit g n).
    { intros n Hn. apply (f_equal (fun z => Z.testbit z n)) in Heq.
      rewrite !Z.land_spec, Z.ones_spec_low, !andb_true_r in Heq by lia. done. }
    repeat split; apply Hb; lia.
  - intros (H0 & H1 & H2 & H3). apply Z.bits_inj'. intros n Hn.
    rewrite !Z.land_spec. destruct (Z.lt_ge_cases n 4) as [Hlt | Hge].
    + rewrite Z.ones_spec_low, !andb_true_r by lia.
      assert (n = 0 \/ n = 1 \/ n = 2 \/ n = 3) as [-> | [-> | [-> | ->]]] by lia; done.
    + rewrite Z.ones_spec_high by lia. by rewrite !andb_false_r.
Qed.

(** X20.  The name of a flag set tells the four flags apart and nothing else:
    two flag values have the same name exactly when they agree on the four
    flag bits.  The name is empty exactly when none of the four is set, and
    it never starts with a space. *)
Theorem connFlag_String_names_the_flags (f g : connFlag) :
  (connFlag_String f = connFlag_String g <-> Z.land f 15 = Z.land g 15) /\
  (connFlag_String f = EmptyString <-> Z.land f 15 = 0) /\
  (forall s, connFlag_String f <> String (Ascii.ascii_of_nat 32) s).
Proof.
  assert (Hinj : forall f g, connFlag_String f = connFlag_String g
                             <-> Z.land f 15 = Z.land g 15).
  { intros f' g'. rewrite land_15_bits, !connFlag_String_bits.
    destruct (Z.testbit f' 3), (Z.testbit f' 0), (Z.testbit f' 1), (Z.testbit f' 2),
      (Z.testbit g' 3), (Z.testbit g' 0), (Z.testbit g' 1), (Z.testbit g' 2);
      cbn; split; intros Heq; try done; try discriminate Heq;
      destruct Heq as (? & ? & ? & ?); discriminate. }
  split; [apply Hinj |]. split.
  - change EmptyString with (connFlag_String 0). rewrite Hinj. by rewrite Z.land_0_l.
  - intros s. rewrite connFlag_String_bits.
    destruct (Z.testbit f 3), (Z.testbit f 0), (Z.testbit f 1), (Z.testbit f 2);
      discriminate.
Qed.

(** ** The trusted map *)

(** X21.  The map that [run] builds from [TrustedNodes] holds [true] under
    exactly the identities of the listed nodes, and never [false]. *)
Theorem trusted_map_holds_TrustedNodes (srv : Server) (k : NodeID) :
  (trusted srv !! k = Some true <-> in_trusted_set srv k) /\
  trusted srv !! k <> Some false.
Proof.
  assert (Hnofalse : forall (l : list discover.Node) (m : gmap NodeID bool),
             m !! k <> Some false ->
             foldl (fun m n => <[discover.ID n := true]> m) m l !! k <> Some false).
  { induction l as [| x l IH]; intros m Hm; simpl; [done |].
    apply IH. destruct (decide (discover.ID x = k)) as [-> | Hne].
    - by rewrite lookup_insert_eq.
    - by rewrite lookup_insert_ne. }
  assert (Hnf : trusted srv !! k <> Some false).
  { apply Hnofalse. by rewrite lookup_empty. }
  split; [| done]. rewrite <- trusted_at_spec. unfold trusted_at.
  destruct (trusted srv !! k) as [[|] |]; simpl; split; try done.
Qed.

(** ** Running the model *)

Lemma exec_step_out (srv : Server) (st : State) (l : Label) (r : State * list Effect) :
  exec srv st l = Some r -> loop_step srv st l r.2 r.1.
Proof. destruct r as [st' eff]. apply exec_sound. Qed.

Lemma exec_all_reachable (srv : Server) (d : dialState) (ls : list Label)
    (r : State * list Effect) :
  exec_all srv (initial d) ls = Some r -> reachable srv d r.1.
Proof.
  destruct r as [st eff]. intros He.
  eapply reachable_steps; [by eapply exec_all_steps | constructor].
Qed.

End Extras.

(** * The theorems at concrete inputs *)

Lemma C3_encHandshakeChecks_order_witness :
  Self (H := Demo.ext) Demo.srv = Ret Demo.selfnode
  /\ exists v,
       encHandshakeChecks (H := Demo.ext) Demo.srv ∅ (Demo.mkconn inboundConn 5%N []) = Ret v
       /\ enc_verdict (MaxPeers Demo.srv) (discover.ID Demo.selfnode)
            ∅ (Demo.mkconn inboundConn 5%N []) v.
Proof.
  assert (Hself : Self (H := Demo.ext) Demo.srv = Ret Demo.selfnode).
  { vm_compute. reflexivity. }
  split; [exact Hself |].
  exact (C3_encHandshakeChecks_order (H := Demo.ext) Demo.srv ∅
           (Demo.mkconn inboundConn 5%N []) Demo.selfnode Hself).
Defined.

Lemma C4_protoHandshakeChecks_witness :
  (Protocols Demo.srv <> [] /\ ~ shares_cap (Protocols Demo.srv) [{| Cap.Name := "xyz"; Cap.Version := 1 |}])
  /\ protoHandshakeChecks (H := Demo.ext) Demo.srv ∅
       (Demo.mkconn inboundConn 5%N [{| Cap.Name := "xyz"; Cap.Version := 1 |}])
     = Ret (Some (ErrDisc DiscUselessPeer)).
Proof.
  assert (Hhyp : Protocols Demo.srv <> []
                 /\ ~ shares_cap (Protocols Demo.srv) [{| Cap.Name := "xyz"; Cap.Version := 1 |}]).
  { split; [discriminate |].
    intros (proto & cap & Hp & Hc & Hn & _).
    simpl in Hp, Hc. destruct Hp as [<- | []]. destruct Hc as [<- | []]. discriminate. }
  split; [exact Hhyp |].
  exact (proj1 (C4_protoHandshakeChecks (H := Demo.ext) Demo.srv ∅
                  (Demo.mkconn inboundConn 5%N [{| Cap.Name := "xyz"; Cap.Version := 1 |}]))
               Hhyp).
Defined.

Lemma C2_MaxPeers_invariant_witness :
  0 <= MaxPeers Demo.srv
  /\ within_MaxPeers Demo.srv (Demo.state_after (Demo.admit5 ++ Demo.admit9)).
Proof.
  split; [vm_compute; discriminate |].
  apply (proj2 (C2_MaxPeers_invariant (H := Demo.ext) Demo.srv Demo.d0));
    [vm_compute; discriminate |].
  apply (reachable_steps (H := Demo.ext) Demo.srv Demo.d0 (initial Demo.d0));
    [| constructor].
  apply (exec_all_steps (H := Demo.ext) Demo.srv (Demo.admit5 ++ Demo.admit9)
           (initial Demo.d0) _
           [ESendCont 1 None; EPeersStore 5 {| rw := 1 |}; EWGAdd 1;
            EGo (WRunPeer {| rw := 1 |}); ESendCont 1 None; ESendCont 2 None;
            EPeersStore 9 {| rw := 2 |}; EWGAdd 1; EGo (WRunPeer {| rw := 2 |});
            ESendCont 2 None]).
  vm_compute. reflexivity.
Defined.




(** C1.  [Stop] is specified, and documented in the source, to block until
    every registered worker has exited.  It does not: on the server started
    with a listener two workers are registered with the wait group (the
    listen loop and the run loop); [Stop] closes the listener and the [quit]
    channel and returns, its effects contain no [loopWG.Wait()], and the
    counter still reads two on return. *)
Theorem C1_Stop_leaves_workers_registered :
  Start (H := Demo.ext) Demo.srv0
  = (Demo.srv, None, [EWGAdd 1; EGo WListenLoop; EWGAdd 1; EGo (WRun Demo.d0)])
  /\ exists srv2,
       Stop Demo.srv = Ret (srv2, [EListenerClose; ECloseQuit])
       /\ ~ In EWGWait [EListenerClose; ECloseQuit]
       /\ loopWG Demo.srv = 2 /\ loopWG srv2 = 2.
Proof.
  split; [vm_compute; reflexivity |].
  eexists. split; [vm_compute; reflexivity |].
  split; [| split; vm_compute; reflexivity].
  intros [? | [? | []]]; discriminate.
Qed.

Lemma C5_addpeer_verdict_last_witness :
  iteration (H := Demo.ext) Demo.srv Demo.before_addpeer 102 103 (EvAddPeer 1%nat)
  = Ret (Demo.state_after Demo.admit5,
         [EPeersStore 5 {| rw := 1 |}; EWGAdd 1; EGo (WRunPeer {| rw := 1 |});
          ESendCont 1 None])
  /\ exists cn v pre,
       conns Demo.before_addpeer !! 1%nat = Some cn /\
       [EPeersStore 5 {| rw := 1 |}; EWGAdd 1; EGo (WRunPeer {| rw := 1 |});
        ESendCont 1 None] = pre ++ [ESendCont 1 v] /\
       (forall c' v', ~ In (ESendCont c' v') pre) /\
       (v = None ->
        exists sched,
          pre = sched ++ [EPeersStore (id cn) (newPeer 1 (Protocols Demo.srv)); EWGAdd 1;
                          EGo (WRunPeer (newPeer 1 (Protocols Demo.srv)))] /\
          peers (Demo.state_after Demo.admit5) !! id cn
          = Some (newPeer 1 (Protocols Demo.srv))) /\
       (v <> None ->
        peers (Demo.state_after Demo.admit5) = peers Demo.before_addpeer /\
        forall k p, ~ In (EPeersStore k p) pre).
Proof.
  assert (Hit : iteration (H := Demo.ext) Demo.srv Demo.before_addpeer 102 103
                  (EvAddPeer 1%nat)
                = Ret (Demo.state_after Demo.admit5,
                       [EPeersStore 5 {| rw := 1 |}; EWGAdd 1;
                        EGo (WRunPeer {| rw := 1 |}); ESendCont 1 None])).
  { vm_compute. reflexivity. }
  split; [exact Hit |].
  exact (C5_addpeer_verdict_last (H := Demo.ext) Demo.srv Demo.before_addpeer _
           102 103 1%nat _ Hit).
Defined.

Lemma C6_trusted_flag_before_MaxPeers_witness :
  MaxPeers Demo.srv = 1
  /\ peers Demo.before_trusted = {[5%N := {| rw := 1%nat |}]}
  /\ in_trusted_set Demo.srv 9%N
  /\ exists st1 st2 st3 sched1 sched3,
       loop_step (H := Demo.ext) Demo.srv Demo.before_trusted (LIteration 104 105 (EvPosthandshake 2%nat))
         (sched1 ++ [ESendCont 2 None]) st1 /\
       loop_step (H := Demo.ext) Demo.srv st1
         (LProtoHandshake 2 [Protocol.cap Demo.eth65] "remote") [] st2 /\
       loop_step (H := Demo.ext) Demo.srv st2 (LIteration 106 107 (EvAddPeer 2%nat))
         (sched3 ++ [EPeersStore 9 (newPeer 2 (Protocols Demo.srv)); EWGAdd 1;
                     EGo (WRunPeer (newPeer 2 (Protocols Demo.srv))); ESendCont 2 None])
         st3 /\
       size (peers st3) = 2%nat.
Proof.
  assert (Htrusted : in_trusted_set Demo.srv 9%N).
  { exists (Demo.node 9%N). split; [vm_compute; left |]; reflexivity. }
  assert (Hpeers : peers Demo.before_trusted = {[5%N := {| rw := 1%nat |}]}).
  { vm_compute. reflexivity. }
  split; [vm_compute; reflexivity |]. split; [exact Hpeers |]. split; [exact Htrusted |].
  apply (proj2 (proj2 (C6_trusted_flag_before_MaxPeers (H := Demo.ext) Demo.srv))
           Demo.before_trusted 2%nat (Demo.mkconn inboundConn 9%N []) 5%N {| rw := 1%nat |}
           Demo.selfnode 104 105 106 107 [Protocol.cap Demo.eth65] "remote"%string).
  - vm_compute. reflexivity.
  - vm_compute. reflexivity.
  - exact Hpeers.
  - vm_compute. reflexivity.
  - vm_compute. reflexivity.
  - vm_compute. reflexivity.
  - exact Htrusted.
  - discriminate.
  - vm_compute. reflexivity.
  - vm_compute. discriminate.
  - right. exists Demo.eth65, (Protocol.cap Demo.eth65). simpl. tauto.
Defined.

(** The remote side ends the protocol handshake with the reason
    [DiscUnexpectedIdentity]; the handshake returns that reason as its error
    and the setup driver closes with it, although the connection was not
    dialed and no identity was advertised that could differ. *)
Lemma C8_counterexample :
  setupConn Demo.refusing 7%nat 0%nat inboundConn None (CpReply None) (CpReply None)
  = Ret ({| flags := 4; id := 5%N; caps := []; name := EmptyString |},
         [EGo (WWatchdog 7); ECheckpoint StagePosthandshake 7;
          EConnClose 7 (ErrDisc DiscUnexpectedIdentity)])
  /\ ~ dial_mismatch None 5%N
  /\ ~ (exists phs,
          doProtoHandshake (Demo.refused 5%N DiscUnexpectedIdentity) (ourHandshake Demo.refusing)
          = inl phs /\ protoHandshake.ID phs <> 5%N).
Proof.
  split; [vm_compute; reflexivity |]. split.
  - intros (d & Hd & _). discriminate.
  - intros (phs & Hphs & _). discriminate.
Qed.

Lemma C8_setupConn_unexpected_identity_witness :
  newTransport Demo.srv = Some (fun _ => Demo.remote 5%N [Protocol.cap Demo.eth65])
  /\ running Demo.srv = true
  /\ dial_mismatch (Some (Demo.node 6%N)) 5%N
  /\ exists c,
       setupConn Demo.srv 7%nat 0%nat staticDialedConn (Some (Demo.node 6%N))
         (CpReply None) (CpReply None)
       = Ret (c, [EGo (WWatchdog 7); EConnClose 7 (ErrDisc DiscUnexpectedIdentity)]).
Proof.
  assert (Hmis : dial_mismatch (Some (Demo.node 6%N)) 5%N).
  { exists (Demo.node 6%N). split; [reflexivity | discriminate]. }
  assert (Hmk : newTransport Demo.srv
                = Some (fun _ => Demo.remote 5%N [Protocol.cap Demo.eth65])).
  { vm_compute. reflexivity. }
  assert (Hrun : running Demo.srv = true) by (vm_compute; reflexivity).
  split; [exact Hmk |]. split; [exact Hrun |]. split; [exact Hmis |].
  apply (proj1 (C8_setupConn_unexpected_identity Demo.srv
                  (fun _ => Demo.remote 5%N [Protocol.cap Demo.eth65])
                  7%nat 0%nat staticDialedConn (Some (Demo.node 6%N))
                  (CpReply None) (CpReply None) Hmk)
           5%N Hrun eq_refl Hmis).
Defined.

Lemma C9_Stop_idempotent_witness :
  Start (H := Demo.ext) Demo.srv0
  = (Demo.srv, None, [EWGAdd 1; EGo WListenLoop; EWGAdd 1; EGo (WRun Demo.d0)])
  /\ exists srv2 eff2,
       Stop Demo.srv = Ret (srv2, eff2) /\
       In ECloseQuit eff2 /\
       running srv2 = false /\
       Stop srv2 = Ret (srv2, []).
Proof.
  split; [vm_compute; reflexivity |].
  apply (C9_Stop_idempotent (H := Demo.ext) Demo.srv0 Demo.srv
           [EWGAdd 1; EGo WListenLoop; EWGAdd 1; EGo (WRun Demo.d0)]).
  vm_compute. reflexivity.
Defined.

Lemma C10_failed_Start_leaves_running_witness :
  (running Demo.keyless = false /\ PrivateKey Demo.keyless = None
   /\ quit Demo.keyless = ChanNil)
  /\ exists srv1,
       Start (H := Demo.ext) Demo.keyless
       = (srv1, Some (ErrMsg "Server.PrivateKey must be set to a non-nil key"), []) /\
       running srv1 = true /\
       quit srv1 = ChanNil /\
       (forall n, Start (H := Demo.ext) (Start_times (H := Demo.ext) n srv1)
                  = (srv1, Some (ErrMsg "server already running"), [])) /\
       Stop srv1 = Panic "close of nil channel".
Proof.
  split; [repeat split |].
  apply (C10_failed_Start_leaves_running (H := Demo.ext) Demo.keyless);
    vm_compute; reflexivity.
Defined.

(** * The further properties at concrete inputs *)

Lemma sample_both_reachable :
  reachable (H := Demo.ext) Demo.srv Demo.d0 Sample.both.
Proof.
  apply (exec_all_reachable (H := Demo.ext) Demo.srv Demo.d0 (Demo.admit5 ++ Demo.admit9)
           (Sample.run_out (Demo.admit5 ++ Demo.admit9))).
  vm_compute. reflexivity.
Qed.

Lemma sample_quitting_reachable :
  reachable (H := Demo.ext) Demo.srv Demo.d0 (Sample.run_out Sample.quitting).1.
Proof.
  apply (exec_all_reachable (H := Demo.ext) Demo.srv Demo.d0 Sample.quitting).
  vm_compute. reflexivity.
Qed.

Lemma startTasks_starts_prefix_witness :
  startTasks Sample.tasks [] = (seq 17 5, seq 1 16,
                                flat_map (fun t => [EWGAdd 1; EGo (WTask t)]) (seq 1 16))
  /\ exists started,
       Sample.tasks = started ++ seq 17 5 /\
       seq 1 16 = [] ++ started /\
       flat_map (fun t => [EWGAdd 1; EGo (WTask t)]) (seq 1 16)
       = flat_map (fun t => [EWGAdd 1; EGo (WTask t)]) started /\
       (seq 17 5 <> [] -> maxActiveDialTasks <= Z.of_nat (length (seq 1 16))) /\
       (Z.of_nat (length (@nil nat)) <= maxActiveDialTasks ->
        Z.of_nat (length (seq 1 16)) <= maxActiveDialTasks).
Proof.
  assert (Hs : startTasks Sample.tasks []
               = (seq 17 5, seq 1 16,
                  flat_map (fun t => [EWGAdd 1; EGo (WTask t)]) (seq 1 16))).
  { vm_compute. reflexivity. }
  split; [exact Hs |]. exact (startTasks_starts_prefix _ _ _ _ _ Hs).
Defined.

Lemma delTask_removes_first_witness :
  In 3%nat [1; 3; 2; 3]%nat
  /\ exists l1 l2,
       [1; 3; 2; 3]%nat = l1 ++ 3%nat :: l2 /\ ~ In 3%nat l1 /\
       delTask 3 [1; 3; 2; 3]%nat = l1 ++ l2.
Proof.
  assert (Hin : In 3%nat [1; 3; 2; 3]%nat) by (simpl; tauto).
  split; [exact Hin |]. exact (proj1 (delTask_removes_first 3 [1; 3; 2; 3]%nat) Hin).
Defined.

Lemma scheduleTasks_keeps_every_task_witness :
  Z.of_nat (length (runningTasks Sample.busy)) <= maxActiveDialTasks
  /\ Z.of_nat (length (runningTasks
                         (scheduleTasks (H := Demo.ext) Demo.srv Sample.busy 101).1))
     <= maxActiveDialTasks.
Proof.
  assert (Hcap : Z.of_nat (length (runningTasks Sample.busy)) <= maxActiveDialTasks).
  { vm_compute. discriminate. }
  split; [exact Hcap |].
  exact (proj1 (scheduleTasks_keeps_every_task (H := Demo.ext) Demo.srv Sample.busy _ 101 _
                  (surjective_pairing _) Hcap)).
Defined.

Lemma sample_crowded_reachable :
  reachable (H := Sample.planning) Demo.srv Demo.d0 Sample.crowded.
Proof.
  unfold Sample.crowded.
  destruct (exec (H := Sample.planning) Demo.srv (initial Demo.d0)
              (LIteration 100 101 (EvPeerOp OpPeerCount))) as [[st eff] |] eqn:He;
    [| constructor].
  eapply reach_step; [constructor | by apply exec_sound].
Qed.

Lemma runningTasks_capped_witness :
  reachable (H := Sample.planning) Demo.srv Demo.d0 Sample.crowded
  /\ runningTasks Sample.crowded = seq 1 16
  /\ queuedTasks Sample.crowded = seq 17 5
  /\ Z.of_nat (length (runningTasks Sample.crowded)) <= maxActiveDialTasks.
Proof.
  split; [exact sample_crowded_reachable |].
  split; [vm_compute; reflexivity |].
  split; [vm_compute; reflexivity |].
  exact (runningTasks_capped (H := Sample.planning) Demo.srv Demo.d0 Sample.crowded
           sample_crowded_reachable).
Defined.

Lemma sample_addpeer_step :
  exec (H := Demo.ext) Demo.srv Demo.before_addpeer (LIteration 102 103 (EvAddPeer 1%nat))
  = Some (Sample.step_out Demo.before_addpeer (LIteration 102 103 (EvAddPeer 1%nat))).
Proof. vm_compute. reflexivity. Qed.

Lemma sample_posthandshake_step :
  exec (H := Demo.ext) Demo.srv Demo.before_trusted
    (LIteration 104 105 (EvPosthandshake 2%nat))
  = Some (Sample.step_out Demo.before_trusted (LIteration 104 105 (EvPosthandshake 2%nat))).
Proof. vm_compute. reflexivity. Qed.

Lemma loop_step_registers_workers_witness :
  loop_step (H := Demo.ext) Demo.srv Demo.before_addpeer
    (LIteration 102 103 (EvAddPeer 1%nat))
    (Sample.step_out Demo.before_addpeer (LIteration 102 103 (EvAddPeer 1%nat))).2
    (Sample.step_out Demo.before_addpeer (LIteration 102 103 (EvAddPeer 1%nat))).1
  /\ registered
       (Sample.step_out Demo.before_addpeer (LIteration 102 103 (EvAddPeer 1%nat))).2.
Proof.
  pose proof (exec_step_out (H := Demo.ext) _ _ _ _ sample_addpeer_step) as Hstep.
  split; [exact Hstep |].
  exact (loop_step_registers_workers (H := Demo.ext) _ _ _ _ _ Hstep).
Defined.

Lemma failed_Start_launches_nothing_witness :
  Start (H := Demo.ext) Sample.discovering
  = ((Start (H := Demo.ext) Sample.discovering).1.1,
     Some (ErrMsg "udp: address already in use"), [])
  /\ running (Start (H := Demo.ext) Sample.discovering).1.1 = true
  /\ (exists srv2 eff2,
        Stop (Start (H := Demo.ext) Sample.discovering).1.1 = Ret (srv2, eff2)
        /\ running srv2 = false).
Proof.
  assert (Hs : Start (H := Demo.ext) Sample.discovering
               = ((Start (H := Demo.ext) Sample.discovering).1.1,
                  Some (ErrMsg "udp: address already in use"), [])).
  { vm_compute. reflexivity. }
  split; [exact Hs |].
  destruct (failed_Start_launches_nothing (H := Demo.ext) _ _ _ _ Hs)
    as (_ & _ & _ & Hrun & _ & Hstop).
  split; [exact Hrun |]. apply Hstop; [reflexivity | discriminate].
Defined.

Lemma sample_Start :
  Start (H := Demo.ext) Demo.srv0
  = (Demo.srv, None, [EWGAdd 1; EGo WListenLoop; EWGAdd 1; EGo (WRun Demo.d0)]).
Proof. vm_compute. reflexivity. Qed.

Lemma Start_initialises_witness :
  Start (H := Demo.ext) Demo.srv0
  = (Demo.srv, None, [EWGAdd 1; EGo WListenLoop; EWGAdd 1; EGo (WRun Demo.d0)])
  /\ exists key node,
       PrivateKey Demo.srv0 = Some key /\
       is_Some (newTransport Demo.srv) /\ is_Some (Dialer Demo.srv) /\
       ourHandshake Demo.srv
       = Some {| protoHandshake.Version := baseProtocolVersion (External := Demo.ext);
                 protoHandshake.Name := Name Demo.srv0;
                 protoHandshake.Caps := map Protocol.cap (Protocols Demo.srv0);
                 protoHandshake.ID := PubkeyID (External := Demo.ext) key |} /\
       Self (H := Demo.ext) Demo.srv = Ret node /\
       (ntab Demo.srv = None ->
        discover.ID node = PubkeyID (External := Demo.ext) key
        /\ 0 <= discover.TCP node < 2 ^ 16) /\
       (forall tab, ntab Demo.srv = Some tab -> node = tab_Self tab) /\
       count_run [EWGAdd 1; EGo WListenLoop; EWGAdd 1; EGo (WRun Demo.d0)] = 1.
Proof.
  split; [exact sample_Start |].
  exact (Start_initialises (H := Demo.ext) _ _ _ sample_Start).
Defined.

Lemma Start_registers_workers_witness :
  Start (H := Demo.ext) Demo.srv0
  = (Demo.srv, None, [EWGAdd 1; EGo WListenLoop; EWGAdd 1; EGo (WRun Demo.d0)])
  /\ registered [EWGAdd 1; EGo WListenLoop; EWGAdd 1; EGo (WRun Demo.d0)]
  /\ loopWG Demo.srv
     = loopWG Demo.srv0
       + count_go [EWGAdd 1; EGo WListenLoop; EWGAdd 1; EGo (WRun Demo.d0)].
Proof.
  split; [exact sample_Start |].
  exact (Start_registers_workers (H := Demo.ext) _ _ _ _ sample_Start).
Defined.

Lemma descriptor_changes_witness :
  conns Demo.before_trusted !! 2%nat = Some (Demo.mkconn inboundConn 9%N [])
  /\ exists cn',
       conns (Sample.step_out Demo.before_trusted
                (LIteration 104 105 (EvPosthandshake 2%nat))).1 !! 2%nat = Some cn' /\
       id cn' = id (Demo.mkconn inboundConn 9%N []) /\
       (cn' = Demo.mkconn inboundConn 9%N []
        \/ (cn' = set_flags (Demo.mkconn inboundConn 9%N [])
                    (Z.lor (flags (Demo.mkconn inboundConn 9%N [])) trustedConn) /\
            in_trusted_set Demo.srv (id (Demo.mkconn inboundConn 9%N [])) /\
            exists now schedNow,
              LIteration 104 105 (EvPosthandshake 2%nat)
              = LIteration now schedNow (EvPosthandshake 2%nat))
        \/ (exists cs n,
              LIteration 104 105 (EvPosthandshake 2%nat) = LProtoHandshake 2 cs n /\
              cn' = set_caps_name (Demo.mkconn inboundConn 9%N []) cs n)).
Proof.
  assert (Hcn : conns Demo.before_trusted !! 2%nat = Some (Demo.mkconn inboundConn 9%N [])).
  { vm_compute. reflexivity. }
  split; [exact Hcn |].
  exact (descriptor_changes (H := Demo.ext) _ _ _ _ _ _ _
           (exec_step_out (H := Demo.ext) _ _ _ _ sample_posthandshake_step) Hcn).
Defined.

Lemma peer_map_changes_witness :
  loop_step (H := Demo.ext) Demo.srv Demo.before_addpeer
    (LIteration 102 103 (EvAddPeer 1%nat))
    (Sample.step_out Demo.before_addpeer (LIteration 102 103 (EvAddPeer 1%nat))).2
    (Sample.step_out Demo.before_addpeer (LIteration 102 103 (EvAddPeer 1%nat))).1
  /\ (size (peers (Sample.step_out Demo.before_addpeer
                     (LIteration 102 103 (EvAddPeer 1%nat))).1)
      <= S (size (peers Demo.before_addpeer)))%nat.
Proof.
  pose proof (exec_step_out (H := Demo.ext) _ _ _ _ sample_addpeer_step) as Hstep.
  split; [exact Hstep |].
  exact (proj1 (proj2 (peer_map_changes (H := Demo.ext) _ _ _ _ _ Hstep))).
Defined.

Lemma sample_peer5 : peers Sample.both !! 5%N = Some {| rw := 1%nat |}.
Proof. vm_compute. reflexivity. Qed.

Lemma peers_keyed_by_own_identity_witness :
  reachable (H := Demo.ext) Demo.srv Demo.d0 Sample.both
  /\ peers Sample.both !! 5%N = Some {| rw := 1%nat |}
  /\ Peer_ID (conns Sample.both) {| rw := 1%nat |} = Ret 5%N.
Proof.
  split; [exact sample_both_reachable |]. split; [exact sample_peer5 |].
  exact (proj1 (proj2 (peers_keyed_by_own_identity (H := Demo.ext) Demo.srv Demo.d0
                         Sample.both sample_both_reachable))
           5%N {| rw := 1%nat |} sample_peer5).
Defined.

Lemma delpeer_removes_own_entry_witness :
  reachable (H := Demo.ext) Demo.srv Demo.d0 Sample.both
  /\ peers Sample.both !! 5%N = Some {| rw := 1%nat |}
  /\ exists st',
       handle (H := Demo.ext) Demo.srv Sample.both 110 (EvDelPeer {| rw := 1%nat |})
       = Ret (st', [EPeersDelete 5]) /\
       peers st' = delete 5%N (peers Sample.both) /\ peers st' !! 5%N = None /\
       S (size (peers st')) = size (peers Sample.both).
Proof.
  split; [exact sample_both_reachable |]. split; [exact sample_peer5 |].
  exact (proj1 (delpeer_removes_own_entry (H := Demo.ext) Demo.srv Demo.d0 Sample.both
                  5%N {| rw := 1%nat |} 110 sample_both_reachable sample_peer5)).
Defined.

Lemma run_returns_with_empty_map_witness :
  reachable (H := Demo.ext) Demo.srv Demo.d0 (Sample.run_out Sample.quitting).1
  /\ phase (Sample.run_out Sample.quitting).1 = Spindown
  /\ peers (Sample.run_out Sample.quitting).1 <> ∅.
Proof.
  assert (Hph : phase (Sample.run_out Sample.quitting).1 = Spindown).
  { vm_compute. reflexivity. }
  split; [exact sample_quitting_reachable |]. split; [exact Hph |].
  exact (proj2 (run_returns_with_empty_map (H := Demo.ext) Demo.srv Demo.d0 _
                  sample_quitting_reachable) Hph).
Defined.

Lemma quit_disconnects_every_peer_witness :
  reachable (H := Demo.ext) Demo.srv Demo.d0 Sample.both
  /\ handle (H := Demo.ext) Demo.srv Sample.both 108 EvQuit
     = Ret (spindown Demo.srv Sample.both)
  /\ exists ps,
       (spindown Demo.srv Sample.both).2
       = ((fun p => EDisconnect p DiscQuitting) <$> ps)
         ++ (match ntab Demo.srv with Some _ => [ENtabClose] | None => [] end) /\
       NoDup ps /\
       (forall p, p ∈ ps <-> exists k, peers Sample.both !! k = Some p) /\
       peers (spindown Demo.srv Sample.both).1 = peers Sample.both /\
       conns (spindown Demo.srv Sample.both).1 = conns Sample.both.
Proof.
  split; [exact sample_both_reachable |]. split; [reflexivity |].
  exact (quit_disconnects_every_peer (H := Demo.ext) Demo.srv Demo.d0 Sample.both
           (spindown Demo.srv Sample.both).1 108 (spindown Demo.srv Sample.both).2
           sample_both_reachable eq_refl).
Defined.

Lemma verdicts_of_the_run_loop_witness :
  In (ESendCont 2 None)
    (Sample.step_out Demo.before_trusted (LIteration 104 105 (EvPosthandshake 2%nat))).2
  /\ ((exists now schedNow,
         LIteration 104 105 (EvPosthandshake 2%nat)
         = LIteration now schedNow (EvPosthandshake 2%nat) /\ In None enc_verdicts)
      \/ (exists now schedNow,
            LIteration 104 105 (EvPosthandshake 2%nat)
            = LIteration now schedNow (EvAddPeer 2%nat) /\ In None proto_verdicts)).
Proof.
  assert (Hin : In (ESendCont 2 None)
                  (Sample.step_out Demo.before_trusted
                     (LIteration 104 105 (EvPosthandshake 2%nat))).2).
  { vm_compute. left. reflexivity. }
  split; [exact Hin |].
  exact (verdicts_of_the_run_loop (H := Demo.ext) _ _ _ _ _ _ _
           (exec_step_out (H := Demo.ext) _ _ _ _ sample_posthandshake_step) Hin).
Defined.

Lemma Peers_and_PeerCount_agree_witness :
  reachable (H := Demo.ext) Demo.srv Demo.d0 Sample.both
  /\ PeerCount (ServedByRunLoop (peers Sample.both))
     = Z.of_nat (length (Peers (ServedByRunLoop (peers Sample.both))))
  /\ NoDup (Peers (ServedByRunLoop (peers Sample.both))).
Proof.
  split; [exact sample_both_reachable |].
  destruct (Peers_and_PeerCount_agree (H := Demo.ext) Demo.srv Demo.d0 Sample.both
              sample_both_reachable) as (Hnd & _ & Hcount & _).
  split; [exact Hcount | exact Hnd].
Defined.

Lemma sample_setupConn :
  setupConn Demo.srv 7%nat 0%nat inboundConn None (CpReply None) (CpReply None)
  = Ret ({| flags := inboundConn; id := 5%N; caps := [Protocol.cap Demo.eth65];
            name := "remote" |},
         [EGo (WWatchdog 7); ECheckpoint StagePosthandshake 7; ECheckpoint StageAddpeer 7]).
Proof. vm_compute. reflexivity. Qed.

Lemma addpeer_checkpoint_needs_verified_identity_witness :
  newTransport Demo.srv = Some (fun _ => Demo.remote 5%N [Protocol.cap Demo.eth65])
  /\ In (ECheckpoint StageAddpeer 7)
       [EGo (WWatchdog 7); ECheckpoint StagePosthandshake 7; ECheckpoint StageAddpeer 7]
  /\ exists k phs post,
       running Demo.srv = true /\
       doEncHandshake (Demo.remote 5%N [Protocol.cap Demo.eth65]) (PrivateKey Demo.srv) None
       = (k, None) /\
       ~ dial_mismatch None k /\
       CpReply None = CpReply None /\
       doProtoHandshake (Demo.remote 5%N [Protocol.cap Demo.eth65]) (ourHandshake Demo.srv)
       = inl phs /\
       protoHandshake.ID phs = k /\
       5%N = k /\
       [Protocol.cap Demo.eth65] = protoHandshake.Caps phs /\
       "remote"%string = protoHandshake.Name phs /\
       [EGo (WWatchdog 7); ECheckpoint StagePosthandshake 7; ECheckpoint StageAddpeer 7]
       = [EGo (WWatchdog 7); ECheckpoint StagePosthandshake 7;
          ECheckpoint StageAddpeer 7] ++ post /\
       (forall s, ~ In (ECheckpoint s 7) post).
Proof.
  assert (Hmk : newTransport Demo.srv
                = Some (fun _ => Demo.remote 5%N [Protocol.cap Demo.eth65])).
  { vm_compute. reflexivity. }
  assert (Hin : In (ECheckpoint StageAddpeer 7)
                  [EGo (WWatchdog 7); ECheckpoint StagePosthandshake 7;
                   ECheckpoint StageAddpeer 7]) by (simpl; tauto).
  split; [exact Hmk |]. split; [exact Hin |].
  exact (addpeer_checkpoint_needs_verified_identity Demo.srv _ 7%nat 0%nat inboundConn
           None (CpReply None) (CpReply None) _ _ Hmk sample_setupConn Hin).
Defined.

Lemma listenLoop_bounds_pending_witness :
  listen_start Sample.srv3
  = Some {| slots := {| capacity := 3; held := 3 |}; drivers := 0; accepting := true |}
  /\ listen_run
       {| slots := {| capacity := 3; held := 3 |}; drivers := 0; accepting := true |}
       Sample.arrivals
     = Some (Sample.listening Sample.arrivals)
  /\ Z.of_nat (drivers (Sample.listening Sample.arrivals)) <= listen_tokens Sample.srv3
  /\ forall fd,
       is_Some (listen_step (Sample.listening Sample.arrivals) (LAccept fd))
       <-> Z.of_nat (drivers (Sample.listening Sample.arrivals)) < listen_tokens Sample.srv3.
Proof.
  assert (Hstart : listen_start Sample.srv3
                   = Some {| slots := {| capacity := 3; held := 3 |}; drivers := 0;
                             accepting := true |}).
  { vm_compute. reflexivity. }
  assert (Hrun : listen_run
                   {| slots := {| capacity := 3; held := 3 |}; drivers := 0;
                      accepting := true |} Sample.arrivals
                 = Some (Sample.listening Sample.arrivals)).
  { vm_compute. reflexivity. }
  split; [exact Hstart |]. split; [exact Hrun |].
  destruct (listenLoop_bounds_pending Sample.srv3 Sample.arrivals _ _ Hstart Hrun)
    as (_ & _ & Hle & _ & _ & Hacc).
  split; [exact Hle |]. apply Hacc. vm_compute. reflexivity.
Defined.
